(** * Randomizer.H (lcelib/nets): degree-preserving rewiring of networks

    A shallow embedding of [confModelSimple], [switchLinkPairEnds] and
    [randomize] from lcelib/nets/Randomizer.H, together with the
    properties of these functions.

    The network container, the random number generator, [Dijkstrator],
    [ConnectivityCheck], [copyNet] and [numberOfEdges] are declared in other
    headers of lcelib; they appear here as small models of the interface
    that Randomizer.H uses. *)

From Stdlib Require Import QArith Qcanon.
From stdpp Require Import gmultiset gmap list fin_maps fin_sets.

#[global] Set Warnings "-clear-no-such-hyp".

Set Default Proof Using "Type".

(** ** Outcomes of a call

    [AssertFailed] is a failed [assert]; [Undefined] is an access outside
    the container (an index past the end of a vector, a random key of an
    empty map); [OutOfFuel] cuts the unbounded [do ... while] loops. *)

Inductive result (A : Type) : Type :=
  | Ok (a : A)
  | AssertFailed
  | Undefined
  | OutOfFuel.

Arguments Ok {A} a.
Arguments AssertFailed {A}.
Arguments Undefined {A}.
Arguments OutOfFuel {A}.

Definition rbind {A B : Type} (r : result A) (k : A → result B) : result B :=
  match r with
  | Ok a => k a
  | AssertFailed => AssertFailed
  | Undefined => Undefined
  | OutOfFuel => OutOfFuel
  end.

Global Instance result_bind : MBind result := λ A B k r, rbind r k.
Global Instance result_ret : MRet result := @Ok.

(** ** The network

    Modelled from the spec: the network container ([NetType], a symmetric
    weighted net of Containers.H) is not part of Randomizer.H.  The spec
    gives its interface: nodes [0..N-1], one map from neighbour to weight per
    node, [get(u,v)] returning the weight or zero when the edge is absent,
    and a symmetric [set(u,v,w)] that creates, updates or (for [w = 0])
    removes the edge.  Weights are integers here: the code only copies
    them and compares them with the default value [EdgeData()], zero. *)

Abbreviation Row := (gmap nat Z).
Abbreviation Net := (list (gmap nat Z)).

(** [theNet.size()] is [length theNet]. *)

(** [theNet(u)[v]]: reading an edge weight, zero when there is no edge. *)
Definition get (net : Net) (u v : nat) : Z :=
  match net !! u with
  | Some r => default 0%Z (r !! v)
  | None => 0%Z
  end.

(** One half of an assignment: the entry for [v] in a row. *)
Definition upd (v : nat) (x : Z) (r : Row) : Row :=
  if decide (x = 0%Z) then delete v r else <[v:=x]> r.

(** [theNet[u][v] = x]: both directions are written. *)
Definition set (net : Net) (u v : nat) (x : Z) : Net :=
  alter (upd u x) v (alter (upd v x) u net).

(** [theNet(u).size()]: the number of neighbours of [u]. *)
Definition degree (net : Net) (u : nat) : nat :=
  from_option size 0 (net !! u).

(** The neighbours of [u], the keys of its row. *)
Definition nbrs (net : Net) (u : nat) : gset nat :=
  from_option dom ∅ (net !! u).

(** The keys of a row in the order in which an [edge_iterator] visits them. *)
Definition keys (r : Row) : list nat := (map_to_list r).*1.

(** The invariants of the container: no zero weight is stored, neighbours
    are nodes of the net, the weights are symmetric and there is no
    self-link. *)
Record wf (net : Net) : Prop := {
  wf_nozero : ∀ u r v, net !! u = Some r → r !! v ≠ Some 0%Z;
  wf_range : ∀ u v, get net u v ≠ 0%Z → v < length net;
  wf_sym : ∀ u v, get net u v = get net v u;
  wf_noloop : ∀ u, get net u u = 0%Z
}.

Definition nozero (net : Net) : Prop :=
  ∀ u r v, net !! u = Some r → r !! v ≠ Some 0%Z.

(** Two node pairs that denote the same undirected edge. *)
Definition same_edge (a b u v : nat) : Prop :=
  (a = u ∧ b = v) ∨ (a = v ∧ b = u).

Global Instance same_edge_dec a b u v : Decision (same_edge a b u v).
Proof. unfold same_edge. apply _. Defined.

(** ** The random number generator

    Modelled from the spec: the generator of Randgens.H is not part of
    Randomizer.H.  The code draws integers with [generator.next(bound)],
    meant to lie in [[0, bound)], and a real in [[0, 1)] with
    [generator.next(1.0)].  Nothing is assumed here about the values: an
    index that falls outside a container makes the call [Undefined]. *)

Class Generator (G : Type) := {
  next : nat → G → nat * G;
  next_real : G → Qc * G
}.

(** A generator that replays a recorded list of numbers, reduced into the
    range that the caller asks for, and returns zero once the list is used
    up.  A real draw is the recorded number of thousandths. *)
Definition tape_next (bound : nat) (t : list nat) : nat * list nat :=
  (hd 0 t mod bound, tl t).

Definition tape_next_real (t : list nat) : Qc * list nat :=
  ((Qc_of_Z (Z.of_nat (hd 0%nat t mod 1000)) / Qc_of_Z 1000)%Qc, tl t).

Global Instance tape_generator : Generator (list nat) := {
  next := tape_next;
  next_real := tape_next_real
}.

(** ** Machine integers *)

(** [size_t] is taken to have 64 bits. *)
Definition size_max : Z := (2 ^ 64)%Z.

(** The largest [int]. *)
Definition int_max : Z := 2147483647%Z.

(** [edgeList[idx]] on a [std::vector]. *)
Definition vec_at {A : Type} (l : list A) (idx : nat) : result A :=
  match l !! idx with
  | Some x => Ok x
  | None => Undefined
  end.

(** ** confModelSimple *)

(** Lines 131-135: every edge once, smaller node first. *)
Definition build_edgeList (net : Net) : list (nat * nat) :=
  mjoin (imap (λ i r, (λ k, (i, k)) <$> filter (λ k, i < k) (keys r)) net).

(** The net after each of the four assignments of lines 173-182, for the
    edges [(a,b)] and [(c,d)] and the draw [r] that chooses which weight
    goes to which new edge. *)
Definition cm_swap_states (net : Net) (a b c d r : nat) : list Net :=
  let n1 := if decide (r = 0) then set net a d (get net a b)
            else set net a d (get net c d) in
  let n2 := if decide (r = 0) then set n1 b c (get n1 c d)
            else set n1 b c (get n1 a b) in
  let n3 := set n2 a b 0 in
  let n4 := set n3 c d 0 in
  [n1; n2; n3; n4].

Definition cm_swap (net : Net) (a b c d r : nat) : Net :=
  List.last (cm_swap_states net a b c d r) net.

(** How one round of the loop of line 139 ended. *)
Inductive round_tag : Type :=
  | Coincided      (* edgeIndex1 == edgeIndex2 *)
  | SharedNode     (* the two edges share a node *)
  | Occupied       (* one of the new edges exists already *)
  | Swapped.       (* the swap was made *)

Global Instance round_tag_eq_dec : EqDecision round_tag.
Proof. solve_decision. Defined.

(** ** Edges, weights and connectivity *)

(** The pair with its smaller node first. *)
Definition norm (e : nat * nat) : nat * nat :=
  if decide (e.1 ≤ e.2) then e else (e.2, e.1).

(** Modelled from the spec: [numberOfEdges] is declared outside
    Randomizer.H; [numLinks] is the current edge count, every undirected
    edge counted once. *)
Definition numberOfEdges (net : Net) : nat := length (build_edgeList net).

(** The weights of the edges, with multiplicity. *)
Definition edge_weights (net : Net) : gmultiset Z :=
  list_to_set_disj ((λ e, get net e.1 e.2) <$> build_edgeList net).

(** The sum of the weights of the edges. *)
Definition total_weight (net : Net) : Z :=
  foldr Z.add 0%Z ((λ e, get net e.1 e.2) <$> build_edgeList net).

(** Modelled from the spec: [copyNet(src, dst)] is declared outside
    Randomizer.H; it makes [dst] a full copy of the adjacency and weights
    of [src]. *)
Definition copyNet (src : Net) : Net := src.

(** Two nodes joined by an edge, and connectedness of the whole net. *)
Definition adjacent (net : Net) (u v : nat) : Prop := get net u v ≠ 0%Z.

Definition connected (net : Net) : Prop :=
  ∀ u v, u < length net → v < length net → rtc (adjacent net) u v.

(** One more layer of neighbours. *)
Definition reach_step (net : Net) (X : gset nat) : gset nat :=
  X ∪ ⋃ (nbrs net <$> elements X).

(** Modelled from the spec: [ConnectivityCheck] is declared outside
    Randomizer.H; it is an exact connectivity check that returns a boolean.
    Here every node must be found from node 0 within as many layers as
    there are nodes. *)
Definition ConnectivityCheck (net : Net) : bool :=
  bool_decide
    (Forall (λ u, u ∈ Nat.iter (length net) (reach_step net) {[0]})
       (seq 0 (length net))).

(** Modelled from the spec: [Dijkstrator] (Dijkstrator.H) is not part of
    Randomizer.H.  The code starts one from a node of the net, advances it
    with [++] and asks whether it is [finished()]. *)
Class Dijkstrator (D : Type) := {
  dij_start : Net → nat → D;
  dij_finished : D → bool;
  dij_next : Net → D → D
}.

(** Modelled from the spec: the frontier probe of the spec, a breadth-first
    expansion from a seed that advances one layer per step and is finished
    when no unvisited neighbour is left. *)
Record bfs : Type := Bfs {
  bfs_seen : gset nat;
  bfs_frontier : gset nat
}.

Definition bfs_start (net : Net) (seed : nat) : bfs := Bfs {[seed]} {[seed]}.

Definition bfs_finished (b : bfs) : bool := bool_decide (bfs_frontier b = ∅).

Definition bfs_next (net : Net) (b : bfs) : bfs :=
  let layer := ⋃ (nbrs net <$> elements (bfs_frontier b)) ∖ bfs_seen b in
  Bfs (bfs_seen b ∪ layer) layer.

Global Instance bfs_dijkstrator : Dijkstrator bfs := {
  dij_start := bfs_start;
  dij_finished := bfs_finished;
  dij_next := bfs_next
}.

Section Randomizer.
Context {G : Type} `{!Generator G} {D : Type} `{!Dijkstrator D}.

Record cm_state : Type := CmState {
  cm_net : Net;
  cm_edgeList : list (nat * nat);
  cm_successfullRounds : Z;
  cm_generator : G
}.

(** The body of the loop, lines 140-190.  Besides the new state, the result
    tells how the round ended and lists the nets that the four assignments
    of an accepted swap go through.  Reading [theNet(u)] for a [u] that is
    not a node of the net, and counting past the largest [int], are
    [Undefined]. *)
Definition cm_round (st : cm_state)
    : result (round_tag * list Net * cm_state) :=
  let theNet := cm_net st in
  let edgeList := cm_edgeList st in
  let '(edgeIndex1, g) := next (length edgeList) (cm_generator st) in
  let '(edgeIndex2, g) := next (length edgeList) g in
  if decide (edgeIndex1 ≠ edgeIndex2) then
    edge1 ← vec_at edgeList edgeIndex1;
    edge2 ← vec_at edgeList edgeIndex2;
    if decide (edge1.1 ≠ edge2.1 ∧ edge1.1 ≠ edge2.2 ∧
               edge1.2 ≠ edge2.1 ∧ edge1.2 ≠ edge2.2) then
      let '(flip, g) := next 2 g in
      let edge1 := if decide (flip = 0) then (edge1.2, edge1.1) else edge1 in
      if decide (edge1.1 < length theNet ∧ edge1.2 < length theNet ∧
                 edge2.1 < length theNet ∧ edge2.2 < length theNet) then
        if decide (get theNet edge1.1 edge2.2 = 0%Z ∧
                   get theNet edge1.2 edge2.1 = 0%Z) then
          if decide (cm_successfullRounds st = int_max) then Undefined else
          let successfullRounds := (cm_successfullRounds st + 1)%Z in
          let edgeList := alter (λ e, (edge1.1, e.2)) edgeIndex1 edgeList in
          let edgeList := alter (λ e, (e.1, edge2.2)) edgeIndex1 edgeList in
          let edgeList := alter (λ e, (e.1, edge1.2)) edgeIndex2 edgeList in
          let '(order, g) := next 2 g in
          let states :=
            cm_swap_states theNet edge1.1 edge1.2 edge2.1 edge2.2 order in
          Ok (Swapped, states,
              CmState (List.last states theNet) edgeList successfullRounds g)
        else Ok (Occupied, [],
                 CmState theNet edgeList (cm_successfullRounds st) g)
      else Undefined
    else Ok (SharedNode, [],
             CmState theNet edgeList (cm_successfullRounds st) g)
  else Ok (Coincided, [],
           CmState theNet edgeList (cm_successfullRounds st) g).

(** [n] rounds, with the record of each round. *)
Fixpoint cm_loop (n : nat) (st : cm_state)
    : result (list (round_tag * list Net) * cm_state) :=
  match n with
  | 0 => Ok ([], st)
  | S n =>
      '(tag, states, st) ← cm_round st;
      '(log, st) ← cm_loop n st;
      Ok ((tag, states) :: log, st)
  end.

(** The number of iterations of [for (size_t round=0; round<repeats; ++round)]:
    the [int] is converted to [size_t] for the comparison. *)
Definition cm_iterations (repeats : Z) : nat :=
  Z.to_nat (repeats mod size_max).

Definition confModelSimple_run (theNet : Net) (generator : G) (repeats : Z)
    : result (list (round_tag * list Net) * cm_state) :=
  cm_loop (cm_iterations repeats)
    (CmState theNet (build_edgeList theNet) 0 generator).

(** The net and the generator after the call, and the returned value. *)
Definition confModelSimple (theNet : Net) (generator : G) (repeats : Z)
    : result (Net * G * Z) :=
  '(_, st) ← confModelSimple_run theNet generator repeats;
  Ok (cm_net st, cm_generator st, cm_successfullRounds st).


(** ** switchLinkPairEnds *)

(** Modelled from the spec: [theNet(u).randKey(generator)] belongs to the
    container; it samples one existing neighbour of [u].  Here it draws a
    position in the list of keys of the row; a row without keys has no
    random key. *)
Definition randKey (r : Row) (g : G) : result (nat * G) :=
  let '(pos, g) := next (size r) g in
  match keys r !! pos with
  | Some k => Ok (k, g)
  | None => Undefined
  end.

(** [theNet(u)] for a node taken from the generator. *)
Definition row_at (net : Net) (u : nat) : result Row := vec_at net u.

(** Lines 280-287: draw the edges [i<->m] and [j<->n] until the switch is
    possible.  A neighbour is a node of the net in every net that [set]
    has built; a key outside the net is [Undefined]. *)
Fixpoint sl_draw (fuel : nat) (theNet : Net) (g : G) (netSize : nat)
    : result (nat * nat * nat * nat * G) :=
  match fuel with
  | 0 => OutOfFuel
  | S fuel =>
      let '(i, g) := next netSize g in
      let '(j, g) := next netSize g in
      ri ← row_at theNet i;
      '(m, g) ← randKey ri g;
      rj ← row_at theNet j;
      '(n, g) ← randKey rj g;
      if decide (m < length theNet ∧ n < length theNet) then
        if decide (i = j ∨ m = n ∨ m = j ∨ n = i ∨
                   get theNet i n ≠ 0%Z ∨ get theNet j m ≠ 0%Z)
        then sl_draw fuel theNet g netSize
        else Ok (i, j, m, n, g)
      else Undefined
  end.

(** Lines 298-301: make the switch. *)
Definition sl_switch (theNet : Net) (i j m n : nat) : Net :=
  let theNet := set theNet i n (get theNet i m) in
  let theNet := set theNet j m (get theNet j n) in
  let theNet := set theNet i m 0 in
  set theNet j n 0.

(** Lines 321-324: reverse the switch. *)
Definition sl_reverse (theNet : Net) (i j m n : nat) : Net :=
  let theNet := set theNet i m (get theNet i n) in
  let theNet := set theNet j n (get theNet j m) in
  let theNet := set theNet i n 0 in
  set theNet j m 0.

(** Lines 307-312: both searches advance together, at most [limit] times. *)
Fixpoint sl_probe (theNet : Net) (paths1 paths2 : D) (remaining : nat)
    : D * D :=
  match remaining with
  | 0 => (paths1, paths2)
  | S remaining =>
      if negb (dij_finished paths1) && negb (dij_finished paths2)
      then sl_probe theNet (dij_next theNet paths1) (dij_next theNet paths2)
             remaining
      else (paths1, paths2)
  end.

(** Lines 290-326: one try with the edges [i<->m] and [j<->n]; the result is
    [expectConnected] and the net. *)
Definition sl_try (theNet : Net) (i j m n : nat) (limit : Z) : bool * Net :=
  if decide ((degree theNet i = 1 ∧ degree theNet n = 1) ∨
             (degree theNet j = 1 ∧ degree theNet m = 1))
  then (false, theNet)
  else
    let theNet := sl_switch theNet i j m n in
    let '(paths1, paths2) :=
      sl_probe theNet (dij_start theNet i) (dij_start theNet j)
        (Z.to_nat limit) in
    if dij_finished paths1 || dij_finished paths2
    then (false, sl_reverse theNet i j m n)
    else (true, theNet).

(** Lines 278-328: the loop [do ... while (!expectConnected)]. *)
Fixpoint sl_loop (fuel : nat) (theNet : Net) (g : G) (netSize : nat)
    (limit tries : Z) : result (Net * G * Z) :=
  match fuel with
  | 0 => OutOfFuel
  | S fuel =>
      let tries := ((tries + 1) mod size_max)%Z in
      '(i, j, m, n, g) ← sl_draw fuel theNet g netSize;
      let '(expectConnected, theNet) := sl_try theNet i j m n limit in
      if expectConnected then Ok (theNet, g, tries)
      else sl_loop fuel theNet g netSize limit tries
  end.

(** The net and the generator after the call, and the returned [tries]. *)
Definition switchLinkPairEnds (fuel : nat) (theNet : Net) (generator : G)
    (netSize : nat) (limit : Z) : result (Net * G * Z) :=
  if decide (limit ≤ Z.of_nat netSize ∧ 0 < limit)%Z
  then sl_loop fuel theNet generator netSize limit 0
  else AssertFailed.

(** ** randomize *)

(** Lines 430-432: [numLinks] switches; [tries] adds up the returned values. *)
Fixpoint rz_batch (fuel : nat) (numLinks : nat) (net : Net) (g : G)
    (netSize : nat) (limit tries : Z) : result (Net * G * Z) :=
  match numLinks with
  | 0 => Ok (net, g, tries)
  | S numLinks =>
      '(net, g, t) ← switchLinkPairEnds fuel net g netSize limit;
      rz_batch fuel numLinks net g netSize limit ((tries + t) mod size_max)%Z
  end.

(** Line 446: [limit += 5] on a [size_t]. *)
Definition limit_increase (limit : Z) : Z := ((limit + 5) mod size_max)%Z.

(** Lines 453-457: after a successful check. *)
Definition limit_decrease (disconnectionFound : bool) (limit : Z) (g : G)
    : Z * G :=
  if disconnectionFound then
    let '(r, g) := next_real g in
    if decide ((r < Qc_of_Z 1 / Qc_of_Z 10)%Qc ∧ (limit > 1)%Z)
    then ((limit - 1)%Z, g) else (limit, g)
  else
    if decide (limit > 1)%Z then ((limit - 1)%Z, g) else (limit, g).

(** What the two messages on [std::cerr] of lines 442 and 450 report: the
    round, the outcome of the check and what [limit] was; together with the
    flag [disconnectionFound] before the check, the real number drawn at
    line 454 if one was drawn, and [limit] after the adaptation. *)
Record check_event : Type := CheckEvent {
  ev_round : nat;
  ev_connected : bool;
  ev_found_before : bool;
  ev_draw : option Qc;
  ev_limit_was : Z;
  ev_limit_after : Z
}.

Record rz_state : Type := RzState {
  rz_net : Net;
  rz_generator : G;
  rz_limit : Z;
  rz_disconnectionFound : bool;
  rz_log : list check_event
}.


(** Lines 428-459: the loop [do ... while (switchAgain)] of round [i].
    The array [triesPerSwitch] is written and never read; it is left out. *)
Fixpoint rz_round (fuel : nat) (i : nat) (backupNet : Net)
    (netSize numLinks : nat) (st : rz_state) : result rz_state :=
  match fuel with
  | 0 => OutOfFuel
  | S fuel =>
      let limit := rz_limit st in
      let found := rz_disconnectionFound st in
      '(net, g, tries) ←
        rz_batch fuel numLinks (rz_net st) (rz_generator st) netSize limit 0;
      if negb (ConnectivityCheck net) then
        let ev :=
          CheckEvent i false found None limit (limit_increase limit) in
        rz_round fuel i backupNet netSize numLinks
          (RzState (copyNet backupNet) g (limit_increase limit) true
             (rz_log st ++ [ev]))
      else
        let draw := if found then Some (next_real g).1 else None in
        let '(limit', g) := limit_decrease found limit g in
        let ev := CheckEvent i true found draw limit limit' in
        Ok (RzState net g limit' found (rz_log st ++ [ev]))
  end.

(** Lines 420-464: the rounds, each with its own backup. *)
Fixpoint rz_rounds (fuel : nat) (rounds i : nat) (netSize numLinks : nat)
    (st : rz_state) : result rz_state :=
  match rounds with
  | 0 => Ok st
  | S rounds =>
      let backupNet := copyNet (rz_net st) in
      st ← rz_round fuel i backupNet netSize numLinks st;
      rz_rounds fuel rounds (S i) netSize numLinks st
  end.

Definition randomize (fuel : nat) (net : Net) (generator : G) (rounds : nat)
    (limit : Z) : result rz_state :=
  rz_rounds fuel rounds 0 (length net) (numberOfEdges net)
    (RzState net generator limit false []).

End Randomizer.

(** ** Rewiring

    [rewired net net' a b c d w1 w2]: [net'] is [net] without the edges
    [a-b] and [c-d], with the edge [a-d] of weight [w1] and the edge [b-c]
    of weight [w2], and with every other pair of nodes as in [net]. *)
Definition rewired (net net' : Net) (a b c d : nat) (w1 w2 : Z) : Prop :=
  ∀ x y, get net' x y =
    if decide (same_edge x y a b ∨ same_edge x y c d) then 0%Z
    else if decide (same_edge x y a d) then w1
    else if decide (same_edge x y b c) then w2
    else get net x y.

(** The pair [{u,v}] occurs in the list, in one orientation or the other. *)
Definition unordered_mem (u v : nat) (edgeList : list (nat * nat)) : Prop :=
  (u, v) ∈ edgeList ∨ (v, u) ∈ edgeList.

(** No edge occurs at two positions of the list, in either orientation. *)
Definition distinct_edges (edgeList : list (nat * nat)) : Prop :=
  ∀ k1 k2 e1 e2, edgeList !! k1 = Some e1 → edgeList !! k2 = Some e2 →
    same_edge e1.1 e1.2 e2.1 e2.2 → k1 = k2.

(** The cached list describes exactly the edges of the net. *)
Definition consistent (net : Net) (edgeList : list (nat * nat)) : Prop :=
  distinct_edges edgeList ∧
  ∀ u v, unordered_mem u v edgeList ↔ get net u v ≠ 0%Z.

(** A simple graph: a net that keeps the invariants of the container, in
    particular symmetric weights (one edge per pair of nodes) and no
    self-link. *)
Definition simple (net : Net) : Prop := wf net.

(** The edges [a-b] and [c-d] can be swapped into [a-d] and [b-c]: the four
    nodes are distinct, both edges exist and neither new edge exists. *)
Definition swappable (net : Net) (a b c d : nat) : Prop :=
  a ≠ c ∧ a ≠ d ∧ b ≠ c ∧ b ≠ d ∧
  get net a b ≠ 0%Z ∧ get net c d ≠ 0%Z ∧
  get net a d = 0%Z ∧ get net b c = 0%Z.

(** The edges of the net other than [a-b] and [c-d], as listed by
    [build_edgeList]. *)
Definition other_edges (net : Net) (a b c d : nat) : list (nat * nat) :=
  filter (λ e, e ≠ norm (a, b) ∧ e ≠ norm (c, d)) (build_edgeList net).

Section Invariants.
Context {G : Type} `{!Generator G}.

(** A generator that keeps within the range it is asked for. *)
Definition in_range_generator : Prop :=
  ∀ bound (g : G), 0 < bound → (next bound g).1 < bound.

(** The invariant of the loop of confModelSimple. *)
Definition cm_inv (st : cm_state (G:=G)) : Prop :=
  simple (cm_net st) ∧ consistent (cm_net st) (cm_edgeList st).

End Invariants.

(** The adaptation of [limit] that the code makes at one check. *)
Definition event_ok (ev : check_event) : Prop :=
  (1 ≤ ev_limit_was ev)%Z ∧ (1 ≤ ev_limit_after ev)%Z ∧
  if ev_connected ev then
    if ev_found_before ev then
      ∃ r, ev_draw ev = Some r ∧
        ev_limit_after ev =
          if decide ((r < Qc_of_Z 1 / Qc_of_Z 10)%Qc ∧ (ev_limit_was ev > 1)%Z)
          then (ev_limit_was ev - 1)%Z else ev_limit_was ev
    else
      ev_limit_after ev =
        if decide (ev_limit_was ev > 1)%Z
        then (ev_limit_was ev - 1)%Z else ev_limit_was ev
  else ev_limit_after ev = (ev_limit_was ev + 5)%Z.

(** The log starts from [limit] and [found], every event starts where the
    one before it ended, and the log ends in [limit'] and [found']:
    [limit] changes at the checks and nowhere else. *)
Fixpoint follows (limit : Z) (found : bool) (log : list check_event)
    (limit' : Z) (found' : bool) : Prop :=
  match log with
  | [] => limit' = limit ∧ found' = found
  | ev :: log =>
      ev_limit_was ev = limit ∧ ev_found_before ev = found ∧
      follows (ev_limit_after ev) (found || negb (ev_connected ev)) log
        limit' found'
  end.

(** No two edges of the net can be swapped. *)
Definition unswappable (net : Net) : Prop :=
  ∀ a b c d, ¬ swappable net a b c d.

Global Instance swappable_dec net a b c d : Decision (swappable net a b c d).
Proof. unfold swappable. apply _. Defined.

(** The same, checked over the nodes of the net. *)
Definition unswappable_check (net : Net) : bool :=
  let nodes := seq 0 (length net) in
  bool_decide
    (Forall (λ a, Forall (λ b, Forall (λ c, Forall (λ d,
       ¬ swappable net a b c d) nodes) nodes) nodes) nodes).

(** Every node that switchLinkPairEnds can draw is a node of the net and has
    a neighbour. *)
Definition drawable (net : Net) (netSize : nat) : Prop :=
  netSize ≤ length net ∧ ∀ u, u < netSize → 0 < degree net u.

(** ** switchConnections *)

Section SwitchConnections.
Context {G : Type} `{!Generator G}.

(** The temporary map [tmp_nodes] of line 209 holds [float] values:
    [to_float w] is the weight [w] after it was stored there and read
    back into an edge. *)
Variable to_float : Z → Z.

(** Modelled from the spec: [k.value() = 0] writes through an
    [edge_iterator] of the container, which is not part of Randomizer.H.
    [iter_clear net u v] is the net after this assignment for the iterator
    of [theNet[u]] standing at the neighbour [v]; the comments of lines 227
    and 234 say that it removes the edge. *)
Variable iter_clear : Net → nat → nat → Net.

(** Lines 215-218: draw until the two nodes differ. *)
Fixpoint sc_draw (fuel : nat) (g : G) (netSize : nat)
    : result (nat * nat * G) :=
  match fuel with
  | 0 => OutOfFuel
  | S fuel =>
      let '(i, g) := next netSize g in
      let '(j, g) := next netSize g in
      if decide (i = j) then sc_draw fuel g netSize else Ok (i, j, g)
  end.

(** Lines 225-228: the edges of [i] go to the temporary map and are
    removed; [ks] are the neighbours that the iterator visits. *)
Definition sc_store (theNet : Net) (i : nat) (ks : list nat)
    : gmap nat Z * Net :=
  foldl (λ acc k, (<[k := to_float (get acc.2 i k)]> acc.1,
                   iter_clear acc.2 i k))
    (∅, theNet) ks.

(** Lines 231-236: the edges of [j] become edges of [i]. *)
Definition sc_move (theNet : Net) (i j : nat) (ks : list nat) : Net :=
  foldl (λ net k,
           if decide (k ≠ i)
           then iter_clear (set net i k (get net j k)) j k
           else net)
    theNet ks.

(** Lines 241-245: the stored edges become edges of [j]. *)
Definition sc_restore (theNet : Net) (j : nat) (tmp_nodes : gmap nat Z)
    : Net :=
  foldl (λ net k,
           if decide (k ≠ j)
           then set net j k (default 0%Z (tmp_nodes !! k))
           else net)
    theNet (keys tmp_nodes).

(** The net and the generator after the call.  A node drawn outside the
    net, and a neighbour that is not a node of the net, are [Undefined]. *)
Definition switchConnections (fuel : nat) (theNet : Net) (generator : G)
    (netSize : nat) : result (Net * G) :=
  '(i, j, g) ← sc_draw fuel generator netSize;
  ri ← row_at theNet i;
  if decide (Forall (λ k, k < length theNet) (keys ri)) then
    let '(tmp_nodes, net1) := sc_store theNet i (keys ri) in
    rj ← row_at net1 j;
    if decide (Forall (λ k, k < length theNet) (keys rj)) then
      let net2 := sc_move net1 i j (keys rj) in
      Ok (sc_restore net2 j tmp_nodes, g)
    else Undefined
  else Undefined.

End SwitchConnections.

(** The node that takes the place of [u] when [i] and [j] change places. *)
Definition exchange (i j u : nat) : nat :=
  if decide (u = i) then j else if decide (u = j) then i else u.

(** What the three loops do to the weights when the nodes [i] and [j] were
    drawn: the edge between them is gone, [i] has the other edges of [j],
    [j] has the other edges of [i] with weights that went through the
    temporary map, and no other edge has changed. *)
Definition switched (to_float : Z → Z) (net net' : Net) (i j : nat) : Prop :=
  get net' i j = 0%Z ∧
  (∀ k, k ≠ i → k ≠ j → get net' i k = get net j k) ∧
  (∀ k, k ≠ i → k ≠ j →
     get net' j k = if decide (get net i k = 0%Z) then 0%Z
                    else to_float (get net i k)) ∧
  (∀ x y, x ≠ i → x ≠ j → y ≠ i → y ≠ j → get net' x y = get net x y).

(** ** Example networks *)

Definition mk_net (n : nat) (es : list (nat * nat * Z)) : Net :=
  foldl (λ net e, set net e.1.1 e.1.2 e.2) (replicate n ∅) es.

(** Two separate edges with weights 5 and 7. *)
Definition net_2edges : Net := mk_net 4 [(0,1,5%Z); (2,3,7%Z)].

(** A ring of six nodes. *)
Definition net_ring6 : Net :=
  mk_net 6 [(0,1,1%Z); (1,2,2%Z); (2,3,3%Z); (3,4,4%Z); (4,5,5%Z); (5,0,6%Z)].

(** A ring of [n] nodes, every edge of weight 1. *)
Definition net_ring (n : nat) : Net :=
  mk_net n ((λ i, (i, S i mod n, 1%Z)) <$> seq 0 n).

(** A recorded list of [n] numbers from a linear congruential sequence. *)
Fixpoint lcg_tape (n : nat) (x : N) : list nat :=
  match n with
  | 0 => []
  | S n =>
      let x := ((x * 1103515245 + 12345) mod 2147483648)%N in
      N.to_nat (x / 65536 mod 1024)%N :: lcg_tape n x
  end.

(** A triangle. *)
Definition net_triangle : Net := mk_net 3 [(0,1,1%Z); (1,2,2%Z); (2,0,3%Z)].

(** A star: node 0 joined to the nodes 1, 2 and 3. *)
Definition net_star4 : Net := mk_net 4 [(0,1,1%Z); (0,2,2%Z); (0,3,3%Z)].

(** A path 0 - 1 - 4 - 2 - 3. *)
Definition net_path5 : Net :=
  mk_net 5 [(0,1,1%Z); (1,4,2%Z); (4,2,3%Z); (2,3,4%Z)].

(** Node 2 has no neighbour. *)
Definition net_isolated : Net := mk_net 3 [(0,1,1%Z)].

(** Two separate triangles. *)
Definition net_2triangles : Net :=
  mk_net 6 [(0,1,1%Z); (1,2,1%Z); (2,0,1%Z); (3,4,1%Z); (4,5,1%Z); (5,3,1%Z)].

(** * Proofs *)

(** *** Reading after writing *)

Lemma upd_lookup v x r b :
  upd v x r !! b =
    if decide (b = v) then (if decide (x = 0%Z) then None else Some x)
    else r !! b.
Proof.
  unfold upd. destruct (decide (x = 0%Z)); destruct (decide (b = v)); subst.
  - apply lookup_delete_eq.
  - by apply lookup_delete_ne.
  - apply lookup_insert_eq.
  - by apply lookup_insert_ne.
Qed.

Lemma upd_get v x r b :
  default 0%Z (upd v x r !! b) = if decide (b = v) then x else default 0%Z (r !! b).
Proof.
  rewrite upd_lookup. destruct (decide (b = v)); [|done].
  by destruct (decide (x = 0%Z)); subst.
Qed.

Lemma length_set net u v x : length (set net u v x) = length net.
Proof. unfold set. by rewrite !length_alter. Qed.

Lemma set_lookup net u v x a :
  set net u v x !! a =
    (λ r, if decide (a = v) then upd u x r else r) <$>
    ((λ r, if decide (a = u) then upd v x r else r) <$> net !! a).
Proof.
  unfold set.
  destruct (decide (a = v)) as [Hv|Hv]; destruct (decide (a = u)) as [Hu|Hu];
    subst.
  - rewrite !list_lookup_alter_eq. by destruct (net !! u).
  - rewrite list_lookup_alter_eq, list_lookup_alter_ne by done.
    by destruct (net !! v).
  - rewrite list_lookup_alter_ne, list_lookup_alter_eq by done.
    by destruct (net !! u).
  - rewrite !list_lookup_alter_ne by done. by destruct (net !! a).
Qed.

Lemma get_set net u v x a b :
  u < length net → v < length net →
  get (set net u v x) a b =
    if decide (same_edge a b u v) then x else get net a b.
Proof.
  intros Hu Hv. unfold get. rewrite set_lookup.
  destruct (net !! a) as [r|] eqn:Hr; simpl.
  - destruct (decide (a = v)); destruct (decide (a = u));
      rewrite ?upd_get; unfold same_edge;
      repeat (case_decide; try done); naive_solver.
  - rewrite decide_False; [done|].
    apply lookup_ge_None in Hr. unfold same_edge. lia.
Qed.

Lemma nozero_set net u v x : nozero net → nozero (set net u v x).
Proof.
  intros Hz a r b Hr. rewrite set_lookup in Hr.
  destruct (net !! a) as [r0|] eqn:Hr0; simplify_eq/=.
  specialize (Hz a r0).
  assert (∀ w r1, (∀ c, r1 !! c ≠ Some 0%Z) → ∀ c, upd w x r1 !! c ≠ Some 0%Z) as Hupd.
  { intros w r1 H1 c. rewrite upd_lookup. repeat case_decide; naive_solver. }
  repeat case_decide; eauto.
Qed.

Lemma wf_nozero' net : wf net → nozero net.
Proof. intros [? _ _ _]. done. Qed.

(** Membership in the neighbour set is a non-zero weight. *)
Lemma elem_of_nbrs net u v : nozero net → v ∈ nbrs net u ↔ get net u v ≠ 0%Z.
Proof.
  intros Hz. unfold nbrs, get. destruct (net !! u) as [r|] eqn:Hr; simpl.
  - rewrite elem_of_dom. specialize (Hz u r v Hr).
    destruct (r !! v) as [x|]; simpl.
    + split; [intros _ ->; done | eauto].
    + split; [by intros [? ?] | done].
  - set_solver.
Qed.

Lemma degree_nbrs net u : degree net u = size (nbrs net u).
Proof.
  unfold degree, nbrs. destruct (net !! u); simpl; [|done].
  by rewrite size_dom.
Qed.

(** Nets without stored zeros are determined by their weights. *)
Lemma net_ext (n1 n2 : Net) :
  length n1 = length n2 → nozero n1 → nozero n2 →
  (∀ u v, get n1 u v = get n2 u v) → n1 = n2.
Proof.
  intros Hlen Hz1 Hz2 Hget. apply list_eq. intros u.
  destruct (n1 !! u) as [r1|] eqn:H1; destruct (n2 !! u) as [r2|] eqn:H2.
  - f_equal. apply map_eq. intros v.
    specialize (Hget u v). unfold get in Hget. rewrite H1, H2 in Hget.
    specialize (Hz1 u r1 v H1). specialize (Hz2 u r2 v H2).
    destruct (r1 !! v), (r2 !! v); simpl in *; congruence.
  - apply lookup_lt_Some in H1. apply lookup_ge_None in H2. lia.
  - apply lookup_ge_None in H1. apply lookup_lt_Some in H2. lia.
  - done.
Qed.

Lemma get_lt net u v : get net u v ≠ 0%Z → u < length net.
Proof.
  unfold get. destruct (net !! u) eqn:H; [|done].
  intros _. by eapply lookup_lt_Some.
Qed.

Lemma wf_set net u v x :
  wf net → u < length net → v < length net → u ≠ v → wf (set net u v x).
Proof.
  intros Hwf Hu Hv Huv. destruct Hwf as [Hz Hr Hs Hl]. split.
  - by apply nozero_set.
  - intros a b. rewrite length_set, get_set by done.
    case_decide as Hd; [destruct Hd as [[-> ->]|[-> ->]]; done|]. apply Hr.
  - intros a b. rewrite !get_set by done.
    unfold same_edge. repeat case_decide; try done; naive_solver.
  - intros a. rewrite get_set by done. unfold same_edge.
    case_decide; [naive_solver|done].
Qed.


(** *** The switch in closed form *)

Ltac edge_cases :=
  unfold same_edge in *; repeat case_decide;
  first [reflexivity | assumption | solve [intuition congruence] | idtac].

Ltac get_set_all :=
  repeat (rewrite get_set by (rewrite ?length_set; lia)).

Lemma sl_switch_rewired net i j m n :
  i < length net → j < length net → m < length net → n < length net →
  i ≠ j → m ≠ n → m ≠ j → n ≠ i → i ≠ m → j ≠ n →
  rewired net (sl_switch net i j m n) i m j n (get net i m) (get net j n).
Proof.
  intros Hi Hj Hm Hn ? ? ? ? ? ? x y. unfold sl_switch.
  get_set_all. edge_cases.
Qed.

Lemma length_sl_switch net i j m n :
  length (sl_switch net i j m n) = length net.
Proof. unfold sl_switch. by rewrite !length_set. Qed.

Lemma wf_sl_switch net i j m n :
  wf net →
  i < length net → j < length net → m < length net → n < length net →
  m ≠ j → n ≠ i → i ≠ m → j ≠ n →
  wf (sl_switch net i j m n).
Proof.
  intros. unfold sl_switch.
  repeat (apply wf_set; rewrite ?length_set; try done).
Qed.

(** Reversing a switch gives back the net, weight by weight and row by
    row. *)
Lemma sl_reverse_switch net i j m n :
  wf net →
  i < length net → j < length net → m < length net → n < length net →
  i ≠ j → m ≠ n → m ≠ j → n ≠ i →
  get net i n = 0%Z → get net j m = 0%Z →
  sl_reverse (sl_switch net i j m n) i j m n = net.
Proof.
  intros Hwf Hi Hj Hm Hn ? ? ? ? Hin Hjm.
  pose proof (wf_sym _ Hwf) as Hsym.
  assert (get net n i = 0%Z) as Hni by (by rewrite Hsym).
  assert (get net m j = 0%Z) as Hmj by (by rewrite Hsym).
  pose proof (Hsym i m) as Him. pose proof (Hsym j n) as Hjn.
  pose proof (wf_noloop _ Hwf i) as Hii. pose proof (wf_noloop _ Hwf j) as Hjj.
  apply net_ext.
  - unfold sl_reverse, sl_switch. by rewrite !length_set.
  - unfold sl_reverse, sl_switch.
    repeat apply nozero_set. by apply wf_nozero'.
  - by apply wf_nozero'.
  - intros x y. unfold sl_reverse, sl_switch. get_set_all.
    unfold same_edge; repeat case_decide;
      first [reflexivity | solve [intuition congruence]
            | destruct_or?; destruct_and?; simplify_eq; congruence ].
Qed.

(** *** The swap of confModelSimple in closed form *)

Lemma cm_swap_eq net a b c d r :
  cm_swap net a b c d r =
    set (set (if decide (r = 0)
              then set (set net a d (get net a b)) b c
                     (get (set net a d (get net a b)) c d)
              else set (set net a d (get net c d)) b c
                     (get (set net a d (get net c d)) a b))
           a b 0) c d 0.
Proof. unfold cm_swap, cm_swap_states. simpl. by destruct (decide (r = 0)). Qed.

Lemma length_cm_swap net a b c d r :
  length (cm_swap net a b c d r) = length net.
Proof. rewrite cm_swap_eq. destruct (decide (r = 0)); by rewrite !length_set. Qed.

Lemma cm_swap_rewired net a b c d r :
  a < length net → b < length net → c < length net → d < length net →
  a ≠ c → a ≠ d → b ≠ c → b ≠ d → a ≠ b → c ≠ d →
  rewired net (cm_swap net a b c d r) a b c d
    (if decide (r = 0) then get net a b else get net c d)
    (if decide (r = 0) then get net c d else get net a b).
Proof.
  intros Ha Hb Hc Hd ? ? ? ? ? ? x y. rewrite cm_swap_eq.
  destruct (decide (r = 0)); get_set_all; edge_cases.
Qed.

(** *** The edge list *)

Lemma elem_of_keys (r : Row) k : k ∈ keys r ↔ is_Some (r !! k).
Proof.
  unfold keys. rewrite list_elem_of_fmap. split.
  - intros [[k' x] [-> Hx]]. apply elem_of_map_to_list in Hx. eauto.
  - intros [x Hx]. exists (k, x). split; [done|].
    by apply elem_of_map_to_list.
Qed.

Lemma NoDup_keys (r : Row) : NoDup (keys r).
Proof. apply NoDup_fst_map_to_list. Qed.

Lemma length_keys (r : Row) : length (keys r) = size r.
Proof. unfold keys. rewrite length_fmap. apply length_map_to_list. Qed.

Lemma elem_of_build_edgeList_gen (net : Net) o u v :
  (u, v) ∈ mjoin (imap (λ i r, (λ k, (o + i, k)) <$>
                   filter (λ k, o + i < k) (keys r)) net) ↔
  ∃ i r, u = o + i ∧ net !! i = Some r ∧ u < v ∧ is_Some (r !! v).
Proof.
  rewrite list_elem_of_join. split.
  - intros (l & Hin & Hl). apply elem_of_lookup_imap in Hl as (i & r & -> & Hr).
    apply list_elem_of_fmap in Hin as (k & Heq & Hk). simplify_eq.
    apply list_elem_of_filter in Hk as [Hlt Hk]. apply elem_of_keys in Hk.
    eauto 10.
  - intros (i & r & -> & Hr & Hlt & Hv).
    eexists. split; [|apply elem_of_lookup_imap; eauto].
    simpl. apply list_elem_of_fmap. exists v. split; [done|].
    apply list_elem_of_filter. split; [done|]. by apply elem_of_keys.
Qed.

Lemma elem_of_build_edgeList net u v :
  nozero net → (u, v) ∈ build_edgeList net ↔ u < v ∧ get net u v ≠ 0%Z.
Proof.
  intros Hz. unfold build_edgeList.
  rewrite (elem_of_build_edgeList_gen net 0). unfold get. split.
  - intros (i & r & -> & Hr & Hlt & [x Hx]). simpl in *. rewrite Hr, Hx.
    split; [done|]. simpl. intros ->. by eapply Hz.
  - intros [Hlt Hg]. destruct (net !! u) as [r|] eqn:Hr; [|done].
    exists u, r. repeat split; try done.
    destruct (r !! v); [eauto|done].
Qed.

Lemma NoDup_build_edgeList_gen (net : Net) o :
  NoDup (mjoin (imap (λ i r, (λ k, (o + i, k)) <$>
                  filter (λ k, o + i < k) (keys r)) net)).
Proof.
  revert o. induction net as [|r net IH]; intros o; [constructor|].
  rewrite imap_cons. simpl. apply NoDup_app. split; [|split].
  - apply NoDup_fmap_2; [intros ?? [=]; done|].
    apply NoDup_filter, NoDup_keys.
  - intros [u v] Hin Hin'.
    apply list_elem_of_fmap in Hin as (k & [= -> ->] & _).
    assert ((o + 0, k) ∈ mjoin (imap (λ i r, (λ k, (S o + i, k)) <$>
              filter (λ k, S o + i < k) (keys r)) net)) as Hin2.
    { erewrite imap_ext; [exact Hin'|]. intros i x _. simpl.
      replace (o + S i) with (S (o + i)) by lia. done. }
    apply elem_of_build_edgeList_gen in Hin2 as (i & ? & ? & _). lia.
  - erewrite imap_ext; [apply (IH (S o))|]. intros i x _. simpl.
    replace (o + S i) with (S (o + i)) by lia. done.
Qed.

Lemma NoDup_build_edgeList net : NoDup (build_edgeList net).
Proof. apply (NoDup_build_edgeList_gen net 0). Qed.

(** *** What a rewiring preserves *)

Lemma swappable_facts net a b c d :
  wf net → swappable net a b c d →
  a < length net ∧ b < length net ∧ c < length net ∧ d < length net ∧
  a ≠ b ∧ c ≠ d.
Proof.
  intros Hwf (? & ? & ? & ? & Hab & Hcd & _).
  repeat split.
  - by eapply get_lt.
  - by eapply wf_range.
  - by eapply get_lt.
  - by eapply wf_range.
  - intros ->. by rewrite (wf_noloop _ Hwf) in Hab.
  - intros ->. by rewrite (wf_noloop _ Hwf) in Hcd.
Qed.

Lemma size_replace_elem (X : gset nat) p q :
  p ∈ X → q ∉ X → size (X ∖ {[p]} ∪ {[q]}) = size X.
Proof.
  intros Hp Hq. rewrite size_union by set_solver.
  rewrite size_difference by set_solver. rewrite !size_singleton.
  assert (size X ≠ 0); [|lia].
  intros Hs. apply size_empty_inv in Hs. set_solver.
Qed.

Lemma rewired_nbrs net net' a b c d w1 w2 u :
  wf net → nozero net' → swappable net a b c d →
  rewired net net' a b c d w1 w2 → w1 ≠ 0%Z → w2 ≠ 0%Z →
  nbrs net' u =
    if decide (u = a) then nbrs net a ∖ {[b]} ∪ {[d]}
    else if decide (u = b) then nbrs net b ∖ {[a]} ∪ {[c]}
    else if decide (u = c) then nbrs net c ∖ {[d]} ∪ {[b]}
    else if decide (u = d) then nbrs net d ∖ {[c]} ∪ {[a]}
    else nbrs net u.
Proof.
  intros Hwf Hz' Hsw Hrw Hw1 Hw2.
  destruct (swappable_facts _ _ _ _ _ Hwf Hsw) as (_ & _ & _ & _ & ? & ?).
  destruct Hsw as (? & ? & ? & ? & Hab & Hcd & Had & Hbc).
  pose proof (wf_nozero' _ Hwf) as Hz.
  apply set_eq. intros v.
  repeat case_decide; subst;
    rewrite ?elem_of_union, ?elem_of_difference, ?elem_of_singleton,
      !elem_of_nbrs by done;
    rewrite (Hrw _ v); unfold same_edge; repeat case_decide;
    try solve [intuition congruence].
Qed.

Lemma rewired_degree net net' a b c d w1 w2 u :
  wf net → nozero net' → swappable net a b c d →
  rewired net net' a b c d w1 w2 → w1 ≠ 0%Z → w2 ≠ 0%Z →
  degree net' u = degree net u.
Proof.
  intros Hwf Hz' Hsw Hrw Hw1 Hw2. rewrite !degree_nbrs.
  rewrite (rewired_nbrs _ _ _ _ _ _ _ _ u Hwf Hz' Hsw Hrw Hw1 Hw2).
  pose proof (wf_nozero' _ Hwf) as Hz. pose proof (wf_sym _ Hwf) as Hsym.
  destruct Hsw as (? & ? & ? & ? & Hab & Hcd & Had & Hbc).
  pose proof (Hsym a b). pose proof (Hsym c d).
  pose proof (Hsym a d). pose proof (Hsym b c).
  repeat case_decide; subst; try done;
    apply size_replace_elem; rewrite elem_of_nbrs by done; congruence.
Qed.

Lemma norm_eq a b u v : (u, v) = norm (a, b) ↔ u ≤ v ∧ same_edge u v a b.
Proof.
  unfold norm, same_edge. simpl. case_decide; split.
  - intros [= -> ->]. auto.
  - intros [? [[-> ->]|[-> ->]]]; [done|]. f_equal; lia.
  - intros [= -> ->]. split; [lia|auto].
  - intros [? [[-> ->]|[-> ->]]]; [lia|done].
Qed.

Lemma get_norm net e :
  wf net → get net (norm e).1 (norm e).2 = get net e.1 e.2.
Proof.
  intros Hwf. unfold norm. case_decide; [done|]. simpl. apply (wf_sym _ Hwf).
Qed.

Lemma rewired_edges_old net a b c d :
  wf net → swappable net a b c d →
  build_edgeList net ≡ₚ norm (a, b) :: norm (c, d) :: other_edges net a b c d.
Proof.
  intros Hwf Hsw.
  destruct (swappable_facts _ _ _ _ _ Hwf Hsw) as (_ & _ & _ & _ & ? & ?).
  destruct Hsw as (? & ? & ? & ? & Hab & Hcd & Had & Hbc).
  pose proof (wf_nozero' _ Hwf) as Hz. pose proof (wf_sym _ Hwf) as Hsym.
  pose proof (Hsym a b). pose proof (Hsym c d).
  unfold other_edges. apply NoDup_Permutation.
  - apply NoDup_build_edgeList.
  - repeat apply NoDup_cons_2.
    + rewrite elem_of_cons, list_elem_of_filter.
      intros [Heq|[[? _] _]]; [|done].
      destruct (norm (c, d)) as [u v] eqn:E. symmetry in E, Heq.
      apply norm_eq in E, Heq. unfold same_edge in *. intuition congruence.
    + rewrite list_elem_of_filter. intros [[_ ?] _]. done.
    + apply NoDup_filter, NoDup_build_edgeList.
  - intros [u v]. rewrite !elem_of_cons, list_elem_of_filter.
    rewrite !norm_eq, elem_of_build_edgeList by done.
    unfold same_edge.
    destruct (decide (u ≤ v ∧ ((u = a ∧ v = b) ∨ (u = b ∧ v = a))));
      destruct (decide (u ≤ v ∧ ((u = c ∧ v = d) ∨ (u = d ∧ v = c))));
      split; try solve [intuition congruence];
      intros; destruct_or?; destruct_and?; destruct_or?; destruct_and?;
      simplify_eq; (split; [lia|congruence]).
Qed.

Lemma rewired_edges_new net net' a b c d w1 w2 :
  wf net → nozero net' → swappable net a b c d →
  rewired net net' a b c d w1 w2 → w1 ≠ 0%Z → w2 ≠ 0%Z →
  build_edgeList net' ≡ₚ norm (a, d) :: norm (b, c) :: other_edges net a b c d.
Proof.
  intros Hwf Hz' Hsw Hrw Hw1 Hw2.
  destruct (swappable_facts _ _ _ _ _ Hwf Hsw) as (_ & _ & _ & _ & ? & ?).
  destruct Hsw as (? & ? & ? & ? & Hab & Hcd & Had & Hbc).
  pose proof (wf_nozero' _ Hwf) as Hz. pose proof (wf_sym _ Hwf) as Hsym.
  pose proof (Hsym a d). pose proof (Hsym b c).
  unfold other_edges. apply NoDup_Permutation.
  - apply NoDup_build_edgeList.
  - repeat apply NoDup_cons_2.
    + rewrite elem_of_cons, list_elem_of_filter.
      intros [Heq|[_ Hin]].
      * destruct (norm (b, c)) as [u v] eqn:E. symmetry in E, Heq.
        apply norm_eq in E, Heq. unfold same_edge in *. intuition congruence.
      * destruct (norm (a, d)) as [u v] eqn:E. symmetry in E.
        apply norm_eq in E. apply elem_of_build_edgeList in Hin; [|done].
        unfold same_edge in *. intuition congruence.
    + rewrite list_elem_of_filter. intros [_ Hin].
      destruct (norm (b, c)) as [u v] eqn:E. symmetry in E.
      apply norm_eq in E. apply elem_of_build_edgeList in Hin; [|done].
      unfold same_edge in *. intuition congruence.
    + apply NoDup_filter, NoDup_build_edgeList.
  - intros [u v]. rewrite !elem_of_cons, list_elem_of_filter.
    rewrite !norm_eq, !elem_of_build_edgeList by done.
    rewrite (Hrw u v). unfold same_edge.
    repeat case_decide; split; try solve [intuition congruence];
      intros; destruct_or?; destruct_and?; destruct_or?; destruct_and?;
      simplify_eq; try (split; [lia|congruence]); try solve [intuition lia].
Qed.

Lemma rewired_numberOfEdges net net' a b c d w1 w2 :
  wf net → nozero net' → swappable net a b c d →
  rewired net net' a b c d w1 w2 → w1 ≠ 0%Z → w2 ≠ 0%Z →
  numberOfEdges net' = numberOfEdges net.
Proof.
  intros Hwf Hz' Hsw Hrw Hw1 Hw2. unfold numberOfEdges.
  rewrite (rewired_edges_new _ _ _ _ _ _ _ _ Hwf Hz' Hsw Hrw Hw1 Hw2).
  rewrite (rewired_edges_old _ _ _ _ _ Hwf Hsw). done.
Qed.

Lemma sum_permutation (l k : list Z) :
  l ≡ₚ k → foldr Z.add 0%Z l = foldr Z.add 0%Z k.
Proof. induction 1; simpl; lia. Qed.

(** The weights of the edges that a rewiring leaves alone. *)
Lemma rewired_other_weights net net' a b c d w1 w2 :
  wf net → swappable net a b c d → rewired net net' a b c d w1 w2 →
  (λ e, get net' e.1 e.2) <$> other_edges net a b c d =
  (λ e, get net e.1 e.2) <$> other_edges net a b c d.
Proof.
  intros Hwf Hsw Hrw.
  destruct (swappable_facts _ _ _ _ _ Hwf Hsw) as (_ & _ & _ & _ & ? & ?).
  destruct Hsw as (? & ? & ? & ? & Hab & Hcd & Had & Hbc).
  pose proof (wf_nozero' _ Hwf) as Hz. pose proof (wf_sym _ Hwf) as Hsym.
  pose proof (Hsym a d). pose proof (Hsym b c).
  apply Forall_fmap_ext_1, Forall_forall. intros [u v] Hin. simpl.
  unfold other_edges in Hin. apply list_elem_of_filter in Hin as [[Hn1 Hn2] Hin].
  apply elem_of_build_edgeList in Hin as [Hlt Hg]; [|done].
  rewrite norm_eq in Hn1, Hn2. rewrite (Hrw u v). unfold same_edge in *.
  repeat case_decide; try done.
  - exfalso. destruct_or?; destruct_and?; simplify_eq;
      first [solve [apply Hn1; split; [lia|auto]]
            | solve [apply Hn2; split; [lia|auto]]].
  - exfalso. destruct_or?; destruct_and?; simplify_eq; congruence.
  - exfalso. destruct_or?; destruct_and?; simplify_eq; congruence.
Qed.

Lemma rewired_weight_list net net' a b c d w1 w2 :
  wf net → wf net' → swappable net a b c d →
  rewired net net' a b c d w1 w2 → w1 ≠ 0%Z → w2 ≠ 0%Z →
  (λ e, get net' e.1 e.2) <$> build_edgeList net' ≡ₚ
    w1 :: w2 :: ((λ e, get net e.1 e.2) <$> other_edges net a b c d) ∧
  (λ e, get net e.1 e.2) <$> build_edgeList net ≡ₚ
    get net a b :: get net c d ::
      ((λ e, get net e.1 e.2) <$> other_edges net a b c d).
Proof.
  intros Hwf Hwf' Hsw Hrw Hw1 Hw2. split.
  - rewrite (rewired_edges_new _ _ _ _ _ _ _ _ Hwf (wf_nozero' _ Hwf')
               Hsw Hrw Hw1 Hw2).
    rewrite !fmap_cons, !get_norm by done. simpl.
    rewrite (rewired_other_weights _ _ _ _ _ _ _ _ Hwf Hsw Hrw).
    destruct (swappable_facts _ _ _ _ _ Hwf Hsw) as (_ & _ & _ & _ & ? & ?).
    destruct Hsw as (? & ? & ? & ? & _).
    rewrite (Hrw a d), (Hrw b c). unfold same_edge.
    repeat case_decide; try done; exfalso; intuition congruence.
  - rewrite (rewired_edges_old _ _ _ _ _ Hwf Hsw).
    rewrite !fmap_cons, !get_norm by done. done.
Qed.

Lemma rewired_edge_weights net net' a b c d w1 w2 :
  wf net → wf net' → swappable net a b c d →
  rewired net net' a b c d w1 w2 →
  (w1 = get net a b ∧ w2 = get net c d) ∨
    (w1 = get net c d ∧ w2 = get net a b) →
  edge_weights net' = edge_weights net ∧ total_weight net' = total_weight net.
Proof.
  intros Hwf Hwf' Hsw Hrw Hw.
  assert (w1 ≠ 0%Z ∧ w2 ≠ 0%Z) as [Hw1 Hw2].
  { destruct Hsw as (_ & _ & _ & _ & ? & ? & _).
    destruct Hw as [[-> ->]|[-> ->]]; done. }
  destruct (rewired_weight_list _ _ _ _ _ _ _ _ Hwf Hwf' Hsw Hrw Hw1 Hw2)
    as [Hnew Hold].
  unfold edge_weights, total_weight.
  rewrite (sum_permutation _ _ Hnew), (sum_permutation _ _ Hold).
  rewrite Hnew, Hold. simpl.
  destruct Hw as [[-> ->]|[-> ->]]; split;
    rewrite ?list_to_set_disj_cons; first [done | multiset_solver | lia].
Qed.

(** *** The edge list of confModelSimple *)

Lemma unordered_mem_lookup u v (el : list (nat * nat)) :
  unordered_mem u v el ↔ ∃ k e, el !! k = Some e ∧ same_edge u v e.1 e.2.
Proof.
  unfold unordered_mem, same_edge. rewrite !list_elem_of_lookup. split.
  - intros [[k Hk]|[k Hk]]; exists k; eexists; (split; [done|]); simpl; auto.
  - intros (k & [x y] & Hk & [[-> ->]|[-> ->]]); simpl in *; eauto.
Qed.

Lemma build_edgeList_consistent net :
  wf net → consistent net (build_edgeList net).
Proof.
  intros Hwf. pose proof (wf_nozero' _ Hwf) as Hz.
  pose proof (wf_sym _ Hwf) as Hsym. split.
  - intros k1 k2 [u1 v1] [u2 v2] H1 H2 Hse. simpl in Hse.
    pose proof (list_elem_of_lookup_2 _ _ _ H1) as Hin1.
    pose proof (list_elem_of_lookup_2 _ _ _ H2) as Hin2.
    apply elem_of_build_edgeList in Hin1 as [? _]; [|done].
    apply elem_of_build_edgeList in Hin2 as [? _]; [|done].
    assert ((u1, v1) = (u2, v2)) as Heq.
    { destruct Hse as [[-> ->]|[-> ->]]; [done|lia]. }
    rewrite Heq in H1.
    eapply NoDup_lookup; [apply NoDup_build_edgeList|done..].
  - intros u v. unfold unordered_mem.
    rewrite !elem_of_build_edgeList by done. split.
    + intros [[_ ?]|[_ ?]]; [done|]. by rewrite Hsym.
    + intros Hg. destruct (decide (u < v)); [by left|].
      right. split; [|by rewrite Hsym].
      assert (u ≠ v); [|lia]. intros ->. by rewrite (wf_noloop _ Hwf) in Hg.
Qed.

Lemma cm_edgeList_update (el : list (nat * nat)) idx1 idx2 a b c d x y k :
  idx1 ≠ idx2 → el !! idx1 = Some (x, y) → el !! idx2 = Some (c, d) →
  alter (λ e, (e.1, b)) idx2
    (alter (λ e, (e.1, d)) idx1 (alter (λ e, (a, e.2)) idx1 el)) !! k =
  if decide (k = idx1) then Some (a, d)
  else if decide (k = idx2) then Some (c, b)
  else el !! k.
Proof.
  intros Hne H1 H2. repeat case_decide; subst.
  - rewrite list_lookup_alter_ne by done.
    rewrite !list_lookup_alter_eq, H1. done.
  - rewrite list_lookup_alter_eq, !list_lookup_alter_ne, H2 by done. done.
  - by rewrite !list_lookup_alter_ne by done.
Qed.

Lemma consistent_rewired net net' el el' idx1 idx2 a b c d w1 w2 :
  wf net → consistent net el →
  swappable net a b c d → rewired net net' a b c d w1 w2 →
  w1 ≠ 0%Z → w2 ≠ 0%Z →
  idx1 ≠ idx2 →
  (el !! idx1 = Some (a, b) ∨ el !! idx1 = Some (b, a)) →
  el !! idx2 = Some (c, d) →
  (∀ k, el' !! k = if decide (k = idx1) then Some (a, d)
                   else if decide (k = idx2) then Some (c, b)
                   else el !! k) →
  consistent net' el'.
Proof.
  intros Hwf [Hdist Hmem] Hsw Hrw Hw1 Hw2 Hne H1 H2 Hel'.
  destruct (swappable_facts _ _ _ _ _ Hwf Hsw) as (_ & _ & _ & _ & ? & ?).
  destruct Hsw as (? & ? & ? & ? & Hab & Hcd & Had & Hbc).
  pose proof (wf_sym _ Hwf) as Hsym.
  pose proof (Hsym a d). pose proof (Hsym b c).
  assert (∀ k e, el !! k = Some e → get net e.1 e.2 ≠ 0%Z) as Hedge.
  { intros k [u v] Hk. apply Hmem. left. by eapply list_elem_of_lookup_2. }
  assert (∀ k e, el !! k = Some e → same_edge e.1 e.2 a b → k = idx1) as Hk1.
  { intros k e Hk Hse. destruct H1 as [H1|H1];
      eapply (Hdist _ _ _ _ Hk H1); simpl; unfold same_edge in *;
      intuition congruence. }
  assert (∀ k e, el !! k = Some e → same_edge e.1 e.2 c d → k = idx2) as Hk2.
  { intros k e Hk Hse. by eapply (Hdist _ _ _ _ Hk H2). }
  split.
  - intros k1 k2 e1 e2 He1 He2 Hse. rewrite Hel' in He1, He2.
    destruct (decide (k1 = idx1)) as [->|]; destruct (decide (k2 = idx1)) as [->|];
      try done; repeat case_decide; simplify_eq; simpl in *; try done.
    all: first
      [ by eapply Hdist
      | solve [exfalso; unfold same_edge in *; intuition congruence]
      | exfalso;
        match goal with
        | He : _ !! _ = Some ?e |- _ =>
            apply (Hedge _ _ He); destruct e; simpl in *;
            unfold same_edge in *; destruct_or?; destruct_and?; simplify_eq;
            congruence
        end ].
  - intros u v. rewrite unordered_mem_lookup. split.
    + intros (k & [x y] & Hk & Hse). simpl in Hse. rewrite Hel' in Hk.
      rewrite (Hrw u v).
      repeat case_decide; simplify_eq; try done.
      * unfold same_edge in *. exfalso. intuition congruence.
      * unfold same_edge in *. exfalso. intuition congruence.
      * exfalso. assert (same_edge x y a b ∨ same_edge x y c d) as [Hs|Hs].
        { unfold same_edge in *. intuition congruence. }
        -- by apply (Hk1 _ _ Hk) in Hs.
        -- by apply (Hk2 _ _ Hk) in Hs.
      * apply Hmem, unordered_mem_lookup. eauto.
    + rewrite (Hrw u v). repeat case_decide; try done.
      * intros _. exists idx1, (a, d). rewrite Hel'.
        rewrite decide_True by done. done.
      * intros _. exists idx2, (c, b). rewrite Hel'.
        rewrite decide_False, decide_True by done. split; [done|].
        simpl. unfold same_edge in *. intuition congruence.
      * intros Hg. apply Hmem, unordered_mem_lookup in Hg as (k & e & Hk & Hse).
        exists k, e. split; [|done]. rewrite Hel'.
        rewrite !decide_False; [done| |].
        -- intros ->. rewrite H2 in Hk. simplify_eq. simpl in *.
           unfold same_edge in *. intuition congruence.
        -- intros ->. destruct H1 as [H1|H1]; rewrite H1 in Hk; simplify_eq;
             simpl in *; unfold same_edge in *; intuition congruence.
Qed.

(** *** The rounds of confModelSimple *)

Section CmProofs.
Context {G : Type} `{!Generator G}.

Lemma cm_round_inv (st : cm_state (G:=G)) tag states st' :
  cm_round st = Ok (tag, states, st') →
  (tag ≠ Swapped ∧ states = [] ∧ cm_net st' = cm_net st ∧
   cm_edgeList st' = cm_edgeList st ∧
   cm_successfullRounds st' = cm_successfullRounds st) ∨
  (tag = Swapped ∧ ∃ idx1 idx2 a b c d order,
     idx1 ≠ idx2 ∧
     (cm_edgeList st !! idx1 = Some (a, b) ∨
      cm_edgeList st !! idx1 = Some (b, a)) ∧
     cm_edgeList st !! idx2 = Some (c, d) ∧
     a ≠ c ∧ a ≠ d ∧ b ≠ c ∧ b ≠ d ∧
     get (cm_net st) a d = 0%Z ∧ get (cm_net st) b c = 0%Z ∧
     states = cm_swap_states (cm_net st) a b c d order ∧
     cm_net st' = cm_swap (cm_net st) a b c d order ∧
     (∀ k, cm_edgeList st' !! k =
        if decide (k = idx1) then Some (a, d)
        else if decide (k = idx2) then Some (c, b)
        else cm_edgeList st !! k) ∧
     cm_successfullRounds st' = (cm_successfullRounds st + 1)%Z).
Proof.
  unfold cm_round. intros Hr.
  destruct (next (length (cm_edgeList st)) (cm_generator st)) as [idx1 g1].
  destruct (next (length (cm_edgeList st)) g1) as [idx2 g2].
  case_decide as Hidx; [|simplify_eq; left; done].
  unfold vec_at in Hr.
  destruct (cm_edgeList st !! idx1) as [[x y]|] eqn:H1; [|done].
  destruct (cm_edgeList st !! idx2) as [[c d]|] eqn:H2; [|done].
  cbn -[cm_swap_states List.last] in Hr.
  case_decide as Hshare; [|simplify_eq; left; done].
  destruct (next 2 g2) as [flip g3].
  set (e1 := if decide (flip = 0) then (y, x) else (x, y)) in *.
  assert (cm_edgeList st !! idx1 = Some (e1.1, e1.2)
          ∨ cm_edgeList st !! idx1 = Some (e1.2, e1.1)) as He1.
  { subst e1. destruct (decide (flip = 0)); simpl; auto. }
  assert (e1.1 ≠ c ∧ e1.1 ≠ d ∧ e1.2 ≠ c ∧ e1.2 ≠ d) as (? & ? & ? & ?).
  { subst e1. destruct (decide (flip = 0)); simpl; intuition. }
  clearbody e1. destruct e1 as [a b]. simpl in *.
  case_decide as Hrange; [|done].
  case_decide as Hfree; [|simplify_eq; left; done].
  case_decide; [done|].
  destruct (next 2 g3) as [order g4]. simplify_eq. right.
  split; [done|]. exists idx1, idx2, a, b, c, d, order.
  destruct Hfree. simpl. repeat split; try done.
  intros k. destruct He1 as [He1|He1].
  - by eapply cm_edgeList_update. 
  - by eapply cm_edgeList_update.
Qed.

Lemma wf_cm_swap_states net a b c d r :
  wf net →
  a < length net → b < length net → c < length net → d < length net →
  a ≠ d → b ≠ c → a ≠ b → c ≠ d →
  Forall wf (cm_swap_states net a b c d r).
Proof.
  intros Hwf Ha Hb Hc Hd ? ? ? ?. unfold cm_swap_states.
  destruct (decide (r = 0));
    repeat first [apply Forall_cons_2 | apply Forall_nil_2
                 | apply wf_set; rewrite ?length_set ]; done.
Qed.

Lemma wf_cm_swap net a b c d r :
  wf net →
  a < length net → b < length net → c < length net → d < length net →
  a ≠ d → b ≠ c → a ≠ b → c ≠ d →
  wf (cm_swap net a b c d r).
Proof.
  intros Hwf Ha Hb Hc Hd ? ? ? ?.
  rewrite cm_swap_eq.
  destruct (decide (r = 0));
    repeat (apply wf_set; rewrite ?length_set; try done).
Qed.

(** One round keeps the invariant, the degrees, the number of edges and
    the weights; the nets it goes through are simple. *)
Lemma cm_round_preserves (st : cm_state (G:=G)) tag states st' :
  cm_inv st → cm_round st = Ok (tag, states, st') →
  cm_inv st' ∧
  Forall simple states ∧
  length (cm_net st') = length (cm_net st) ∧
  (∀ u, degree (cm_net st') u = degree (cm_net st) u) ∧
  numberOfEdges (cm_net st') = numberOfEdges (cm_net st) ∧
  edge_weights (cm_net st') = edge_weights (cm_net st) ∧
  total_weight (cm_net st') = total_weight (cm_net st).
Proof.
  intros [Hwf Hcons] Hr. apply cm_round_inv in Hr
    as [(_ & -> & Hn & He & _)|(_ & idx1 & idx2 & a & b & c & d & order &
         Hidx & H1 & H2 & ? & ? & ? & ? & Had & Hbc & -> & Hn & He & _)].
  - unfold cm_inv. rewrite Hn, He.
    split; [by split|]. split; [constructor|]. repeat split; done.
  - unfold simple in Hwf. pose proof (wf_sym _ Hwf) as Hsym.
    assert (swappable (cm_net st) a b c d) as Hsw.
    { repeat split; try done.
      - apply Hcons, unordered_mem_lookup.
        destruct H1 as [H1|H1]; eexists _, _; (split; [exact H1|]);
          unfold same_edge; simpl; auto.
      - apply Hcons, unordered_mem_lookup.
        eexists _, _; (split; [exact H2|]); unfold same_edge; simpl; auto. }
    destruct (swappable_facts _ _ _ _ _ Hwf Hsw) as (? & ? & ? & ? & ? & ?).
    pose proof (cm_swap_rewired (cm_net st) a b c d order) as Hrw.
    do 10 (specialize (Hrw ltac:(done))). rewrite <- Hn in Hrw.
    assert (wf (cm_net st')) as Hwf'.
    { rewrite Hn. by apply wf_cm_swap. }
    assert ((if decide (order = 0) then get (cm_net st) a b
             else get (cm_net st) c d) ≠ 0%Z ∧
            (if decide (order = 0) then get (cm_net st) c d
             else get (cm_net st) a b) ≠ 0%Z) as [Hw1 Hw2].
    { destruct Hsw as (_ & _ & _ & _ & ? & ? & _).
      by destruct (decide (order = 0)). }
    pose proof (wf_nozero' _ Hwf') as Hz'.
    split; [split; [done|]|].
    { eapply (consistent_rewired (cm_net st) (cm_net st') (cm_edgeList st)
                (cm_edgeList st') idx1 idx2 a b c d); eauto. }
    split; [by apply wf_cm_swap_states|].
    split; [rewrite Hn; apply length_cm_swap|].
    split; [intros u; by eapply rewired_degree|].
    split; [by eapply rewired_numberOfEdges|].
    eapply rewired_edge_weights; try done.
    destruct (decide (order = 0)); auto.
Qed.

Lemma cm_loop_preserves n (st : cm_state (G:=G)) log st' :
  cm_inv st → cm_loop n st = Ok (log, st') →
  cm_inv st' ∧
  (∀ tag states, (tag, states) ∈ log → Forall simple states) ∧
  length (cm_net st') = length (cm_net st) ∧
  (∀ u, degree (cm_net st') u = degree (cm_net st) u) ∧
  numberOfEdges (cm_net st') = numberOfEdges (cm_net st) ∧
  edge_weights (cm_net st') = edge_weights (cm_net st) ∧
  total_weight (cm_net st') = total_weight (cm_net st).
Proof.
  revert st log st'. induction n as [|n IH]; intros st log st' Hinv Hl.
  - simpl in Hl. simplify_eq. split; [done|]. split; [|done].
    intros ?? Hin. by apply elem_of_nil in Hin.
  - simpl in Hl.
    destruct (cm_round st) as [[[tag states] st1]| | |] eqn:Hr; try done.
    cbn in Hl.
    destruct (cm_loop n st1) as [[log1 st2]| | |] eqn:Hl1; try done.
    cbn in Hl. simplify_eq.
    destruct (cm_round_preserves _ _ _ _ Hinv Hr)
      as (Hinv1 & Hst & Hlen & Hdeg & Hnum & Hew & Htw).
    destruct (IH _ _ _ Hinv1 Hl1)
      as (Hinv2 & Hlog & Hlen2 & Hdeg2 & Hnum2 & Hew2 & Htw2).
    split; [done|]. split.
    { intros tag' states' Hin. apply elem_of_cons in Hin as [[= -> ->]|Hin];
        [done|by eapply Hlog]. }
    split; [congruence|]. split; [intros u; by rewrite Hdeg2|].
    repeat split; congruence.
Qed.

(** With a generator that keeps within range and at least one edge, a round
    always completes. *)
Lemma cm_round_total (st : cm_state (G:=G)) :
  cm_inv st → in_range_generator → cm_edgeList st ≠ [] →
  cm_successfullRounds st ≠ int_max →
  ∃ tag states st', cm_round st = Ok (tag, states, st') ∧
    cm_edgeList st' ≠ [] ∧
    (cm_successfullRounds st ≤ cm_successfullRounds st' ≤
       cm_successfullRounds st + 1)%Z.
Proof.
  intros [Hwf Hcons] Hgen Hne Hmax. unfold cm_round.
  assert (0 < length (cm_edgeList st)) as Hlen.
  { destruct (cm_edgeList st); [done|simpl; lia]. }
  pose proof (Hgen _ (cm_generator st) Hlen) as Hi1.
  destruct (next (length (cm_edgeList st)) (cm_generator st)) as [idx1 g1].
  pose proof (Hgen _ g1 Hlen) as Hi2.
  destruct (next (length (cm_edgeList st)) g1) as [idx2 g2]. simpl in *.
  case_decide; [|eexists _, _, _; split; [done|]; simpl; split; [done|lia]].
  unfold vec_at.
  destruct (lookup_lt_is_Some_2 _ _ Hi1) as [[x y] H1].
  destruct (lookup_lt_is_Some_2 _ _ Hi2) as [[c d] H2].
  rewrite H1, H2. cbn -[cm_swap_states List.last].
  case_decide; [|eexists _, _, _; split; [done|]; simpl; split; [done|lia]].
  destruct (next 2 g2) as [flip g3].
  assert (get (cm_net st) x y ≠ 0%Z) as Hxy.
  { apply Hcons. left. by eapply list_elem_of_lookup_2. }
  assert (get (cm_net st) c d ≠ 0%Z) as Hcd.
  { apply Hcons. left. by eapply list_elem_of_lookup_2. }
  pose proof (get_lt _ _ _ Hxy). pose proof (wf_range _ Hwf _ _ Hxy).
  pose proof (get_lt _ _ _ Hcd). pose proof (wf_range _ Hwf _ _ Hcd).
  rewrite decide_True by (destruct (decide (flip = 0)); simpl; done).
  case_decide; [|eexists _, _, _; split; [done|]; simpl; split; [done|lia]].
  rewrite decide_False by done.
  destruct (next 2 g3) as [order g4].
  eexists _, _, _. split; [done|]. simpl. split; [|lia].
  intros Hnil. apply (f_equal length) in Hnil.
  rewrite !length_alter in Hnil. simpl in Hnil. lia.
Qed.

Lemma cm_loop_total n (st : cm_state (G:=G)) :
  cm_inv st → in_range_generator → cm_edgeList st ≠ [] →
  (cm_successfullRounds st + Z.of_nat n ≤ int_max)%Z →
  ∃ log st', cm_loop n st = Ok (log, st').
Proof.
  intros Hinv Hgen. revert st Hinv.
  induction n as [|n IH]; intros st Hinv Hne Hmax; simpl.
  - eauto.
  - destruct (cm_round_total st Hinv Hgen Hne ltac:(lia))
      as (tag & states & st1 & Hr & Hne1 & Hs1).
    rewrite Hr. cbn.
    destruct (cm_round_preserves _ _ _ _ Hinv Hr) as (Hinv1 & _).
    destruct (IH st1 Hinv1 Hne1 ltac:(lia)) as (log & st2 & Hl).
    rewrite Hl. cbn. eauto.
Qed.

Lemma cm_init_inv net (g : G) :
  simple net → cm_inv (CmState net (build_edgeList net) 0 g).
Proof. intros Hwf. split; [done|]. by apply build_edgeList_consistent. Qed.

(** On a simple graph with at least one edge, with a generator that keeps
    within range and a budget that the [int] counter can hold,
    confModelSimple returns. *)
Lemma confModelSimple_total net (g : G) (repeats : Z) :
  simple net → in_range_generator → 0 < numberOfEdges net →
  (0 ≤ repeats ≤ int_max)%Z →
  ∃ net' g' successfullRounds,
    confModelSimple net g repeats = Ok (net', g', successfullRounds).
Proof.
  intros Hs Hgen Hnum Hrep. unfold confModelSimple, confModelSimple_run.
  destruct (cm_loop_total (cm_iterations repeats)
              (CmState net (build_edgeList net) 0 g)) as (log & st & Hl).
  - by apply cm_init_inv.
  - done.
  - simpl. unfold numberOfEdges in Hnum.
    destruct (build_edgeList net); [simpl in Hnum; lia|done].
  - simpl. unfold cm_iterations.
    rewrite Z.mod_small by (unfold size_max, int_max in *; lia). lia.
  - rewrite Hl. cbn. eauto.
Qed.

End CmProofs.

(** *** switchLinkPairEnds *)

Section SlProofs.
Context {G : Type} `{!Generator G} {D : Type} `{!Dijkstrator D}.

Lemma randKey_spec (r : Row) (g g' : G) k :
  randKey r g = Ok (k, g') → is_Some (r !! k).
Proof.
  unfold randKey. destruct (next (size r) g) as [pos g1].
  destruct (keys r !! pos) as [k'|] eqn:Hk; [|done].
  intros [= -> ->]. apply elem_of_keys. by eapply list_elem_of_lookup_2.
Qed.

Lemma row_get net u (r : Row) v :
  nozero net → net !! u = Some r → is_Some (r !! v) → get net u v ≠ 0%Z.
Proof.
  intros Hz Hr [x Hx]. unfold get. rewrite Hr, Hx. simpl.
  intros ->. by eapply Hz.
Qed.

(** What the draw of lines 280-287 guarantees. *)
Lemma sl_draw_spec fuel net (g g' : G) netSize i j m n :
  wf net → sl_draw fuel net g netSize = Ok (i, j, m, n, g') →
  swappable net i m j n.
Proof.
  intros Hwf. pose proof (wf_nozero' _ Hwf) as Hz.
  revert g. induction fuel as [|fuel IH]; intros g Hd; [done|].
  simpl in Hd.
  destruct (next netSize g) as [i0 g1]. destruct (next netSize g1) as [j0 g2].
  unfold row_at, vec_at in Hd.
  destruct (net !! i0) as [ri|] eqn:Hri; [|done]. cbn in Hd.
  destruct (randKey ri g2) as [[m0 g3]| | |] eqn:Hm; try done. cbn in Hd.
  destruct (net !! j0) as [rj|] eqn:Hrj; [|done]. cbn in Hd.
  destruct (randKey rj g3) as [[n0 g4]| | |] eqn:Hn; try done. cbn in Hd.
  case_decide as Hrange; [|done].
  case_decide as Hcond; [by eapply IH|].
  simplify_eq.
  apply randKey_spec in Hm, Hn.
  pose proof (row_get _ _ _ _ Hz Hri Hm). pose proof (row_get _ _ _ _ Hz Hrj Hn).
  pose proof (wf_sym _ Hwf j m) as Hs.
  unfold swappable.
  destruct (decide (get net i n = 0%Z)); [|exfalso; tauto].
  destruct (decide (get net j m = 0%Z)); [|exfalso; tauto].
  repeat split; try done; try congruence; intros ->; tauto.
Qed.

(** A try either leaves the net as it was or makes the switch. *)
Lemma sl_try_spec net i j m n limit ok net' :
  wf net → swappable net i m j n →
  sl_try net i j m n limit = (ok, net') →
  (ok = false ∧ net' = net) ∨ (ok = true ∧ net' = sl_switch net i j m n).
Proof.
  intros Hwf Hsw Ht.
  destruct (swappable_facts _ _ _ _ _ Hwf Hsw) as (? & ? & ? & ? & ? & ?).
  destruct Hsw as (? & ? & ? & ? & Him & Hjn & Hin & Hmj).
  unfold sl_try in Ht. case_decide; [simplify_eq; by left|].
  destruct (sl_probe _ _ _ _) as [paths1 paths2].
  destruct (dij_finished paths1 || dij_finished paths2); simplify_eq.
  - left. split; [done|]. apply sl_reverse_switch; try done.
    by rewrite (wf_sym _ Hwf).
  - by right.
Qed.

Lemma sl_switch_preserves net i j m n :
  wf net → swappable net i m j n →
  wf (sl_switch net i j m n) ∧
  length (sl_switch net i j m n) = length net ∧
  (∀ u, degree (sl_switch net i j m n) u = degree net u) ∧
  numberOfEdges (sl_switch net i j m n) = numberOfEdges net ∧
  edge_weights (sl_switch net i j m n) = edge_weights net ∧
  total_weight (sl_switch net i j m n) = total_weight net.
Proof.
  intros Hwf Hsw.
  destruct (swappable_facts _ _ _ _ _ Hwf Hsw) as (? & ? & ? & ? & ? & ?).
  pose proof (sl_switch_rewired net i j m n) as Hrw.
  assert (wf (sl_switch net i j m n)) as Hwf'.
  { destruct Hsw as (? & ? & ? & ? & _). by apply wf_sl_switch. }
  pose proof (wf_nozero' _ Hwf') as Hz'.
  pose proof Hsw as (? & ? & ? & ? & Him & Hjn & Hin & Hmj).
  do 10 (specialize (Hrw ltac:(done))).
  split; [done|]. split; [apply length_sl_switch|].
  split; [intros u; by eapply rewired_degree|].
  split; [by eapply rewired_numberOfEdges|].
  eapply rewired_edge_weights; eauto.
Qed.

Lemma sl_loop_preserves fuel net (g g' : G) netSize limit tries net' tries' :
  wf net → sl_loop fuel net g netSize limit tries = Ok (net', g', tries') →
  wf net' ∧
  length net' = length net ∧
  (∀ u, degree net' u = degree net u) ∧
  numberOfEdges net' = numberOfEdges net ∧
  edge_weights net' = edge_weights net ∧
  total_weight net' = total_weight net.
Proof.
  intros Hwf. revert g tries.
  induction fuel as [|fuel IH]; intros g tries Hl; [done|].
  simpl in Hl.
  destruct (sl_draw fuel net g netSize) as [[[[[i j] m] n] g1]| | |] eqn:Hd;
    try done.
  cbn in Hl. apply sl_draw_spec in Hd; [|done].
  destruct (sl_try net i j m n limit) as [ok net1] eqn:Ht.
  apply sl_try_spec in Ht as [[-> ->]|[-> ->]]; try done.
  - by eapply IH.
  - simplify_eq. by apply sl_switch_preserves.
Qed.

(** A completed loop has made exactly one switch: the tries before the
    accepted one left the net as it was. *)
Lemma sl_loop_one_switch fuel net (g g' : G) netSize limit tries net' tries' :
  wf net → sl_loop fuel net g netSize limit tries = Ok (net', g', tries') →
  ∃ i j m n, swappable net i m j n ∧ net' = sl_switch net i j m n.
Proof.
  intros Hwf. revert g tries.
  induction fuel as [|fuel IH]; intros g tries Hl; [done|].
  simpl in Hl.
  destruct (sl_draw fuel net g netSize) as [[[[[i j] m] n] g1]| | |] eqn:Hd;
    try done.
  cbn in Hl. apply sl_draw_spec in Hd; [|done].
  destruct (sl_try net i j m n limit) as [ok net1] eqn:Ht.
  apply sl_try_spec in Ht as [[-> ->]|[-> ->]]; try done.
  - by eapply IH.
  - simplify_eq. eauto 10.
Qed.

(** What a switch changes and what it leaves alone. *)
Lemma sl_switch_frame net i j m n :
  wf net → swappable net i m j n →
  let net' := sl_switch net i j m n in
  (get net i m ≠ 0%Z ∧ get net j n ≠ 0%Z ∧
   get net i n = 0%Z ∧ get net j m = 0%Z) ∧
  (get net' i m = 0%Z ∧ get net' j n = 0%Z ∧
   get net' i n = get net i m ∧ get net' j m = get net j n) ∧
  (¬ same_edge i m j n ∧ ¬ same_edge i n j m ∧
   ¬ same_edge i m i n ∧ ¬ same_edge i m j m ∧
   ¬ same_edge j n i n ∧ ¬ same_edge j n j m) ∧
  (∀ x y, ¬ same_edge x y i m → ¬ same_edge x y j n →
          ¬ same_edge x y i n → ¬ same_edge x y j m →
          get net' x y = get net x y) ∧
  numberOfEdges net' = numberOfEdges net.
Proof.
  intros Hwf Hd net'. subst net'.
  destruct (swappable_facts _ _ _ _ _ Hwf Hd) as (? & ? & ? & ? & ? & ?).
  pose proof Hd as (? & ? & ? & ? & Him & Hjn & Hin & Hmj).
  pose proof (sl_switch_rewired net i j m n) as Hrw.
  do 10 (specialize (Hrw ltac:(done))).
  split; [|split; [|split; [|split]]].
  - repeat split; try done. by rewrite (wf_sym _ Hwf).
  - rewrite (Hrw i m), (Hrw j n), (Hrw i n), (Hrw j m).
    unfold same_edge. repeat split; repeat case_decide;
      first [done | exfalso; intuition congruence].
  - unfold same_edge. repeat split; intuition congruence.
  - intros x y ? ? ? ?. rewrite (Hrw x y). unfold same_edge in *.
    repeat case_decide; first [done | exfalso; intuition congruence].
  - by apply sl_switch_preserves.
Qed.

Lemma switchLinkPairEnds_preserves fuel net (g g' : G) netSize limit net' tries :
  wf net → switchLinkPairEnds fuel net g netSize limit = Ok (net', g', tries) →
  wf net' ∧
  length net' = length net ∧
  (∀ u, degree net' u = degree net u) ∧
  numberOfEdges net' = numberOfEdges net ∧
  edge_weights net' = edge_weights net ∧
  total_weight net' = total_weight net.
Proof.
  intros Hwf Hs. unfold switchLinkPairEnds in Hs.
  case_decide; [|done]. by eapply sl_loop_preserves.
Qed.

Lemma switchLinkPairEnds_limit fuel net (g g' : G) netSize limit net' tries :
  switchLinkPairEnds fuel net g netSize limit = Ok (net', g', tries) →
  (1 ≤ limit ≤ Z.of_nat netSize)%Z.
Proof.
  unfold switchLinkPairEnds. case_decide; [lia|done].
Qed.

Lemma sl_draw_no_assert fuel net (g : G) netSize :
  sl_draw fuel net g netSize ≠ AssertFailed.
Proof.
  revert g. induction fuel as [|fuel IH]; intros g; [done|]. simpl.
  destruct (next netSize g) as [i0 g1]. destruct (next netSize g1) as [j0 g2].
  unfold row_at, vec_at.
  destruct (net !! i0) as [ri|]; [|done]. cbn.
  destruct (randKey ri g2) as [[m0 g3]| | |] eqn:Hm; try done.
  { cbn. destruct (net !! j0) as [rj|]; [|done]. cbn.
    destruct (randKey rj g3) as [[n0 g4]| | |] eqn:Hn; try done.
    - cbn. repeat case_decide; first [done | apply IH].
    - unfold randKey in Hn. destruct (next (size rj) g3).
      by destruct (keys rj !! _). }
  unfold randKey in Hm. destruct (next (size ri) g2).
  by destruct (keys ri !! _).
Qed.

Lemma sl_loop_no_assert fuel net (g : G) netSize limit tries :
  sl_loop fuel net g netSize limit tries ≠ AssertFailed.
Proof.
  revert net g tries. induction fuel as [|fuel IH]; intros net g tries; [done|].
  simpl.
  destruct (sl_draw fuel net g netSize) as [[[[[i j] m] n] g1]| | |] eqn:Hd;
    try done.
  - cbn. destruct (sl_try net i j m n limit) as [[] net1]; [done|apply IH].
  - by apply sl_draw_no_assert in Hd.
Qed.

End SlProofs.

(** *** The connectivity check *)

Lemma elem_of_reach_step net X x :
  x ∈ reach_step net X ↔ x ∈ X ∨ ∃ u, u ∈ X ∧ x ∈ nbrs net u.
Proof.
  unfold reach_step. rewrite elem_of_union, elem_of_union_list.
  split; intros [?|Hx]; auto; right.
  - destruct Hx as (Y & HY & Hx). apply list_elem_of_fmap in HY as (u & -> & Hu).
    apply elem_of_elements in Hu. eauto.
  - destruct Hx as (u & Hu & Hx). exists (nbrs net u). split; [|done].
    apply list_elem_of_fmap. exists u. split; [done|].
    by apply elem_of_elements.
Qed.

Lemma reach_iter_sound net k x :
  nozero net → x ∈ Nat.iter k (reach_step net) {[0]} →
  rtc (adjacent net) 0 x.
Proof.
  intros Hz. revert x. induction k as [|k IH]; intros x; simpl.
  - rewrite elem_of_singleton. by intros ->.
  - rewrite elem_of_reach_step. intros [Hx|(u & Hu & Hx)]; [by apply IH|].
    eapply rtc_r; [by apply IH|]. by apply elem_of_nbrs in Hx.
Qed.

Lemma adjacent_rtc_sym net u v :
  wf net → rtc (adjacent net) u v → rtc (adjacent net) v u.
Proof.
  intros Hwf. induction 1 as [|x y z Hxy _ IH]; [done|].
  eapply rtc_r; [exact IH|]. unfold adjacent in *.
  by rewrite (wf_sym _ Hwf).
Qed.

(** A net that passes the check is connected. *)
Lemma ConnectivityCheck_sound net :
  wf net → ConnectivityCheck net = true → connected net.
Proof.
  intros Hwf Hc u v Hu Hv. unfold ConnectivityCheck in Hc.
  apply bool_decide_eq_true in Hc. rewrite Forall_forall in Hc.
  pose proof (wf_nozero' _ Hwf) as Hz.
  assert (∀ x, x < length net → rtc (adjacent net) 0 x) as H0.
  { intros x Hx. eapply reach_iter_sound; [done|]. apply Hc.
    apply elem_of_seq. lia. }
  etrans; [|by apply H0]. apply adjacent_rtc_sym; [done|]. by apply H0.
Qed.

Lemma reach_step_incl net (X : gset nat) : X ⊆ reach_step net X.
Proof. intros x Hx. apply elem_of_reach_step. by left. Qed.

Lemma reach_iter_fix net (X : gset nat) j :
  reach_step net X = X → Nat.iter j (reach_step net) X = X.
Proof. intros Hfix. induction j as [|j IH]; simpl; [done|]. by rewrite IH. Qed.

Lemma reach_iter_add net (X : gset nat) k j :
  Nat.iter (k + j) (reach_step net) X =
  Nat.iter j (reach_step net) (Nat.iter k (reach_step net) X).
Proof.
  induction j as [|j IH]; simpl.
  - by rewrite Nat.add_0_r.
  - replace (k + S j) with (S (k + j)) by lia. simpl. by rewrite IH.
Qed.

Lemma reach_iter_range net k x :
  wf net → 0 < length net →
  x ∈ Nat.iter k (reach_step net) {[0]} → x < length net.
Proof.
  intros Hwf Hn. revert x. induction k as [|k IH]; intros x; simpl.
  - rewrite elem_of_singleton. by intros ->.
  - rewrite elem_of_reach_step. intros [Hx|(u & Hu & Hx)]; [by apply IH|].
    apply elem_of_nbrs in Hx; [|by apply wf_nozero'].
    by eapply wf_range.
Qed.

Lemma reach_iter_grows net n :
  (∀ i, i < n → Nat.iter (S i) (reach_step net) {[0]} ≠
                Nat.iter i (reach_step net) {[0]}) →
  n + 1 ≤ size (Nat.iter n (reach_step net) {[0]}).
Proof.
  induction n as [|n IH]; intros Hne.
  - change (0 + 1 ≤ size ({[0]} : gset nat)). rewrite size_singleton. lia.
  - assert (Nat.iter n (reach_step net) {[0]} ⊂
            Nat.iter (S n) (reach_step net) {[0]}) as Hsub.
    { split; [apply reach_step_incl|]. intros Hincl.
      apply (Hne n); [lia|]. apply set_eq. intros x. split; [apply Hincl|].
      apply reach_step_incl. }
    apply subset_size in Hsub. specialize (IH ltac:(intros; apply Hne; lia)).
    lia.
Qed.

Lemma reach_iter_stops net n :
  (∃ k, k < n ∧ Nat.iter (S k) (reach_step net) {[0]} =
                Nat.iter k (reach_step net) {[0]}) ∨
  (∀ i, i < n → Nat.iter (S i) (reach_step net) {[0]} ≠
                Nat.iter i (reach_step net) {[0]}).
Proof.
  induction n as [|n [(k & ? & ?)|IH]].
  - right. intros. lia.
  - left. exists k. split; [lia|done].
  - destruct (decide (Nat.iter (S n) (reach_step net) {[0]} =
                      Nat.iter n (reach_step net) {[0]})) as [Heq|Hne].
    + left. exists n. split; [lia|done].
    + right. intros i Hi. destruct (decide (i = n)) as [->|]; [done|].
      apply IH. lia.
Qed.

Lemma reach_iter_closed net :
  wf net → 0 < length net →
  reach_step net (Nat.iter (length net) (reach_step net) {[0]}) =
  Nat.iter (length net) (reach_step net) {[0]}.
Proof.
  intros Hwf Hn.
  destruct (reach_iter_stops net (length net)) as [(k & Hk & Hfix)|Hne].
  - assert (Nat.iter (length net) (reach_step net) {[0]} =
            Nat.iter k (reach_step net) {[0]}) as ->; [|exact Hfix].
    replace (length net) with (k + (length net - k)) by lia.
    rewrite reach_iter_add. by apply reach_iter_fix.
  - exfalso. apply reach_iter_grows in Hne.
    assert (Nat.iter (length net) (reach_step net) {[0]} ⊆
            (set_seq 0 (length net) : gset nat)) as Hsub.
    { intros x Hx. apply elem_of_set_seq. split; [lia|].
      by eapply reach_iter_range. }
    apply subseteq_size in Hsub. rewrite size_set_seq in Hsub. lia.
Qed.

(** A connected net passes the check: the check is exact. *)
Lemma ConnectivityCheck_complete net :
  wf net → connected net → ConnectivityCheck net = true.
Proof.
  intros Hwf Hc. unfold ConnectivityCheck. apply bool_decide_eq_true.
  apply Forall_forall. intros x Hx. apply elem_of_seq in Hx.
  assert (0 < length net) as Hn by lia.
  pose proof (reach_iter_closed net Hwf Hn) as Hclosed.
  assert (0 ∈ Nat.iter (length net) (reach_step net) {[0]}) as H0.
  { clear. induction (length net); simpl; [set_solver|].
    by apply reach_step_incl. }
  specialize (Hc 0 x Hn ltac:(lia)).
  eapply (rtc_ind_r (λ v, v ∈ Nat.iter (length net) (reach_step net) {[0]}) 0);
    [exact H0| |exact Hc].
  intros u v _ Huv IH.
  rewrite <- Hclosed. apply elem_of_reach_step. right. exists u.
  split; [apply IH|]. apply elem_of_nbrs; [by apply wf_nozero'|done].
Qed.

Lemma ConnectivityCheck_exact net :
  wf net → ConnectivityCheck net = true ↔ connected net.
Proof.
  intros Hwf. split;
    [by apply ConnectivityCheck_sound | by apply ConnectivityCheck_complete].
Qed.

(** *** randomize *)

Section RzProofs.
Context {G : Type} `{!Generator G} {D : Type} `{!Dijkstrator D}.

Lemma rz_batch_preserves fuel numLinks net (g g' : G) netSize limit tries
    net' tries' :
  wf net →
  rz_batch fuel numLinks net g netSize limit tries = Ok (net', g', tries') →
  wf net' ∧
  length net' = length net ∧
  (∀ u, degree net' u = degree net u) ∧
  numberOfEdges net' = numberOfEdges net ∧
  edge_weights net' = edge_weights net ∧
  total_weight net' = total_weight net.
Proof.
  revert net g tries. induction numLinks as [|k IH]; intros net g tries Hwf Hb.
  - simpl in Hb. by simplify_eq.
  - simpl in Hb.
    destruct (switchLinkPairEnds fuel net g netSize limit)
      as [[[net1 g1] t]| | |] eqn:Hs; try done.
    cbn in Hb.
    destruct (switchLinkPairEnds_preserves _ _ _ _ _ _ _ _ Hwf Hs)
      as (Hwf1 & Hlen & Hdeg & Hnum & Hew & Htw).
    destruct (IH _ _ _ Hwf1 Hb) as (Hwf2 & Hlen2 & Hdeg2 & Hnum2 & Hew2 & Htw2).
    split; [done|]. split; [congruence|].
    split; [intros u; by rewrite Hdeg2|]. repeat split; congruence.
Qed.

Lemma rz_batch_limit fuel numLinks net (g g' : G) netSize limit tries
    net' tries' :
  0 < numLinks →
  rz_batch fuel numLinks net g netSize limit tries = Ok (net', g', tries') →
  (1 ≤ limit ≤ Z.of_nat netSize)%Z.
Proof.
  destruct numLinks as [|k]; [lia|]. intros _ Hb. simpl in Hb.
  destruct (switchLinkPairEnds fuel net g netSize limit)
    as [[[net1 g1] t]| | |] eqn:Hs; try done.
  by eapply switchLinkPairEnds_limit.
Qed.

Lemma rz_round_net fuel i backupNet netSize numLinks (st st' : rz_state (G:=G)) :
  wf (rz_net st) → wf backupNet →
  length (rz_net st) = length backupNet →
  (∀ u, degree (rz_net st) u = degree backupNet u) →
  rz_round fuel i backupNet netSize numLinks st = Ok st' →
  wf (rz_net st') ∧
  length (rz_net st') = length backupNet ∧
  (∀ u, degree (rz_net st') u = degree backupNet u) ∧
  ConnectivityCheck (rz_net st') = true.
Proof.
  revert st. induction fuel as [|fuel IH]; intros st Hwf Hwfb Hlen Hdeg Hr;
    [done|].
  simpl in Hr.
  destruct (rz_batch _ _ _ _ _ _ _) as [[[net1 g1] t]| | |] eqn:Hb; try done.
  cbn in Hr.
  destruct (rz_batch_preserves _ _ _ _ _ _ _ _ _ _ Hwf Hb)
    as (Hwf1 & Hlen1 & Hdeg1 & _).
  destruct (ConnectivityCheck net1) eqn:Hc; simpl in Hr.
  - destruct (limit_decrease _ _ _) as [limit' g2]. simplify_eq. simpl.
    split; [done|]. split; [congruence|]. split; [|done].
    intros u. by rewrite Hdeg1.
  - by apply IH in Hr.
Qed.

Lemma rz_rounds_net fuel rounds i netSize numLinks (st st' : rz_state (G:=G)) :
  wf (rz_net st) →
  rz_rounds fuel rounds i netSize numLinks st = Ok st' →
  wf (rz_net st') ∧
  length (rz_net st') = length (rz_net st) ∧
  (∀ u, degree (rz_net st') u = degree (rz_net st) u) ∧
  (0 < rounds → ConnectivityCheck (rz_net st') = true).
Proof.
  revert i st. induction rounds as [|k IH]; intros i st Hwf Hr.
  - simpl in Hr. simplify_eq. split; [done|]. split; [done|].
    split; [done|]. lia.
  - simpl in Hr.
    destruct (rz_round _ _ _ _ _ _) as [st1| | |] eqn:Hr1; try done.
    cbn in Hr. unfold copyNet in Hr1.
    destruct (rz_round_net _ _ _ _ _ _ _ Hwf Hwf eq_refl (λ _, eq_refl) Hr1)
      as (Hwf1 & Hlen1 & Hdeg1 & Hc1).
    destruct (IH _ _ Hwf1 Hr) as (Hwf2 & Hlen2 & Hdeg2 & Hc2).
    split; [done|]. split; [congruence|].
    split; [intros u; by rewrite Hdeg2|].
    intros _. destruct k as [|k]; [|apply Hc2; lia].
    simpl in Hr. by simplify_eq.
Qed.

Lemma follows_app limit found log1 limit1 found1 log2 limit2 found2 :
  follows limit found log1 limit1 found1 →
  follows limit1 found1 log2 limit2 found2 →
  follows limit found (log1 ++ log2) limit2 found2.
Proof.
  revert limit found. induction log1 as [|ev log1 IH]; intros limit found; simpl.
  - by intros [-> ->].
  - intros (? & ? & ?) ?. eauto.
Qed.

Lemma limit_increase_small limit netSize :
  (1 ≤ limit ≤ Z.of_nat netSize)%Z → (Z.of_nat netSize + 5 < size_max)%Z →
  limit_increase limit = (limit + 5)%Z.
Proof.
  intros ? ?. unfold limit_increase. apply Z.mod_small. lia.
Qed.

Lemma rz_round_log fuel i backupNet netSize numLinks (st st' : rz_state (G:=G)) :
  0 < numLinks → (Z.of_nat netSize + 5 < size_max)%Z →
  rz_round fuel i backupNet netSize numLinks st = Ok st' →
  ∃ log, rz_log st' = rz_log st ++ log ∧ Forall event_ok log ∧
    follows (rz_limit st) (rz_disconnectionFound st) log
      (rz_limit st') (rz_disconnectionFound st').
Proof.
  intros Hnum Hsize. revert st.
  induction fuel as [|fuel IH]; intros st Hr; [done|].
  simpl in Hr.
  destruct (rz_batch _ _ _ _ _ _ _) as [[[net1 g1] t]| | |] eqn:Hb; try done.
  cbn in Hr. pose proof (rz_batch_limit _ _ _ _ _ _ _ _ _ _ Hnum Hb) as Hlim.
  destruct (ConnectivityCheck net1) eqn:Hc; simpl in Hr.
  - clear IH. unfold limit_decrease in Hr.
    destruct (rz_disconnectionFound st) eqn:Hf.
    + destruct (next_real g1) as [r g2] eqn:Hd. simpl in Hr.
      case_decide as Hdec; simplify_eq; simpl; eexists [_];
        (split; [done|]); (split; [|by simpl]);
        apply Forall_singleton; unfold event_ok; simpl.
      * destruct Hdec as [? ?]. split; [lia|]. split; [lia|].
        exists r. split; [done|]. by rewrite decide_True.
      * split; [lia|]. split; [lia|].
        exists r. split; [done|]. by rewrite decide_False.
    + case_decide as Hdec; simplify_eq; simpl; eexists [_];
        (split; [done|]); (split; [|by simpl]);
        apply Forall_singleton; unfold event_ok; simpl;
        (split; [lia|]); (split; [lia|]).
      * by rewrite decide_True.
      * by rewrite decide_False.
  - apply IH in Hr as (log & Hlog & Hok & Hfol). simpl in *.
    rewrite (limit_increase_small _ _ Hlim Hsize) in *.
    eexists (_ :: log). split; [by rewrite Hlog, <- app_assoc|].
    split.
    + apply Forall_cons_2; [|done]. unfold event_ok. simpl. lia.
    + simpl. repeat split; try done. by rewrite orb_true_r.
Qed.

Lemma rz_rounds_log fuel rounds i netSize numLinks (st st' : rz_state (G:=G)) :
  0 < numLinks → (Z.of_nat netSize + 5 < size_max)%Z →
  rz_rounds fuel rounds i netSize numLinks st = Ok st' →
  ∃ log, rz_log st' = rz_log st ++ log ∧ Forall event_ok log ∧
    follows (rz_limit st) (rz_disconnectionFound st) log
      (rz_limit st') (rz_disconnectionFound st').
Proof.
  intros Hnum Hsize. revert i st.
  induction rounds as [|k IH]; intros i st Hr.
  - simpl in Hr. simplify_eq. exists []. rewrite app_nil_r. by repeat split.
  - simpl in Hr.
    destruct (rz_round _ _ _ _ _ _) as [st1| | |] eqn:Hr1; try done.
    cbn in Hr.
    apply rz_round_log in Hr1 as (log1 & Hl1 & Hok1 & Hf1); try done.
    apply IH in Hr as (log2 & Hl2 & Hok2 & Hf2).
    exists (log1 ++ log2). split; [by rewrite Hl2, Hl1, <- app_assoc|].
    split; [by apply Forall_app|]. by eapply follows_app.
Qed.

End RzProofs.

(** *** The rounds of a run, one by one *)

Section CmRounds.
Context {G : Type} `{!Generator G}.

(** Every entry of the record of a run is the round made from the state
    that the rounds before it left. *)
Lemma cm_loop_round n (st : cm_state (G:=G)) log st_end k tag states :
  cm_loop n st = Ok (log, st_end) → log !! k = Some (tag, states) →
  ∃ before after,
    cm_loop k st = Ok (take k log, before) ∧
    cm_round before = Ok (tag, states, after).
Proof.
  revert st log k. induction n as [|n IH]; intros st log k Hl Hk.
  { simpl in Hl. by simplify_eq. }
  simpl in Hl.
  destruct (cm_round st) as [[[tag0 states0] st1]| | |] eqn:Hr; try done.
  cbn in Hl.
  destruct (cm_loop n st1) as [[log1 st2]| | |] eqn:Hl1; try done.
  cbn in Hl. simplify_eq.
  destruct k as [|k].
  - simpl in Hk. simplify_eq. exists st, st1. by split.
  - simpl in Hk. destruct (IH _ _ _ Hl1 Hk) as (before & after & Hb & Ha).
    exists before, after. split; [|done].
    simpl. rewrite Hr. cbn. rewrite Hb. done.
Qed.

(** What an accepted swap does to the weights, and that no other round
    writes an edge. *)
Lemma cm_round_hand_over (st : cm_state (G:=G)) tag states st' :
  cm_inv st → cm_round st = Ok (tag, states, st') →
  (tag ≠ Swapped → cm_net st' = cm_net st) ∧
  (tag = Swapped →
   ∃ a b c d, swappable (cm_net st) a b c d ∧
     ((get (cm_net st') a d = get (cm_net st) a b ∧
       get (cm_net st') b c = get (cm_net st) c d) ∨
      (get (cm_net st') a d = get (cm_net st) c d ∧
       get (cm_net st') b c = get (cm_net st) a b)) ∧
     get (cm_net st') a b = 0%Z ∧ get (cm_net st') c d = 0%Z ∧
     (∀ x y, ¬ same_edge x y a b → ¬ same_edge x y c d →
             ¬ same_edge x y a d → ¬ same_edge x y b c →
             get (cm_net st') x y = get (cm_net st) x y)).
Proof.
  intros [Hwf Hcons] Hr. apply cm_round_inv in Hr
    as [(Hne & _ & Hn & _)|(-> & idx1 & idx2 & a & b & c & d & order &
         Hidx & H1 & H2 & ? & ? & ? & ? & Had & Hbc & _ & Hn & _)].
  { split; [done|]. intros ->. done. }
  split; [done|]. intros _.
  assert (swappable (cm_net st) a b c d) as Hsw.
  { repeat split; try done.
    - apply Hcons, unordered_mem_lookup.
      destruct H1 as [H1|H1]; eexists _, _; (split; [exact H1|]);
        unfold same_edge; simpl; auto.
    - apply Hcons, unordered_mem_lookup.
      eexists _, _; (split; [exact H2|]); unfold same_edge; simpl; auto. }
  unfold simple in Hwf.
  destruct (swappable_facts _ _ _ _ _ Hwf Hsw) as (? & ? & ? & ? & ? & ?).
  pose proof (cm_swap_rewired (cm_net st) a b c d order) as Hrw.
  do 10 (specialize (Hrw ltac:(done))). rewrite <- Hn in Hrw.
  exists a, b, c, d. split; [done|].
  split; [|split; [|split]].
  - rewrite (Hrw a d), (Hrw b c). unfold same_edge.
    destruct (decide (order = 0)); [left|right];
      repeat case_decide; first [done | exfalso; intuition congruence].
  - rewrite (Hrw a b). unfold same_edge.
    repeat case_decide; first [done | exfalso; intuition congruence].
  - rewrite (Hrw c d). unfold same_edge.
    repeat case_decide; first [done | exfalso; intuition congruence].
  - intros x y Hab Hcd Had' Hbc'. rewrite (Hrw x y).
    rewrite decide_False by tauto. by rewrite !decide_False.
Qed.

End CmRounds.

(** * Further properties *)

Lemma unswappable_check_sound net :
  wf net → unswappable_check net = true → unswappable net.
Proof.
  intros Hwf Hc a b c d Hsw. unfold unswappable_check in Hc.
  apply bool_decide_eq_true in Hc.
  destruct (swappable_facts _ _ _ _ _ Hwf Hsw) as (Ha & Hb & Hc' & Hd & _).
  rewrite Forall_forall in Hc. specialize (Hc a).
  rewrite elem_of_seq in Hc. specialize (Hc ltac:(lia)).
  rewrite Forall_forall in Hc. specialize (Hc b).
  rewrite elem_of_seq in Hc. specialize (Hc ltac:(lia)).
  rewrite Forall_forall in Hc. specialize (Hc c).
  rewrite elem_of_seq in Hc. specialize (Hc ltac:(lia)).
  rewrite Forall_forall in Hc. specialize (Hc d).
  rewrite elem_of_seq in Hc. specialize (Hc ltac:(lia)).
  done.
Qed.

Section CmMore.
Context {G : Type} `{!Generator G}.

(** The two edges of an accepted swap could be swapped. *)
Lemma cm_round_swappable (st : cm_state (G:=G)) states st' :
  cm_inv st → cm_round st = Ok (Swapped, states, st') →
  ∃ a b c d, swappable (cm_net st) a b c d.
Proof.
  intros [Hwf Hcons] Hr. apply cm_round_inv in Hr
    as [(Hne & _)|(_ & idx1 & idx2 & a & b & c & d & order &
         Hidx & H1 & H2 & ? & ? & ? & ? & Had & Hbc & _)]; [done|].
  exists a, b, c, d. repeat split; try done.
  - apply Hcons, unordered_mem_lookup.
    destruct H1 as [H1|H1]; eexists _, _; (split; [exact H1|]);
      unfold same_edge; simpl; auto.
  - apply Hcons, unordered_mem_lookup.
    eexists _, _; (split; [exact H2|]); unfold same_edge; simpl; auto.
Qed.

(** The count grows by one in a round that swaps and stays in any other
    round, which leaves the net and the edge list alone. *)
Lemma cm_loop_count n (st : cm_state (G:=G)) log st' :
  cm_loop n st = Ok (log, st') →
  cm_successfullRounds st' =
    (cm_successfullRounds st +
     Z.of_nat (length (filter (λ e, e.1 = Swapped) log)))%Z ∧
  length log = n ∧
  (Forall (λ e, e.1 ≠ Swapped) log →
   cm_net st' = cm_net st ∧ cm_edgeList st' = cm_edgeList st).
Proof.
  revert st log st'. induction n as [|n IH]; intros st log st' Hl.
  - simpl in Hl. simplify_eq. simpl. split; [lia|]. done.
  - simpl in Hl.
    destruct (cm_round st) as [[[tag states] st1]| | |] eqn:Hr; try done.
    cbn in Hl.
    destruct (cm_loop n st1) as [[log1 st2]| | |] eqn:Hl1; try done.
    cbn in Hl. simplify_eq.
    destruct (IH _ _ _ Hl1) as (Hc & Hlen & Hsame).
    apply cm_round_inv in Hr
      as [(Hne & _ & Hn & He & Hs)|
          (Htag & idx1 & idx2 & a & b & c & d & order & Hrest)].
    + rewrite filter_cons_False by done.
      split; [rewrite Hc, Hs; done|]. split; [simpl; by rewrite Hlen|].
      intros Hall. apply Forall_cons_1 in Hall as [_ Hall].
      destruct (Hsame Hall) as [-> ->]. done.
    + destruct Hrest as (_ & _ & _ & _ & _ & _ & _ & _ & _ & _ & _ & _ & Hs).
      subst tag. rewrite filter_cons_True by done. simpl.
      split; [rewrite Hc, Hs; lia|]. split; [by rewrite Hlen|].
      intros Hall. by apply Forall_cons_1 in Hall as [? _].
Qed.

Lemma filter_length_le {A} (P : A → Prop) `{∀ x, Decision (P x)} (l : list A) :
  length (filter P l) ≤ length l.
Proof.
  induction l as [|x l IH]; [done|].
  destruct (decide (P x)).
  - rewrite filter_cons_True by done. simpl. lia.
  - rewrite filter_cons_False by done. simpl. lia.
Qed.

Lemma filter_length_0 {A} (P : A → Prop) `{∀ x, Decision (P x)} (l : list A) :
  length (filter P l) = 0 → Forall (λ x, ¬ P x) l.
Proof.
  induction l as [|x l IH]; [constructor|].
  destruct (decide (P x)).
  - rewrite filter_cons_True by done. simpl. lia.
  - rewrite filter_cons_False by done. intros. constructor; auto.
Qed.

(** On a net where no two edges can be swapped, no round swaps. *)
Lemma cm_loop_unswappable n (st : cm_state (G:=G)) log st' :
  cm_inv st → unswappable (cm_net st) →
  cm_loop n st = Ok (log, st') →
  cm_net st' = cm_net st ∧ cm_edgeList st' = cm_edgeList st ∧
  cm_successfullRounds st' = cm_successfullRounds st ∧
  Forall (λ e, e.1 ≠ Swapped) log.
Proof.
  revert st log st'. induction n as [|n IH]; intros st log st' Hinv Hun Hl.
  - simpl in Hl. simplify_eq. repeat split; constructor.
  - simpl in Hl.
    destruct (cm_round st) as [[[tag states] st1]| | |] eqn:Hr; try done.
    cbn in Hl.
    destruct (cm_loop n st1) as [[log1 st2]| | |] eqn:Hl1; try done.
    cbn in Hl. simplify_eq.
    destruct (decide (tag = Swapped)) as [->|Htag].
    { apply cm_round_swappable in Hr as (a & b & c & d & Hsw); [|done].
      by apply Hun in Hsw. }
    pose proof Hr as Hr'. apply cm_round_inv in Hr'
      as [(_ & _ & Hn & He & Hs)|(? & _)]; [|done].
    assert (cm_inv st1) as Hinv1.
    { destruct Hinv. split; by rewrite ?Hn, ?He. }
    destruct (IH _ _ _ Hinv1 ltac:(by rewrite Hn) Hl1)
      as (Hn2 & He2 & Hs2 & Hall).
    split; [congruence|]. split; [congruence|]. split; [congruence|].
    by constructor.
Qed.

End CmMore.

Section SlMore.
Context {G : Type} `{!Generator G} {D : Type} `{!Dijkstrator D}.

Lemma sl_loop_tries fuel net (g g' : G) netSize limit tries net' tries' :
  (0 ≤ tries)%Z → (tries + Z.of_nat fuel < size_max)%Z →
  sl_loop fuel net g netSize limit tries = Ok (net', g', tries') →
  (tries < tries' ≤ tries + Z.of_nat fuel)%Z.
Proof.
  revert net g tries. induction fuel as [|fuel IH]; intros net g tries ? ? Hl;
    [done|].
  simpl in Hl.
  destruct (sl_draw fuel net g netSize) as [[[[[i j] m] n] g1]| | |] eqn:Hd;
    try done.
  cbn in Hl. rewrite Z.mod_small in Hl by lia.
  destruct (sl_try net i j m n limit) as [[] net1] eqn:Ht.
  - simplify_eq. lia.
  - apply IH in Hl; lia.
Qed.

Lemma randKey_total (r : Row) (g : G) :
  in_range_generator → 0 < size r → ∃ k g', randKey r g = Ok (k, g').
Proof.
  intros Hgen Hr. unfold randKey. pose proof (Hgen _ g Hr) as Hpos.
  destruct (next (size r) g) as [pos g1]. simpl in Hpos.
  rewrite <- length_keys in Hpos.
  destruct (lookup_lt_is_Some_2 _ _ Hpos) as [k Hk]. rewrite Hk. eauto.
Qed.

Lemma sl_draw_defined fuel net (g : G) netSize :
  wf net → drawable net netSize → in_range_generator → 0 < netSize →
  sl_draw fuel net g netSize ≠ Undefined.
Proof.
  intros Hwf [Hsize Hdeg] Hgen Hn. pose proof (wf_nozero' _ Hwf) as Hz.
  revert g. induction fuel as [|fuel IH]; intros g; [done|]. simpl.
  pose proof (Hgen _ g Hn) as Hi.
  destruct (next netSize g) as [i g1]. simpl in Hi.
  pose proof (Hgen _ g1 Hn) as Hj.
  destruct (next netSize g1) as [j g2]. simpl in Hj.
  unfold row_at, vec_at.
  destruct (lookup_lt_is_Some_2 net i ltac:(lia)) as [ri Hri].
  destruct (lookup_lt_is_Some_2 net j ltac:(lia)) as [rj Hrj].
  rewrite Hri. cbn.
  pose proof (Hdeg i Hi) as Hdi. unfold degree in Hdi. rewrite Hri in Hdi.
  destruct (randKey_total ri g2 Hgen Hdi) as (m & g3 & Hm). rewrite Hm. cbn.
  rewrite Hrj. cbn.
  pose proof (Hdeg j Hj) as Hdj. unfold degree in Hdj. rewrite Hrj in Hdj.
  destruct (randKey_total rj g3 Hgen Hdj) as (n & g4 & Hn'). rewrite Hn'. cbn.
  apply randKey_spec in Hm, Hn'.
  pose proof (wf_range _ Hwf _ _ (row_get _ _ _ _ Hz Hri Hm)).
  pose proof (wf_range _ Hwf _ _ (row_get _ _ _ _ Hz Hrj Hn')).
  rewrite decide_True by done.
  case_decide; [apply IH|done].
Qed.

Lemma sl_loop_defined fuel net (g : G) netSize limit tries :
  wf net → drawable net netSize → in_range_generator → 0 < netSize →
  sl_loop fuel net g netSize limit tries ≠ Undefined.
Proof.
  intros Hwf Hdr Hgen Hn. revert g tries.
  induction fuel as [|fuel IH]; intros g tries; [done|]. simpl.
  destruct (sl_draw fuel net g netSize) as [[[[[i j] m] n] g1]| | |] eqn:Hd;
    try done.
  - cbn. apply sl_draw_spec in Hd; [|done].
    destruct (sl_try net i j m n limit) as [ok net1] eqn:Ht.
    apply sl_try_spec in Ht as [[-> ->]|[-> ->]]; first [done | apply IH].
  - by apply sl_draw_defined in Hd.
Qed.

Lemma size_1_singleton (X : gset nat) x : size X = 1 → x ∈ X → X = {[x]}.
Proof.
  intros Hs Hx. apply set_eq. intros y. rewrite elem_of_singleton. split.
  - intros Hy. symmetry. by apply (size_singleton_inv X x y).
  - by intros ->.
Qed.

(** A set of nodes that no edge leaves holds everything that can be
    reached from its members. *)
Lemma closed_rtc net (S : gset nat) x y :
  (∀ u v, u ∈ S → adjacent net u v → v ∈ S) →
  x ∈ S → rtc (adjacent net) x y → y ∈ S.
Proof. intros Hcl Hx Hr. induction Hr; eauto. Qed.

(** After a switch that joins two nodes which had one neighbour each, these
    two nodes are cut off from the rest. *)
Lemma sl_switch_isolates net i j m n :
  wf net → swappable net i m j n →
  (degree net i = 1 ∧ degree net n = 1) ∨
    (degree net j = 1 ∧ degree net m = 1) →
  ¬ connected (sl_switch net i j m n).
Proof.
  intros Hwf Hsw Hdeg Hconn.
  destruct (swappable_facts _ _ _ _ _ Hwf Hsw) as (Hi & Hm & Hj & Hn & ? & ?).
  pose proof Hsw as (? & ? & ? & ? & Him & Hjn & Hin & Hmj).
  pose proof (wf_nozero' _ Hwf) as Hz. pose proof (wf_sym _ Hwf) as Hsym.
  pose proof (sl_switch_rewired net i j m n) as Hrw.
  do 10 (specialize (Hrw ltac:(done))).
  assert (wf (sl_switch net i j m n)) as Hwf' by by apply wf_sl_switch.
  pose proof (wf_nozero' _ Hwf') as Hz'.
  assert (∀ u, nbrs (sl_switch net i j m n) u =
               if decide (u = i) then nbrs net i ∖ {[m]} ∪ {[n]}
               else if decide (u = m) then nbrs net m ∖ {[i]} ∪ {[j]}
               else if decide (u = j) then nbrs net j ∖ {[n]} ∪ {[m]}
               else if decide (u = n) then nbrs net n ∖ {[j]} ∪ {[i]}
               else nbrs net u) as Hnb.
  { intros u. eapply rewired_nbrs; eauto. }
  specialize (Hconn i j). rewrite length_sl_switch in Hconn.
  specialize (Hconn Hi Hj).
  destruct Hdeg as [[Hdi Hdn]|[Hdj Hdm]].
  - rewrite degree_nbrs in Hdi, Hdn.
    apply (size_1_singleton _ m) in Hdi; [|by apply elem_of_nbrs].
    apply (size_1_singleton _ j) in Hdn;
      [|apply elem_of_nbrs; [done|by rewrite Hsym]].
    assert (j ∈ ({[i; n]} : gset nat)) as Hin'; [|set_solver].
    eapply closed_rtc; [|by apply elem_of_union_l, elem_of_singleton|done].
    intros u v Hu Hadj. apply elem_of_nbrs in Hadj; [|done].
    rewrite Hnb in Hadj. rewrite Hdi, Hdn in Hadj.
    repeat case_decide; set_solver.
  - rewrite degree_nbrs in Hdj, Hdm.
    apply (size_1_singleton _ n) in Hdj; [|by apply elem_of_nbrs].
    apply (size_1_singleton _ i) in Hdm;
      [|apply elem_of_nbrs; [done|by rewrite Hsym]].
    apply adjacent_rtc_sym in Hconn; [|done].
    assert (i ∈ ({[j; m]} : gset nat)) as Hin'; [|set_solver].
    eapply closed_rtc; [|by apply elem_of_union_l, elem_of_singleton|done].
    intros u v Hu Hadj. apply elem_of_nbrs in Hadj; [|done].
    rewrite Hnb in Hadj. rewrite Hdj, Hdm in Hadj.
    repeat case_decide; set_solver.
Qed.

End SlMore.

Section RzMore.
Context {G : Type} `{!Generator G} {D : Type} `{!Dijkstrator D}.

(** What a round keeps, measured against its backup. *)
Lemma rz_round_weights fuel i backupNet netSize numLinks
    (st st' : rz_state (G:=G)) :
  wf (rz_net st) → wf backupNet →
  numberOfEdges (rz_net st) = numberOfEdges backupNet →
  edge_weights (rz_net st) = edge_weights backupNet →
  total_weight (rz_net st) = total_weight backupNet →
  rz_round fuel i backupNet netSize numLinks st = Ok st' →
  numberOfEdges (rz_net st') = numberOfEdges backupNet ∧
  edge_weights (rz_net st') = edge_weights backupNet ∧
  total_weight (rz_net st') = total_weight backupNet.
Proof.
  revert st. induction fuel as [|fuel IH]; intros st Hwf Hwfb Hn He Ht Hr;
    [done|].
  simpl in Hr.
  destruct (rz_batch _ _ _ _ _ _ _) as [[[net1 g1] t]| | |] eqn:Hb; try done.
  cbn in Hr.
  destruct (rz_batch_preserves _ _ _ _ _ _ _ _ _ _ Hwf Hb)
    as (Hwf1 & _ & _ & Hn1 & He1 & Ht1).
  destruct (ConnectivityCheck net1) eqn:Hc; simpl in Hr.
  - destruct (limit_decrease _ _ _) as [limit' g2]. simplify_eq. simpl.
    repeat split; congruence.
  - by apply IH in Hr.
Qed.

Lemma rz_rounds_weights fuel rounds i netSize numLinks
    (st st' : rz_state (G:=G)) :
  wf (rz_net st) →
  rz_rounds fuel rounds i netSize numLinks st = Ok st' →
  numberOfEdges (rz_net st') = numberOfEdges (rz_net st) ∧
  edge_weights (rz_net st') = edge_weights (rz_net st) ∧
  total_weight (rz_net st') = total_weight (rz_net st).
Proof.
  revert i st. induction rounds as [|k IH]; intros i st Hwf Hr.
  - simpl in Hr. by simplify_eq.
  - simpl in Hr.
    destruct (rz_round _ _ _ _ _ _) as [st1| | |] eqn:Hr1; try done.
    cbn in Hr. unfold copyNet in Hr1.
    destruct (rz_round_net _ _ _ _ _ _ _ Hwf Hwf eq_refl (λ _, eq_refl) Hr1)
      as (Hwf1 & _).
    destruct (rz_round_weights _ _ _ _ _ _ _ Hwf Hwf eq_refl eq_refl eq_refl Hr1)
      as (Hn1 & He1 & Ht1).
    destruct (IH _ _ Hwf1 Hr) as (Hn2 & He2 & Ht2).
    repeat split; congruence.
Qed.

(** A round that completes started with [limit] in the range that the
    assertion of switchLinkPairEnds allows. *)
Lemma rz_round_limit_in_range fuel i backupNet netSize numLinks
    (st st' : rz_state (G:=G)) :
  0 < numLinks →
  rz_round fuel i backupNet netSize numLinks st = Ok st' →
  (1 ≤ rz_limit st ≤ Z.of_nat netSize)%Z.
Proof.
  intros Hnum Hr. destruct fuel as [|fuel]; [done|]. simpl in Hr.
  destruct (rz_batch _ _ _ _ _ _ _) as [[[net1 g1] t]| | |] eqn:Hb; try done.
  by eapply rz_batch_limit.
Qed.

(** The events that a round adds to the log: failed checks of this round,
    each followed by a batch that passed the assertion with the raised
    [limit], and one successful check at the end. *)
Lemma rz_round_events fuel i backupNet netSize numLinks
    (st st' : rz_state (G:=G)) :
  0 < numLinks →
  rz_round fuel i backupNet netSize numLinks st = Ok st' →
  ∃ fails ok,
    rz_log st' = rz_log st ++ fails ++ [ok] ∧
    ev_connected ok = true ∧ ev_round ok = i ∧
    (1 ≤ ev_limit_was ok ≤ Z.of_nat netSize)%Z ∧
    Forall (λ ev, ev_connected ev = false ∧ ev_round ev = i ∧
                  (1 ≤ ev_limit_was ev ≤ Z.of_nat netSize)%Z ∧
                  ev_limit_after ev = limit_increase (ev_limit_was ev) ∧
                  (1 ≤ ev_limit_after ev ≤ Z.of_nat netSize)%Z) fails.
Proof.
  intros Hnum. revert st.
  induction fuel as [|fuel IH]; intros st Hr; [done|].
  pose proof (rz_round_limit_in_range _ _ _ _ _ _ _ Hnum Hr) as Hlim.
  simpl in Hr.
  destruct (rz_batch _ _ _ _ _ _ _) as [[[net1 g1] t]| | |] eqn:Hb; try done.
  cbn in Hr.
  destruct (ConnectivityCheck net1) eqn:Hc; simpl in Hr.
  - clear IH. destruct (limit_decrease _ _ _) as [limit' g2]. simplify_eq.
    simpl. eexists [], _. split; [done|]. simpl.
    repeat split; try done; lia.
  - pose proof (rz_round_limit_in_range _ _ _ _ _ _ _ Hnum Hr) as Hlim'.
    apply IH in Hr as (fails & ok & Hlog & Hok & Hrd & Hwas & Hfails).
    simpl in *.
    eexists (_ :: fails), ok. split; [by rewrite Hlog, <- app_assoc|].
    split; [done|]. split; [done|]. split; [done|].
    apply Forall_cons_2; [|done]. simpl. repeat split; try done; lia.
Qed.

Lemma rz_rounds_events fuel rounds i netSize numLinks
    (st st' : rz_state (G:=G)) :
  0 < numLinks →
  rz_rounds fuel rounds i netSize numLinks st = Ok st' →
  ∃ log, rz_log st' = rz_log st ++ log ∧
    ev_round <$> filter (λ ev, ev_connected ev = true) log = seq i rounds ∧
    Forall (λ ev, (1 ≤ ev_limit_was ev ≤ Z.of_nat netSize)%Z ∧
                  (ev_connected ev = false →
                   ev_limit_after ev = limit_increase (ev_limit_was ev) ∧
                   (1 ≤ ev_limit_after ev ≤ Z.of_nat netSize)%Z)) log.
Proof.
  intros Hnum. revert i st.
  induction rounds as [|k IH]; intros i st Hr.
  - simpl in Hr. simplify_eq. exists []. rewrite app_nil_r.
    repeat split; constructor.
  - simpl in Hr.
    destruct (rz_round _ _ _ _ _ _) as [st1| | |] eqn:Hr1; try done.
    cbn in Hr.
    apply rz_round_events in Hr1
      as (fails & ok & Hl1 & Hok & Hrd & Hwas & Hfails); [|done].
    apply IH in Hr as (log2 & Hl2 & Hseq & Hall).
    exists ((fails ++ [ok]) ++ log2).
    split; [by rewrite Hl2, Hl1, <- !app_assoc|]. split.
    + rewrite !filter_app, !fmap_app, Hseq.
      assert (filter (λ ev, ev_connected ev = true) fails = []) as ->.
      { clear -Hfails. induction Hfails as [|ev l (Hf & _) _ IHl]; [done|].
        rewrite filter_cons_False by (by rewrite Hf). done. }
      rewrite filter_cons_True by done. rewrite filter_nil. simpl.
      by rewrite Hrd.
    + apply Forall_app. split; [apply Forall_app; split|done].
      * eapply Forall_impl; [exact Hfails|]. simpl.
        intros ev (? & ? & ? & ? & ?). done.
      * apply Forall_singleton. split; [done|]. by rewrite Hok.
Qed.

(** With [limit] outside the range of the assertion, the first switch of the
    first round stops the call. *)
Lemma rz_rounds_assert fuel rounds i netSize numLinks (st : rz_state (G:=G)) :
  0 < rounds → 0 < numLinks →
  ¬ (1 ≤ rz_limit st ∧ rz_limit st ≤ Z.of_nat netSize)%Z →
  rz_rounds (S fuel) rounds i netSize numLinks st = AssertFailed.
Proof.
  intros Hr Hn Hlim. destruct rounds as [|k]; [lia|].
  destruct numLinks as [|l]; [lia|]. simpl.
  unfold switchLinkPairEnds. rewrite decide_False by lia. done.
Qed.

End RzMore.

(** * Proofs: switchConnections *)

Lemma keys_get net u (r : Row) k :
  nozero net → net !! u = Some r → k ∈ keys r ↔ get net u k ≠ 0%Z.
Proof.
  intros Hz Hr. rewrite elem_of_keys. split; [by apply row_get|].
  unfold get. rewrite Hr. destruct (r !! k); [eauto|done].
Qed.

Section ScProofs.
Context {G : Type} `{!Generator G}.
Variable to_float : Z → Z.
Variable iter_clear : Net → nat → nat → Net.
Hypothesis iter_clear_removes : ∀ net u v, iter_clear net u v = set net u v 0.

Lemma sc_draw_spec fuel (g g' : G) netSize i j :
  sc_draw fuel g netSize = Ok (i, j, g') → i ≠ j.
Proof.
  revert g. induction fuel as [|fuel IH]; intros g Hd; [done|].
  simpl in Hd. destruct (next netSize g) as [i0 g1].
  destruct (next netSize g1) as [j0 g2].
  case_decide; [by eapply IH|]. by simplify_eq.
Qed.

(** After the first loop the edges of [i] to the nodes of [ks] are gone
    and their weights are in the temporary map. *)
Lemma sc_store_spec net0 i ks :
  wf net0 → i < length net0 → NoDup ks →
  Forall (λ k, k < length net0 ∧ k ≠ i) ks →
  wf (sc_store to_float iter_clear net0 i ks).2 ∧
  length (sc_store to_float iter_clear net0 i ks).2 = length net0 ∧
  (∀ y, y ∈ ks → get (sc_store to_float iter_clear net0 i ks).2 i y = 0%Z) ∧
  (∀ x y, (x = i → y ∉ ks) → (y = i → x ∉ ks) →
     get (sc_store to_float iter_clear net0 i ks).2 x y = get net0 x y) ∧
  (∀ k, k ∈ ks →
     (sc_store to_float iter_clear net0 i ks).1 !! k
     = Some (to_float (get net0 i k))) ∧
  (∀ k, k ∉ ks → (sc_store to_float iter_clear net0 i ks).1 !! k = None).
Proof using Type*.
  intros Hwf Hi. induction ks as [|k ks IH] using rev_ind; intros Hnd Hall.
  - unfold sc_store. cbn [foldl fst snd].
    split; [done|]. split; [done|]. split.
    { intros y Hy. by apply elem_of_nil in Hy. }
    split; [done|]. split.
    { intros y Hy. by apply elem_of_nil in Hy. }
    intros k _. apply lookup_empty.
  - apply NoDup_app in Hnd as (Hnd & Hdisj & _).
    apply Forall_app in Hall as [Hall Hk].
    apply Forall_singleton in Hk as [Hk Hki].
    destruct (IH Hnd Hall) as (Hwf1 & Hlen1 & Hzero1 & Hget1 & Htmp1 & Hnone1).
    assert (k ∉ ks) as Hkn.
    { intros Hin. apply (Hdisj k Hin). apply list_elem_of_here. }
    unfold sc_store in *. rewrite foldl_app. cbn [foldl].
    destruct (foldl _ _ ks) as [tmp net1]. cbn [fst snd] in *.
    rewrite iter_clear_removes.
    split; [apply wf_set; try done; lia|].
    split; [by rewrite length_set|]. split; [|split; [|split]].
    + intros y Hy. rewrite get_set by lia.
      destruct (decide _) as [|Hd]; [done|]. apply Hzero1.
      apply elem_of_app in Hy as [Hy|Hy]; [done|].
      apply list_elem_of_singleton in Hy as ->.
      destruct Hd. by left.
    + intros x y Hx Hy. rewrite get_set by lia.
      rewrite decide_False.
      * apply Hget1.
        -- intros Hxi Hin. apply (Hx Hxi). apply elem_of_app. by left.
        -- intros Hyi Hin. apply (Hy Hyi). apply elem_of_app. by left.
      * intros [[-> ->]|[-> ->]].
        -- apply Hx; [done|]. apply elem_of_app. right. apply list_elem_of_here.
        -- apply Hy; [done|]. apply elem_of_app. right. apply list_elem_of_here.
    + intros k' Hk'. apply elem_of_app in Hk' as [Hk'|Hk'].
      * rewrite lookup_insert_ne by (intros ->; done). by apply Htmp1.
      * apply list_elem_of_singleton in Hk' as ->.
        rewrite lookup_insert_eq. do 2 f_equal. apply Hget1; [done|].
        by intros ->.
    + intros k' Hk'. rewrite lookup_insert_ne.
      * apply Hnone1. intros Hin. apply Hk', elem_of_app. by left.
      * intros ->. apply Hk', elem_of_app. right. apply list_elem_of_here.
Qed.

(** After the second loop the edges of [j] to the nodes of [ks] have
    become edges of [i]. *)
Lemma sc_move_spec net1 i j ks :
  wf net1 → i < length net1 → j < length net1 → i ≠ j → NoDup ks →
  Forall (λ k, k < length net1 ∧ k ≠ i ∧ k ≠ j) ks →
  wf (sc_move iter_clear net1 i j ks) ∧
  length (sc_move iter_clear net1 i j ks) = length net1 ∧
  (∀ y, y ∈ ks → get (sc_move iter_clear net1 i j ks) i y = get net1 j y) ∧
  (∀ y, y ∈ ks → get (sc_move iter_clear net1 i j ks) j y = 0%Z) ∧
  (∀ x y, (x = i ∨ x = j → y ∉ ks) → (y = i ∨ y = j → x ∉ ks) →
     get (sc_move iter_clear net1 i j ks) x y = get net1 x y).
Proof using Type*.
  intros Hwf Hi Hj Hij. induction ks as [|k ks IH] using rev_ind;
    intros Hnd Hall.
  - unfold sc_move. cbn [foldl]. split; [done|]. split; [done|].
    split; [|split; [|done]]; intros y Hy; by apply elem_of_nil in Hy.
  - apply NoDup_app in Hnd as (Hnd & Hdisj & _).
    apply Forall_app in Hall as [Hall Hk].
    apply Forall_singleton in Hk as (Hk & Hki & Hkj).
    destruct (IH Hnd Hall) as (Hwf1 & Hlen1 & Hmv1 & Hzero1 & Hget1).
    assert (k ∉ ks) as Hkn.
    { intros Hin. apply (Hdisj k Hin). apply list_elem_of_here. }
    unfold sc_move in *. rewrite foldl_app. cbn [foldl].
    set (net := foldl _ net1 ks) in *.
    rewrite decide_True by done. rewrite iter_clear_removes.
    assert (wf (set net i k (get net j k))) as Hwf2.
    { apply wf_set; try done; lia. }
    assert (get net j k = get net1 j k) as Hjk.
    { apply Hget1; [by intros _|]. intros [->| ->]; done. }
    split; [apply wf_set; rewrite ?length_set; try done; lia|].
    split; [by rewrite !length_set|]. split; [|split].
    + intros y Hy. rewrite !get_set by (rewrite ?length_set; lia).
      rewrite decide_False by (intros [[? ?]|[? ?]]; congruence).
      destruct (decide _) as [Hd|Hd].
      * destruct Hd as [[_ ->]|[? _]]; [done|congruence].
      * apply Hmv1. apply elem_of_app in Hy as [Hy|Hy]; [done|].
        apply list_elem_of_singleton in Hy as ->. destruct Hd. by left.
    + intros y Hy. rewrite !get_set by (rewrite ?length_set; lia).
      destruct (decide _) as [Hd|Hd]; [done|].
      rewrite decide_False by (intros [[? ?]|[? ?]]; congruence).
      apply Hzero1. apply elem_of_app in Hy as [Hy|Hy]; [done|].
      apply list_elem_of_singleton in Hy as ->. destruct Hd. by left.
    + intros x y Hx Hy. rewrite !get_set by (rewrite ?length_set; lia).
      assert (k ∈ ks ++ [k]) as Hkin.
      { apply elem_of_app. right. apply list_elem_of_here. }
      rewrite decide_False.
      2:{ intros [[-> ->]|[-> ->]]; [apply Hx|apply Hy]; auto. }
      rewrite decide_False.
      2:{ intros [[-> ->]|[-> ->]]; [apply Hx|apply Hy]; auto. }
      apply Hget1.
      * intros Hxi Hin. apply (Hx Hxi). apply elem_of_app. by left.
      * intros Hyi Hin. apply (Hy Hyi). apply elem_of_app. by left.
Qed.

(** After the third loop the stored edges are edges of [j]. *)
Lemma sc_restore_fold net2 j (tmp : gmap nat Z) ks :
  wf net2 → j < length net2 → NoDup ks →
  Forall (λ k, k < length net2) ks →
  let net3 := foldl (λ net k,
                  if decide (k ≠ j)
                  then set net j k (default 0%Z (tmp !! k)) else net)
                net2 ks in
  wf net3 ∧ length net3 = length net2 ∧
  (∀ y, y ∈ ks → y ≠ j → get net3 j y = default 0%Z (tmp !! y)) ∧
  (∀ x y, (x = j → y ∉ ks) → (y = j → x ∉ ks) →
     get net3 x y = get net2 x y).
Proof using Type*.
  intros Hwf Hj. induction ks as [|k ks IH] using rev_ind; intros Hnd Hall.
  - cbn [foldl]. split; [done|]. split; [done|].
    split; [|done]. intros y Hy. by apply elem_of_nil in Hy.
  - apply NoDup_app in Hnd as (Hnd & Hdisj & _).
    apply Forall_app in Hall as [Hall Hk].
    rewrite Forall_singleton in Hk.
    destruct (IH Hnd Hall) as (Hwf1 & Hlen1 & Hval1 & Hget1).
    assert (k ∉ ks) as Hkn.
    { intros Hin. apply (Hdisj k Hin). apply list_elem_of_here. }
    cbn zeta in *. rewrite foldl_app. cbn [foldl].
    set (net := foldl _ net2 ks) in *.
    assert (k ∈ ks ++ [k]) as Hkin.
    { apply elem_of_app. right. apply list_elem_of_here. }
    destruct (decide (k ≠ j)) as [Hkj|Hkj].
    + split; [apply wf_set; try done; lia|].
      split; [by rewrite length_set|]. split.
      * intros y Hy Hyj. rewrite get_set by lia.
        destruct (decide _) as [Hd|Hd].
        -- destruct Hd as [[_ ->]|[? _]]; [done|congruence].
        -- apply Hval1; [|done]. apply elem_of_app in Hy as [Hy|Hy]; [done|].
           apply list_elem_of_singleton in Hy as ->. destruct Hd. by left.
      * intros x y Hx Hy. rewrite get_set by lia.
        rewrite decide_False.
        2:{ intros [[-> ->]|[-> ->]]; [apply Hx|apply Hy]; auto. }
        apply Hget1.
        -- intros Hxi Hin. apply (Hx Hxi). apply elem_of_app. by left.
        -- intros Hyi Hin. apply (Hy Hyi). apply elem_of_app. by left.
    + apply dec_stable in Hkj as ->.
      split; [done|]. split; [done|]. split.
      * intros y Hy Hyj. apply Hval1; [|done].
        apply elem_of_app in Hy as [Hy|Hy]; [done|].
        by apply list_elem_of_singleton in Hy.
      * intros x y Hx Hy. apply Hget1.
        -- intros Hxi Hin. apply (Hx Hxi). apply elem_of_app. by left.
        -- intros Hyi Hin. apply (Hy Hyi). apply elem_of_app. by left.
Qed.


(** The net after the call, edge by edge. *)
Lemma switchConnections_spec fuel net (g g' : G) netSize net' :
  wf net →
  switchConnections to_float iter_clear fuel net g netSize = Ok (net', g') →
  ∃ i j, sc_draw fuel g netSize = Ok (i, j, g') ∧ i ≠ j ∧
    i < length net ∧ j < length net ∧
    wf net' ∧ length net' = length net ∧ switched to_float net net' i j.
Proof using Type*.
  intros Hwf Hsw. pose proof (wf_nozero' _ Hwf) as Hnz.
  unfold switchConnections in Hsw.
  destruct (sc_draw fuel g netSize) as [[[i j] g1]| | |] eqn:Hd; try done.
  cbn in Hsw. pose proof (sc_draw_spec _ _ _ _ _ _ Hd) as Hij.
  unfold row_at, vec_at in Hsw.
  destruct (net !! i) as [ri|] eqn:Hri; [|done]. cbn in Hsw.
  case_decide as Hri_range; [|done].
  assert (i < length net) as Hi by (by eapply lookup_lt_Some).
  assert (Forall (λ k, k < length net ∧ k ≠ i) (keys ri)) as Hall_i.
  { apply Forall_forall. intros k Hk. split.
    - by eapply (proj1 (Forall_forall _ _) Hri_range).
    - intros ->. apply (keys_get net i ri i Hnz Hri) in Hk.
      by rewrite (wf_noloop _ Hwf) in Hk. }
  destruct (sc_store_spec net i (keys ri) Hwf Hi (NoDup_keys ri) Hall_i)
    as (Hwf1 & Hlen1 & Hz1 & Hg1 & Ht1 & Hn1).
  destruct (sc_store to_float iter_clear net i (keys ri)) as [tmp net1].
  cbn [fst snd] in *. pose proof (wf_nozero' _ Hwf1) as Hnz1.
  destruct (net1 !! j) as [rj|] eqn:Hrj; [|done]. cbn in Hsw.
  case_decide as Hrj_range; [|done]. simplify_eq.
  assert (j < length net1) as Hj1 by (by eapply lookup_lt_Some).
  assert (∀ y, get net1 i y = 0%Z) as Hrow_i.
  { intros y. destruct (decide (y ∈ keys ri)) as [Hy|Hy]; [by apply Hz1|].
    rewrite Hg1.
    - rewrite (keys_get net i ri y Hnz Hri) in Hy.
      by destruct (decide (get net i y = 0%Z)).
    - done.
    - intros ->. intros Hin. apply (keys_get net i ri i Hnz Hri) in Hin.
      by rewrite (wf_noloop _ Hwf) in Hin. }
  assert (Forall (λ k, k < length net1 ∧ k ≠ i ∧ k ≠ j) (keys rj)) as Hall_j.
  { apply Forall_forall. intros k Hk. split; [|split].
    - rewrite Hlen1. by eapply (proj1 (Forall_forall _ _) Hrj_range).
    - intros ->. apply (keys_get net1 j rj i Hnz1 Hrj) in Hk.
      by rewrite (wf_sym _ Hwf1), Hrow_i in Hk.
    - intros ->. apply (keys_get net1 j rj j Hnz1 Hrj) in Hk.
      by rewrite (wf_noloop _ Hwf1) in Hk. }
  assert (i < length net1) as Hi1 by lia.
  destruct (sc_move_spec net1 i j (keys rj) Hwf1 Hi1 Hj1 Hij (NoDup_keys rj)
              Hall_j) as (Hwf2 & Hlen2 & Hmv & Hz2 & Hg2).
  set (net2 := sc_move iter_clear net1 i j (keys rj)) in *.
  assert (∀ k, k ∈ keys tmp ↔ k ∈ keys ri) as Hkeys.
  { intros k. rewrite (elem_of_keys tmp). split.
    - intros [x Hx]. destruct (decide (k ∈ keys ri)); [done|].
      by rewrite Hn1 in Hx.
    - intros Hk. rewrite Ht1 by done. eauto. }
  assert (Forall (λ k, k < length net2) (keys tmp)) as Hall_t.
  { apply Forall_forall. intros k Hk. rewrite Hlen2, Hlen1.
    apply Hkeys in Hk. by eapply (proj1 (Forall_forall _ _) Hri_range). }
  assert (j < length net2) as Hj2 by lia.
  destruct (sc_restore_fold net2 j tmp (keys tmp) Hwf2 Hj2 (NoDup_keys tmp)
              Hall_t) as (Hwf3 & Hlen3 & Hval & Hg3).
  cbn zeta in *. fold (sc_restore net2 j tmp) in *.
  set (net3 := sc_restore net2 j tmp) in *.
  assert (i ∉ keys ri) as Hii.
  { intros Hin. apply (keys_get net i ri i Hnz Hri) in Hin.
    by rewrite (wf_noloop _ Hwf) in Hin. }
  assert (j ∉ keys rj) as Hjj.
  { intros Hin. apply (keys_get net1 j rj j Hnz1 Hrj) in Hin.
    by rewrite (wf_noloop _ Hwf1) in Hin. }
  assert (i ∉ keys rj) as Hirj.
  { intros Hin. apply (keys_get net1 j rj i Hnz1 Hrj) in Hin.
    by rewrite (wf_sym _ Hwf1), Hrow_i in Hin. }
  assert (∀ k, k ∉ keys rj → get net1 j k = 0%Z) as Hrow_j.
  { intros k Hk. rewrite (keys_get net1 j rj k Hnz1 Hrj) in Hk.
    by destruct (decide (get net1 j k = 0%Z)). }
  exists i, j. split; [done|]. split; [done|]. split; [done|].
  split; [lia|]. split; [done|]. split; [lia|].
  unfold switched. split; [|split; [|split]].
  - rewrite Hg3.
    + rewrite Hg2; [apply Hrow_i| |]; intros _; done.
    + by intros ->.
    + intros _. by rewrite Hkeys.
  - intros k Hki Hkj. rewrite Hg3; [|by intros ->|by intros ->].
    destruct (decide (k ∈ keys rj)) as [Hk|Hk].
    + rewrite Hmv by done. apply Hg1; [by intros ->|by intros ->].
    + rewrite Hg2; [|by intros _|by intros [->| ->]].
      rewrite Hrow_i. rewrite <- (Hrow_j k Hk).
      apply Hg1; [by intros ->|by intros ->].
  - intros k Hki Hkj. destruct (decide (k ∈ keys ri)) as [Hk|Hk].
    + rewrite Hval; [|by apply Hkeys|done]. rewrite Ht1 by done. simpl.
      apply (keys_get net i ri k Hnz Hri) in Hk.
      by rewrite decide_False.
    + rewrite Hg3; [|intros _; by rewrite Hkeys|by intros ->].
      rewrite (keys_get net i ri k Hnz Hri) in Hk.
      rewrite decide_True by (by destruct (decide (get net i k = 0%Z))).
      destruct (decide (k ∈ keys rj)) as [Hk'|Hk']; [by apply Hz2|].
      rewrite Hg2; [|by intros _|by intros [->| ->]]. by apply Hrow_j.
  - intros x y Hxi Hxj Hyi Hyj.
    rewrite Hg3; [|by intros ->|by intros ->].
    rewrite Hg2; [|by intros [->| ->]|by intros [->| ->]].
    apply Hg1; by intros ->.
Qed.

(** The draw either runs out of tries or gives two different nodes below
    [netSize]. *)
Lemma sc_draw_cases fuel (g : G) netSize :
  in_range_generator (G:=G) → 0 < netSize →
  sc_draw fuel g netSize = OutOfFuel ∨
  ∃ i j g', sc_draw fuel g netSize = Ok (i, j, g') ∧
    i < netSize ∧ j < netSize ∧ i ≠ j.
Proof.
  intros Hgen Hn. revert g. induction fuel as [|fuel IH]; intros g.
  { by left. }
  simpl. pose proof (Hgen netSize g Hn) as Hi.
  destruct (next netSize g) as [i g1]. simpl in Hi.
  pose proof (Hgen netSize g1 Hn) as Hj.
  destruct (next netSize g1) as [j g2]. simpl in Hj.
  case_decide as Hij; [apply IH|]. right. by exists i, j, g2.
Qed.

(** With one node to draw from the two draws never differ. *)
Lemma sc_draw_one_node fuel (g : G) :
  in_range_generator (G:=G) → sc_draw fuel g 1 = OutOfFuel.
Proof.
  intros Hgen. revert g. induction fuel as [|fuel IH]; intros g; [done|].
  simpl. pose proof (Hgen 1 g) as Hi.
  destruct (next 1 g) as [i g1]. simpl in Hi.
  pose proof (Hgen 1 g1) as Hj.
  destruct (next 1 g1) as [j g2]. simpl in Hj.
  rewrite decide_True by lia. apply IH.
Qed.

(** Two drawn nodes of a simple net are switched without a read outside
    the net. *)
Lemma switchConnections_draw_ok fuel net (g g' : G) netSize i j :
  wf net → i < length net → j < length net →
  sc_draw fuel g netSize = Ok (i, j, g') →
  ∃ net', switchConnections to_float iter_clear fuel net g netSize
          = Ok (net', g').
Proof using Type*.
  intros Hwf Hi Hj Hd. pose proof (wf_nozero' _ Hwf) as Hnz.
  unfold switchConnections. rewrite Hd. cbn.
  unfold row_at, vec_at.
  destruct (lookup_lt_is_Some_2 net i Hi) as [ri Hri]. rewrite Hri. cbn.
  assert (Forall (λ k, k < length net) (keys ri)) as Hri_range.
  { apply Forall_forall. intros k Hk.
    apply (keys_get net i ri k Hnz Hri) in Hk. by apply (wf_range _ Hwf i). }
  rewrite decide_True by done.
  assert (Forall (λ k, k < length net ∧ k ≠ i) (keys ri)) as Hall_i.
  { apply Forall_forall. intros k Hk. split.
    - by eapply (proj1 (Forall_forall _ _) Hri_range).
    - intros ->. apply (keys_get net i ri i Hnz Hri) in Hk.
      by rewrite (wf_noloop _ Hwf) in Hk. }
  destruct (sc_store_spec net i (keys ri) Hwf Hi (NoDup_keys ri) Hall_i)
    as (Hwf1 & Hlen1 & _).
  destruct (sc_store to_float iter_clear net i (keys ri)) as [tmp net1].
  cbn [fst snd] in *. pose proof (wf_nozero' _ Hwf1) as Hnz1.
  assert (j < length net1) as Hj1 by lia.
  destruct (lookup_lt_is_Some_2 net1 j Hj1) as [rj Hrj]. rewrite Hrj. cbn.
  rewrite decide_True; [eauto|].
  apply Forall_forall. intros k Hk.
  apply (keys_get net1 j rj k Hnz1 Hrj) in Hk. rewrite <- Hlen1.
  by apply (wf_range _ Hwf1 j).
Qed.

End ScProofs.

(** *** What an exchange of two nodes preserves *)

Lemma exchange_involutive i j u : exchange i j (exchange i j u) = u.
Proof. unfold exchange. repeat case_decide; congruence. Qed.

Lemma exchange_inj i j u v : exchange i j u = exchange i j v → u = v.
Proof.
  intros Heq. rewrite <- (exchange_involutive i j u), Heq.
  apply exchange_involutive.
Qed.

Lemma exchange_is_i i j u : exchange i j u = i → u = j.
Proof. unfold exchange. repeat case_decide; congruence. Qed.

Lemma exchange_is_j i j u : exchange i j u = j → u = i.
Proof. unfold exchange. repeat case_decide; congruence. Qed.

Lemma size_remove_elem (X : gset nat) p :
  size (X ∖ {[p]}) + (if decide (p ∈ X) then 1 else 0) = size X.
Proof.
  case_decide as Hp.
  - rewrite size_difference by set_solver. rewrite size_singleton.
    assert (size X ≠ 0); [|lia].
    intros Hs. apply size_empty_inv in Hs. set_solver.
  - replace (X ∖ {[p]}) with X; [lia|]. apply set_eq. set_solver.
Qed.

Lemma size_exchange (X Y : gset nat) i j :
  i ≠ j → (∀ y, y ∈ Y ↔ exchange i j y ∈ X) → size Y = size X.
Proof.
  intros Hij HY.
  assert (i ∈ Y ↔ j ∈ X) as Hi.
  { rewrite HY. unfold exchange. by rewrite decide_True. }
  assert (j ∈ Y ↔ i ∈ X) as Hj.
  { rewrite HY. unfold exchange. rewrite decide_False by done.
    by rewrite decide_True. }
  assert (∀ y, y ≠ i → y ≠ j → y ∈ Y ↔ y ∈ X) as Ho.
  { intros y ??. rewrite HY. unfold exchange. by rewrite !decide_False. }
  destruct (decide (i ∈ X)) as [HiX|HiX]; destruct (decide (j ∈ X)) as [HjX|HjX].
  - f_equal. apply set_eq. intros y.
    destruct (decide (y = i)) as [->|]; [tauto|].
    destruct (decide (y = j)) as [->|]; [tauto|]. by apply Ho.
  - rewrite <- (size_replace_elem X i j HiX HjX). f_equal. apply set_eq.
    intros y. rewrite elem_of_union, elem_of_difference, !elem_of_singleton.
    destruct (decide (y = i)) as [->|]; [tauto|].
    destruct (decide (y = j)) as [->|]; [tauto|].
    rewrite (Ho y) by done. tauto.
  - rewrite <- (size_replace_elem X j i HjX HiX). f_equal. apply set_eq.
    intros y. rewrite elem_of_union, elem_of_difference, !elem_of_singleton.
    destruct (decide (y = i)) as [->|]; [tauto|].
    destruct (decide (y = j)) as [->|]; [tauto|].
    rewrite (Ho y) by done. tauto.
  - f_equal. apply set_eq. intros y.
    destruct (decide (y = i)) as [->|]; [tauto|].
    destruct (decide (y = j)) as [->|]; [tauto|]. by apply Ho.
Qed.

Lemma length_filter_ne (l : list (nat * nat)) e :
  NoDup l →
  length (filter (λ x, x ≠ e) l) + (if decide (e ∈ l) then 1 else 0)
  = length l.
Proof.
  induction 1 as [|x l Hx Hnd IH]; [done|].
  rewrite filter_cons. destruct (decide (x ≠ e)) as [Hne|Heq].
  - simpl. revert IH.
    destruct (decide (e ∈ l)); destruct (decide (e ∈ x :: l)) as [Hin|Hin];
      try lia.
    + destruct Hin. by right.
    + apply elem_of_cons in Hin as [->|]; done.
  - apply dec_stable in Heq as ->.
    rewrite decide_True by left. simpl.
    replace (filter (λ x, x ≠ e) l) with l; [lia|].
    symmetry. clear IH Hnd. induction l as [|y l IHl]; [done|].
    rewrite filter_cons. rewrite decide_True.
    + f_equal. apply IHl. intros Hin. apply Hx. by right.
    + intros ->. apply Hx. by left.
Qed.

Section Switched.
Variable to_float : Z → Z.
Hypothesis to_float_nonzero : ∀ w, w ≠ 0%Z → to_float w ≠ 0%Z.
Variables (net net' : Net) (i j : nat).
Hypothesis Hwf : wf net.
Hypothesis Hwf' : wf net'.
Hypothesis Hij : i ≠ j.
Hypothesis Hsw : switched to_float net net' i j.

(** The edges after the call are the edges before it with [i] and [j]
    in each other's place, except the edge between the two. *)
Lemma switched_adjacent x y :
  get net' x y ≠ 0%Z ↔
  ¬ same_edge x y i j ∧
  get net (exchange i j x) (exchange i j y) ≠ 0%Z.
Proof using Type*.
  destruct Hsw as (H0 & Hi & Hj & Ho).
  pose proof (wf_sym _ Hwf) as Hs. pose proof (wf_sym _ Hwf') as Hs'.
  pose proof (wf_noloop _ Hwf) as Hl. pose proof (wf_noloop _ Hwf') as Hl'.
  assert (∀ k, k ≠ i → k ≠ j → get net' j k ≠ 0%Z ↔ get net i k ≠ 0%Z) as Hj'.
  { intros k ??. rewrite Hj by done.
    case_decide as Hz; [tauto|]. split; [done|]. intros _.
    by apply to_float_nonzero. }
  unfold exchange, same_edge.
  destruct (decide (x = i)) as [->|Hxi].
  - destruct (decide (y = i)) as [->|Hyi].
    { rewrite Hl', Hl. tauto. }
    destruct (decide (y = j)) as [->|Hyj].
    { rewrite H0. tauto. }
    rewrite Hi by done. intuition congruence.
  - destruct (decide (x = j)) as [->|Hxj].
    + destruct (decide (y = i)) as [->|Hyi].
      { rewrite Hs', H0. tauto. }
      destruct (decide (y = j)) as [->|Hyj].
      { rewrite Hl', Hl. tauto. }
      rewrite Hj' by done. intuition congruence.
    + destruct (decide (y = i)) as [->|Hyi].
      { rewrite Hs', Hi, Hs by done. intuition congruence. }
      destruct (decide (y = j)) as [->|Hyj].
      { rewrite Hs', Hj', Hs by done. intuition congruence. }
      rewrite Ho by done. intuition congruence.
Qed.

Lemma switched_nbrs_i : nbrs net' i = nbrs net j ∖ {[i]}.
Proof using Type*.
  pose proof (wf_nozero' _ Hwf) as Hz. pose proof (wf_nozero' _ Hwf') as Hz'.
  apply set_eq. intros y.
  rewrite elem_of_difference, elem_of_singleton, !elem_of_nbrs by done.
  rewrite switched_adjacent. unfold exchange, same_edge.
  rewrite decide_True by done.
  pose proof (wf_noloop _ Hwf j).
  repeat case_decide; subst; intuition congruence.
Qed.

Lemma switched_nbrs_j : nbrs net' j = nbrs net i ∖ {[j]}.
Proof using Type*.
  pose proof (wf_nozero' _ Hwf) as Hz. pose proof (wf_nozero' _ Hwf') as Hz'.
  apply set_eq. intros y.
  rewrite elem_of_difference, elem_of_singleton, !elem_of_nbrs by done.
  rewrite switched_adjacent. unfold exchange, same_edge.
  rewrite (decide_False (P := j = i)) by done. rewrite decide_True by done.
  pose proof (wf_noloop _ Hwf i).
  repeat case_decide; subst; intuition congruence.
Qed.

Lemma switched_nbrs_other u y :
  u ≠ i → u ≠ j → y ∈ nbrs net' u ↔ exchange i j y ∈ nbrs net u.
Proof using Type*.
  intros Hui Huj.
  pose proof (wf_nozero' _ Hwf) as Hz. pose proof (wf_nozero' _ Hwf') as Hz'.
  rewrite !elem_of_nbrs by done. rewrite switched_adjacent.
  unfold same_edge. unfold exchange at 1. rewrite !decide_False by done.
  intuition congruence.
Qed.

Lemma switched_degree :
  degree net' i + (if decide (get net i j = 0%Z) then 0 else 1)
    = degree net j ∧
  degree net' j + (if decide (get net i j = 0%Z) then 0 else 1)
    = degree net i ∧
  ∀ u, u ≠ i → u ≠ j → degree net' u = degree net u.
Proof using Type*.
  pose proof (wf_nozero' _ Hwf) as Hz.
  rewrite !degree_nbrs. split; [|split].
  - rewrite switched_nbrs_i. rewrite <- (size_remove_elem (nbrs net j) i).
    f_equal. rewrite (wf_sym _ Hwf i j).
    destruct (decide (get net j i = 0%Z)) as [H0|H0];
      [rewrite decide_False|rewrite decide_True]; try done;
      rewrite elem_of_nbrs by done; tauto.
  - rewrite switched_nbrs_j. rewrite <- (size_remove_elem (nbrs net i) j).
    f_equal.
    destruct (decide (get net i j = 0%Z)) as [H0|H0];
      [rewrite decide_False|rewrite decide_True]; try done;
      rewrite elem_of_nbrs by done; tauto.
  - intros u Hui Huj. rewrite !degree_nbrs.
    apply (size_exchange _ _ i j Hij). intros y.
    by apply switched_nbrs_other.
Qed.

Lemma switched_edges :
  build_edgeList net' ≡ₚ
  (λ e, norm (exchange i j e.1, exchange i j e.2)) <$>
    filter (λ e, e ≠ norm (i, j)) (build_edgeList net).
Proof using Type*.
  pose proof (wf_nozero' _ Hwf) as Hz. pose proof (wf_nozero' _ Hwf') as Hz'.
  pose proof (wf_sym _ Hwf) as Hs. pose proof (wf_noloop _ Hwf) as Hl.
  apply NoDup_Permutation.
  - apply NoDup_build_edgeList.
  - apply NoDup_fmap_2_strong; [|apply NoDup_filter, NoDup_build_edgeList].
    intros [a b] [c d] Hab Hcd Heq. simpl in Heq.
    apply list_elem_of_filter in Hab as [_ Hab], Hcd as [_ Hcd].
    apply elem_of_build_edgeList in Hab as [Hab _], Hcd as [Hcd _]; try done.
    destruct (norm (exchange i j c, exchange i j d)) as [u v] eqn:E.
    symmetry in E, Heq. apply norm_eq in E as [_ E], Heq as [_ Heq].
    destruct E as [[-> ->]|[-> ->]]; destruct Heq as [[Hc Hd]|[Hc Hd]];
      apply exchange_inj in Hc, Hd; subst; first [done|lia].
  - intros [u v]. rewrite elem_of_build_edgeList by done.
    rewrite list_elem_of_fmap. rewrite switched_adjacent. split.
    + intros (Huv & Hne & Hg).
      exists (norm (exchange i j u, exchange i j v)).
      destruct (norm (exchange i j u, exchange i j v)) as [a b] eqn:E.
      symmetry in E. pose proof E as E'. apply norm_eq in E' as [Hle Hab].
      simpl. split.
      * apply norm_eq. split; [lia|].
        destruct Hab as [[-> ->]|[-> ->]]; rewrite !exchange_involutive;
          [by left|by right].
      * apply list_elem_of_filter. split.
        -- intros Heq. apply norm_eq in Heq as [_ Heq]. apply Hne.
           unfold same_edge in *.
           destruct Hab as [[-> ->]|[-> ->]];
             destruct Heq as [[Ha Hb]|[Ha Hb]];
             first [apply exchange_is_i in Ha; apply exchange_is_j in Hb
                   |apply exchange_is_j in Ha; apply exchange_is_i in Hb];
             auto.
        -- apply elem_of_build_edgeList; [done|].
           assert (a ≠ b).
           { intros ->. destruct Hab as [[Ha Hb]|[Ha Hb]];
               rewrite <- Ha, <- Hb, Hl in Hg; done. }
           split; [lia|].
           destruct Hab as [[-> ->]|[-> ->]]; [done|by rewrite Hs].
    + intros ([a b] & Heq & Hin). simpl in Heq.
      apply list_elem_of_filter in Hin as [Hne Hin].
      apply elem_of_build_edgeList in Hin as [Hab Hg]; [|done].
      apply norm_eq in Heq as [Hle Heq].
      assert (exchange i j u = a ∧ exchange i j v = b ∨
              exchange i j u = b ∧ exchange i j v = a) as Hex.
      { destruct Heq as [[-> ->]|[-> ->]]; rewrite !exchange_involutive;
          auto. }
      split; [|split].
      * assert (u ≠ v); [|lia]. intros ->.
        destruct Hex as [[Ha Hb]|[Ha Hb]]; rewrite Ha in Hb; lia.
      * intros Huv. apply Hne. apply norm_eq. split; [lia|].
        unfold same_edge in *.
        assert (exchange i j i = j) as Ei.
        { unfold exchange. by rewrite decide_True. }
        assert (exchange i j j = i) as Ej.
        { unfold exchange. rewrite decide_False by done.
          by rewrite decide_True. }
        destruct Huv as [[-> ->]|[-> ->]];
          rewrite ?Ei, ?Ej in Hex;
          destruct Hex as [[<- <-]|[<- <-]]; auto.
      * destruct Hex as [[-> ->]|[-> ->]]; [done|by rewrite Hs].
Qed.

Lemma switched_numberOfEdges :
  numberOfEdges net' + (if decide (get net i j = 0%Z) then 0 else 1)
  = numberOfEdges net.
Proof using Type*.
  pose proof (wf_nozero' _ Hwf) as Hz.
  unfold numberOfEdges. rewrite switched_edges, length_fmap.
  rewrite <- (length_filter_ne (build_edgeList net) (norm (i, j)))
    by apply NoDup_build_edgeList.
  f_equal.
  assert (norm (i, j) ∈ build_edgeList net ↔ get net i j ≠ 0%Z) as Hin.
  { destruct (norm (i, j)) as [a b] eqn:E. symmetry in E.
    apply norm_eq in E as [Hle E].
    rewrite elem_of_build_edgeList by done.
    destruct E as [[-> ->]|[-> ->]].
    - split; [tauto|]. intros ?. split; [lia|done].
    - rewrite (wf_sym _ Hwf j i). split; [tauto|]. intros ?.
      split; [lia|done]. }
  destruct (decide (get net i j = 0%Z)) as [H0|H0];
    [rewrite decide_False|rewrite decide_True]; try done; tauto.
Qed.

End Switched.

(** ** Properties of confModelSimple *)

Lemma wf_empty n : wf (replicate n (∅ : gmap nat Z)).
Proof.
  assert (∀ u v, get (replicate n (∅ : gmap nat Z)) u v = 0%Z) as Hget.
  { intros u v. unfold get.
    destruct (replicate n ∅ !! u) as [r|] eqn:Hr; [|done].
    apply lookup_replicate in Hr as [-> _]. by rewrite lookup_empty. }
  split.
  - intros u r v Hr. apply lookup_replicate in Hr as [-> _].
    by rewrite lookup_empty.
  - intros u v. by rewrite Hget.
  - intros u v. by rewrite !Hget.
  - intros u. by rewrite Hget.
Qed.

Ltac wf_mk_net :=
  unfold simple, mk_net; cbn [foldl fst snd];
  repeat (apply wf_set;
          [ | rewrite ?length_set, ?length_replicate; lia ..]);
  apply wf_empty.

Lemma simple_net_2edges : simple net_2edges.
Proof. unfold net_2edges. wf_mk_net. Qed.

Lemma simple_net_ring6 : simple net_ring6.
Proof. unfold net_ring6. wf_mk_net. Qed.

Section CmTheorems.
Context {G : Type} `{!Generator G}.

(** C3: in every run of confModelSimple on a simple graph, every net that
    an accepted swap goes through, assignment by assignment, is simple
    (symmetric weights, one weight per pair of nodes, no self-link), and so
    is the net after the run; the number of edges never changes from swap
    to swap. *)
Theorem confModelSimple_simple (theNet : Net) (generator : G) (repeats : Z)
    log st :
  simple theNet →
  confModelSimple_run theNet generator repeats = Ok (log, st) →
  (∀ tag states, (tag, states) ∈ log → Forall simple states) ∧
  simple (cm_net st) ∧
  numberOfEdges (cm_net st) = numberOfEdges theNet.
Proof.
  intros Hs Hrun. unfold confModelSimple_run in Hrun.
  destruct (cm_loop_preserves _ _ _ _ (cm_init_inv theNet generator Hs) Hrun)
    as ([Hs' _] & Hlog & _ & _ & Hnum & _).
  done.
Qed.

(** C4: for every run of confModelSimple on a simple graph, with any
    [repeats], each node has the same degree after the run as before. *)
Theorem confModelSimple_degree (theNet : Net) (generator : G) (repeats : Z)
    net' g' successfullRounds :
  simple theNet →
  confModelSimple theNet generator repeats = Ok (net', g', successfullRounds) →
  ∀ u, degree net' u = degree theNet u.
Proof.
  intros Hs Hrun. unfold confModelSimple in Hrun.
  destruct (confModelSimple_run theNet generator repeats)
    as [[log st]| | |] eqn:Hl; try done.
  cbn in Hrun. simplify_eq. unfold confModelSimple_run in Hl.
  by destruct (cm_loop_preserves _ _ _ _ (cm_init_inv theNet generator Hs) Hl)
    as (_ & _ & _ & Hdeg & _).
Qed.

(** C5: after any number of rounds of confModelSimple on a simple graph,
    hence after every accepted swap, the cached edge list holds no edge
    twice and, read as a set of unordered pairs, is the edge set of the
    net. *)
Theorem confModelSimple_edgeList_consistent (theNet : Net) (generator : G)
    (rounds : nat) log st :
  simple theNet →
  cm_loop rounds (CmState theNet (build_edgeList theNet) 0 generator) =
    Ok (log, st) →
  distinct_edges (cm_edgeList st) ∧
  ∀ u v, unordered_mem u v (cm_edgeList st) ↔ get (cm_net st) u v ≠ 0%Z.
Proof.
  intros Hs Hrun.
  by destruct (cm_loop_preserves _ _ _ _ (cm_init_inv theNet generator Hs) Hrun)
    as ([_ Hcons] & _).
Qed.

End CmTheorems.

Lemma confModelSimple_simple_witness :
  simple net_2edges ∧
  ∃ log st,
    confModelSimple_run net_2edges [0; 1; 0; 0; 1; 0; 1; 1] 2 = Ok (log, st) ∧
    (∀ tag states, (tag, states) ∈ log → Forall simple states) ∧
    simple (cm_net st) ∧
    numberOfEdges (cm_net st) = numberOfEdges net_2edges.
Proof.
  split; [exact simple_net_2edges|].
  eexists _, _. split; [vm_compute; reflexivity|].
  eapply (confModelSimple_simple net_2edges [0; 1; 0; 0; 1; 0; 1; 1] 2).
  - exact simple_net_2edges.
  - vm_compute. reflexivity.
Defined.

Lemma confModelSimple_degree_witness :
  simple net_2edges ∧
  ∃ net' g' k,
    confModelSimple net_2edges [0; 1; 1; 0] 1 = Ok (net', g', k) ∧
    ∀ u, degree net' u = degree net_2edges u.
Proof.
  split; [exact simple_net_2edges|].
  eexists _, _, _. split; [vm_compute; reflexivity|].
  eapply (confModelSimple_degree net_2edges [0; 1; 1; 0] 1).
  - exact simple_net_2edges.
  - vm_compute. reflexivity.
Defined.

Lemma confModelSimple_edgeList_consistent_witness :
  simple net_2edges ∧
  ∃ log st,
    cm_loop 2 (CmState net_2edges (build_edgeList net_2edges) 0
                 [0; 1; 0; 0; 1; 0; 1; 1]) = Ok (log, st) ∧
    distinct_edges (cm_edgeList st) ∧
    ∀ u v, unordered_mem u v (cm_edgeList st) ↔ get (cm_net st) u v ≠ 0%Z.
Proof.
  split; [exact simple_net_2edges|].
  eexists _, _. split; [vm_compute; reflexivity|].
  eapply (confModelSimple_edgeList_consistent net_2edges
            [0; 1; 0; 0; 1; 0; 1; 1] 2).
  - exact simple_net_2edges.
  - vm_compute. reflexivity.
Defined.

(** C8, as stated, fails: with [repeats = 1] and a generator whose first two
    draws are both 0, the single round of confModelSimple ends on the
    coinciding indices.  Nothing is drawn again: the draws 0, 1, 1, 0 that a
    retry would have used for a swap are still in the generator, the net is
    unchanged and no swap is counted. *)
Lemma confModelSimple_coinciding_draw_counterexample :
  confModelSimple_run net_2edges [0; 0; 0; 1; 1; 0] 1 =
    Ok ([(Coincided, [])],
        CmState net_2edges (build_edgeList net_2edges) 0 [0; 1; 1; 0]) ∧
  ¬ (∀ log st,
       confModelSimple_run net_2edges [0; 0; 0; 1; 1; 0] 1 = Ok (log, st) →
       ∀ tag states, (tag, states) ∈ log → tag ≠ Coincided).
Proof.
  assert (confModelSimple_run net_2edges [0; 0; 0; 1; 1; 0] 1 =
    Ok ([(Coincided, [])],
        CmState net_2edges (build_edgeList net_2edges) 0 [0; 1; 1; 0])) as Hrun
    by (vm_compute; reflexivity).
  split; [exact Hrun|].
  intros Hclaim.
  apply (Hclaim _ _ Hrun Coincided []); [apply list_elem_of_here|done].
Qed.

Section CmTheorems2.
Context {G : Type} `{!Generator G}.

(** C8, amended: a round of confModelSimple draws the two indices once.
    When they coincide the round is over: the net, the edge list and the
    count are unchanged, and the round still counts as one of the [repeats]
    rounds, since [n] rounds leave a record of [n] entries.  A round that
    goes on to look at the edges has drawn two different indices. *)
Theorem confModelSimple_coinciding_draw (st : cm_state (G:=G)) :
  let d1 := next (length (cm_edgeList st)) (cm_generator st) in
  let d2 := next (length (cm_edgeList st)) d1.2 in
  (d1.1 = d2.1 →
   cm_round st =
     Ok (Coincided, [],
         CmState (cm_net st) (cm_edgeList st) (cm_successfullRounds st) d2.2)) ∧
  (∀ tag states st', cm_round st = Ok (tag, states, st') →
     tag ≠ Coincided → d1.1 ≠ d2.1) ∧
  (∀ n log st', cm_loop n st = Ok (log, st') → length log = n).
Proof.
  intros d1 d2. subst d1 d2. split; [|split].
  - intros Heq. unfold cm_round.
    destruct (next (length (cm_edgeList st)) (cm_generator st)) as [i1 g1].
    simpl in *.
    destruct (next (length (cm_edgeList st)) g1) as [i2 g2]. simpl in *.
    case_decide; [congruence|done].
  - intros tag states st' Hr Htag. unfold cm_round in Hr.
    destruct (next (length (cm_edgeList st)) (cm_generator st)) as [i1 g1].
    simpl in *.
    destruct (next (length (cm_edgeList st)) g1) as [i2 g2]. simpl in *.
    case_decide; [done|]. by simplify_eq.
  - intros n. revert st. induction n as [|n IH]; intros st log st' Hl.
    + simpl in Hl. by simplify_eq.
    + simpl in Hl.
      destruct (cm_round st) as [[[tag states] st1]| | |]; try done.
      cbn in Hl.
      destruct (cm_loop n st1) as [[log1 st2]| | |] eqn:Hl1; try done.
      cbn in Hl. simplify_eq. simpl. f_equal. by eapply IH.
Qed.

End CmTheorems2.

(** ** Properties of switchLinkPairEnds *)

Section SlTheorems.
Context {G : Type} `{!Generator G} {D : Type} `{!Dijkstrator D}.

(** C2: for edges [i-m] and [j-n] drawn by switchLinkPairEnds in a simple
    graph, reversing the switch gives back the very net that was there
    before the switch; so a try that reports a risk of disconnection leaves
    the net exactly as it found it, every edge and every weight. *)
Theorem switchLinkPairEnds_reverse_restores (theNet : Net) (g g' : G)
    (fuel netSize : nat) (limit : Z) (i j m n : nat) :
  simple theNet →
  sl_draw fuel theNet g netSize = Ok (i, j, m, n, g') →
  sl_reverse (sl_switch theNet i j m n) i j m n = theNet ∧
  ∀ net', sl_try theNet i j m n limit = (false, net') →
    net' = theNet ∧ ∀ u v, get net' u v = get theNet u v.
Proof.
  intros Hwf Hd. apply sl_draw_spec in Hd; [|done].
  destruct (swappable_facts _ _ _ _ _ Hwf Hd) as (? & ? & ? & ? & ? & ?).
  pose proof Hd as (? & ? & ? & ? & Him & Hjn & Hin & Hmj).
  split.
  - apply sl_reverse_switch; try done. by rewrite (wf_sym _ Hwf).
  - intros net' Ht. apply sl_try_spec in Ht as [[_ ->]|[? _]]; done.
Qed.

(** C6: every completed call of switchLinkPairEnds on a simple graph has
    made exactly one accepted swap, of some edges [i-m] and [j-n]: these two
    edges existed and are removed; the edges [i-n] and [j-m] did not exist
    and are added, with the weights of the removed ones; the four are
    different edges, every other pair of nodes keeps its weight, and the
    number of edges is the same. *)
Theorem switchLinkPairEnds_swap_frame (theNet : Net) (g g' : G)
    (fuel netSize : nat) (limit tries : Z) net' :
  simple theNet →
  switchLinkPairEnds fuel theNet g netSize limit = Ok (net', g', tries) →
  ∃ i j m n,
    (get theNet i m ≠ 0%Z ∧ get theNet j n ≠ 0%Z ∧
     get theNet i n = 0%Z ∧ get theNet j m = 0%Z) ∧
    (get net' i m = 0%Z ∧ get net' j n = 0%Z ∧
     get net' i n = get theNet i m ∧ get net' j m = get theNet j n) ∧
    (¬ same_edge i m j n ∧ ¬ same_edge i n j m ∧
     ¬ same_edge i m i n ∧ ¬ same_edge i m j m ∧
     ¬ same_edge j n i n ∧ ¬ same_edge j n j m) ∧
    (∀ x y, ¬ same_edge x y i m → ¬ same_edge x y j n →
            ¬ same_edge x y i n → ¬ same_edge x y j m →
            get net' x y = get theNet x y) ∧
    numberOfEdges net' = numberOfEdges theNet.
Proof.
  intros Hwf Hs. unfold switchLinkPairEnds in Hs. case_decide; [|done].
  apply sl_loop_one_switch in Hs as (i & j & m & n & Hsw & ->); [|done].
  exists i, j, m, n. by apply sl_switch_frame.
Qed.

(** C9: the assertion at the entry of switchLinkPairEnds fails exactly when
    [limit] is outside [1 .. netSize]. *)
Theorem switchLinkPairEnds_assert (fuel : nat) (theNet : Net) (g : G)
    (netSize : nat) (limit : Z) :
  switchLinkPairEnds fuel theNet g netSize limit = AssertFailed ↔
  ¬ (1 ≤ limit ∧ limit ≤ Z.of_nat netSize)%Z.
Proof.
  unfold switchLinkPairEnds. case_decide as Hl; split.
  - intros Hf. by apply sl_loop_no_assert in Hf.
  - intros Hn. exfalso. apply Hn. lia.
  - intros _ ?. apply Hl. lia.
  - done.
Qed.

(** C10: every accepted swap hands the weights of the two removed edges to
    the two added edges.  In a run of confModelSimple every round that
    swapped started from a net with the edges [a-b] and [c-d] and without
    [a-d] and [b-c], and left [a-d] and [b-c] with the two old weights, in
    one order or the other, [a-b] and [c-d] without weight and every other
    pair of nodes as it was; a round that did not swap wrote no edge.  A
    completed call of switchLinkPairEnds has made one such swap, [i-n]
    taking the weight of [i-m] and [j-m] that of [j-n].  So the weights of
    the edges, counted with multiplicity, and their sum are the same after
    each round, after each run of confModelSimple and after each call of
    switchLinkPairEnds. *)
Theorem swap_keeps_weights (theNet : Net) :
  simple theNet →
  (∀ (g : G) repeats log st,
     confModelSimple_run theNet g repeats = Ok (log, st) →
     ∀ k tag states, log !! k = Some (tag, states) →
     ∃ before after,
       cm_loop k (CmState theNet (build_edgeList theNet) 0 g)
         = Ok (take k log, before) ∧
       cm_round before = Ok (tag, states, after) ∧
       (tag ≠ Swapped → cm_net after = cm_net before) ∧
       (tag = Swapped →
        ∃ a b c d, swappable (cm_net before) a b c d ∧
          ((get (cm_net after) a d = get (cm_net before) a b ∧
            get (cm_net after) b c = get (cm_net before) c d) ∨
           (get (cm_net after) a d = get (cm_net before) c d ∧
            get (cm_net after) b c = get (cm_net before) a b)) ∧
          get (cm_net after) a b = 0%Z ∧ get (cm_net after) c d = 0%Z ∧
          (∀ x y, ¬ same_edge x y a b → ¬ same_edge x y c d →
                  ¬ same_edge x y a d → ¬ same_edge x y b c →
                  get (cm_net after) x y = get (cm_net before) x y)) ∧
       edge_weights (cm_net after) = edge_weights (cm_net before) ∧
       total_weight (cm_net after) = total_weight (cm_net before)) ∧
  (∀ (g : G) repeats net' g' successfullRounds,
     confModelSimple theNet g repeats = Ok (net', g', successfullRounds) →
     edge_weights net' = edge_weights theNet ∧
     total_weight net' = total_weight theNet) ∧
  (∀ (g : G) fuel netSize limit net' g' tries,
     switchLinkPairEnds fuel theNet g netSize limit = Ok (net', g', tries) →
     (∃ i j m n, swappable theNet i m j n ∧
        get net' i n = get theNet i m ∧ get net' j m = get theNet j n ∧
        get net' i m = 0%Z ∧ get net' j n = 0%Z ∧
        (∀ x y, ¬ same_edge x y i m → ¬ same_edge x y j n →
                ¬ same_edge x y i n → ¬ same_edge x y j m →
                get net' x y = get theNet x y)) ∧
     edge_weights net' = edge_weights theNet ∧
     total_weight net' = total_weight theNet).
Proof.
  intros Hwf. split; [|split].
  - intros g repeats log st Hrun k tag states Hk.
    unfold confModelSimple_run in Hrun.
    destruct (cm_loop_round _ _ _ _ _ _ _ Hrun Hk)
      as (before & after & Hb & Ha).
    destruct (cm_loop_preserves _ _ _ _ (cm_init_inv theNet g Hwf) Hb)
      as (Hinv & _).
    destruct (cm_round_hand_over _ _ _ _ Hinv Ha) as [Hkeep Hswap].
    destruct (cm_round_preserves _ _ _ _ Hinv Ha)
      as (_ & _ & _ & _ & _ & Hew & Htw).
    exists before, after. done.
  - intros g repeats net' g' k Hrun. unfold confModelSimple in Hrun.
    destruct (confModelSimple_run theNet g repeats)
      as [[log st]| | |] eqn:Hl; try done.
    cbn in Hrun. simplify_eq. unfold confModelSimple_run in Hl.
    by destruct (cm_loop_preserves _ _ _ _ (cm_init_inv theNet g Hwf) Hl)
      as (_ & _ & _ & _ & _ & Hew & Htw).
  - intros g fuel netSize limit net' g' tries Hs.
    destruct (switchLinkPairEnds_preserves _ _ _ _ _ _ _ _ Hwf Hs)
      as (_ & _ & _ & _ & Hew & Htw).
    split; [|done].
    unfold switchLinkPairEnds in Hs. case_decide; [|done].
    apply sl_loop_one_switch in Hs as (i & j & m & n & Hsw & ->); [|done].
    destruct (sl_switch_frame _ _ _ _ _ Hwf Hsw)
      as (_ & (Him & Hjn & Hin & Hjm) & _ & Hframe & _).
    exists i, j, m, n. done.
Qed.

End SlTheorems.

(** ** Properties of randomize *)

Lemma follows_limit_pos limit found log limit' found' :
  follows limit found log limit' found' → Forall event_ok log →
  (1 ≤ limit)%Z → (1 ≤ limit')%Z.
Proof.
  revert limit found. induction log as [|ev log IH]; intros limit found; simpl.
  - intros [-> _] _ ?. done.
  - intros (_ & _ & Hf) Hok _. apply Forall_cons_1 in Hok as [Hev Hok].
    eapply IH; [exact Hf|done|]. by destruct Hev as (_ & ? & _).
Qed.

Section RzTheorems.
Context {G : Type} `{!Generator G} {D : Type} `{!Dijkstrator D}.

(** C1: for every completed call of randomize on a simple connected net,
    the final net is connected and every node has the degree that it had
    in the input. *)
Theorem randomize_connected_degree (fuel : nat) (net : Net) (generator : G)
    (rounds : nat) (limit : Z) (st : rz_state (G:=G)) :
  simple net → connected net →
  randomize fuel net generator rounds limit = Ok st →
  connected (rz_net st) ∧ ∀ u, degree (rz_net st) u = degree net u.
Proof.
  intros Hwf Hconn Hr. unfold randomize in Hr.
  destruct (rz_rounds_net fuel rounds 0 (length net) (numberOfEdges net)
              (RzState net generator limit false []) st Hwf Hr)
    as (Hwf' & Hlen & Hdeg & Hc).
  simpl in *. split; [|done].
  destruct rounds as [|k].
  - simpl in Hr. by simplify_eq.
  - apply ConnectivityCheck_sound; [done|]. apply Hc. lia.
Qed.

(** C7: in every completed call of randomize on a net with at least one
    edge, started with [limit >= 1], each check adapts [limit] as
    [event_ok] says: a failed check adds exactly 5; a successful check
    takes away exactly 1 when [limit > 1] and, if a disconnection was found
    before in the run, the real number drawn is below 0.1, and leaves
    [limit] alone otherwise.  [limit] changes at the checks only and is
    never below 1. *)
Theorem randomize_limit_adaptation (fuel : nat) (net : Net) (generator : G)
    (rounds : nat) (limit : Z) (st : rz_state (G:=G)) :
  0 < numberOfEdges net →
  (Z.of_nat (length net) + 5 < size_max)%Z →
  (1 ≤ limit)%Z →
  randomize fuel net generator rounds limit = Ok st →
  Forall event_ok (rz_log st) ∧
  follows limit false (rz_log st) (rz_limit st) (rz_disconnectionFound st) ∧
  (1 ≤ rz_limit st)%Z.
Proof.
  intros Hnum Hsize Hlim Hr. unfold randomize in Hr.
  apply rz_rounds_log in Hr as (log & Hlog & Hok & Hfol); try done.
  simpl in *. subst log. split; [done|]. split; [done|].
  by eapply follows_limit_pos.
Qed.

End RzTheorems.

(** ** The properties at work on example networks *)

Lemma wf_mk_net_gen n es :
  Forall (λ e : nat * nat * Z, e.1.1 < n ∧ e.1.2 < n ∧ e.1.1 ≠ e.1.2) es →
  wf (mk_net n es).
Proof.
  intros Hes. unfold mk_net.
  assert (∀ net0 : Net, wf net0 → length net0 = n →
            wf (foldl (λ net e, set net e.1.1 e.1.2 e.2) net0 es)) as Hgen.
  { induction Hes as [|e es (? & ? & ?) _ IH]; intros net0 Hwf Hlen; [done|].
    simpl. apply IH; [|by rewrite length_set].
    apply wf_set; try done; lia. }
  apply Hgen; [apply wf_empty|apply length_replicate].
Qed.

Lemma simple_net_ring16 : simple (net_ring 16).
Proof.
  apply wf_mk_net_gen. unfold net_ring.
  eapply (bool_decide_unpack _). vm_compute. exact I.
Qed.

Lemma connected_net_ring16 : connected (net_ring 16).
Proof.
  apply ConnectivityCheck_sound; [exact simple_net_ring16|].
  vm_compute. reflexivity.
Qed.

Lemma randomize_connected_degree_witness :
  simple (net_ring 16) ∧ connected (net_ring 16) ∧
  ∃ st, randomize (D:=bfs) 100 (net_ring 16) (lcg_tape 500 1) 2 1 = Ok st ∧
    connected (rz_net st) ∧
    ∀ u, degree (rz_net st) u = degree (net_ring 16) u.
Proof.
  split; [exact simple_net_ring16|]. split; [exact connected_net_ring16|].
  assert (∃ st, randomize (D:=bfs) 100 (net_ring 16) (lcg_tape 500 1) 2 1
                = Ok st) as [st Hst].
  { vm_compute. eexists. reflexivity. }
  exists st. split; [exact Hst|].
  apply (randomize_connected_degree (D:=bfs) 100 (net_ring 16)
           (lcg_tape 500 1) 2 1 st).
  - exact simple_net_ring16.
  - exact connected_net_ring16.
  - exact Hst.
Defined.

Lemma randomize_limit_adaptation_witness :
  ∃ st, randomize (D:=bfs) 100 (net_ring 16) (lcg_tape 500 1) 2 1 = Ok st ∧
    length (rz_log st) = 3 ∧
    Forall event_ok (rz_log st) ∧
    follows 1 false (rz_log st) (rz_limit st) (rz_disconnectionFound st) ∧
    (1 ≤ rz_limit st)%Z.
Proof.
  assert (∃ st, randomize (D:=bfs) 100 (net_ring 16) (lcg_tape 500 1) 2 1
                = Ok st ∧ length (rz_log st) = 3) as (st & Hst & Hlen).
  { vm_compute. eexists. split; reflexivity. }
  exists st. split; [exact Hst|]. split; [exact Hlen|].
  apply (randomize_limit_adaptation (D:=bfs) 100 (net_ring 16)
           (lcg_tape 500 1) 2 1 st).
  - vm_compute. lia.
  - vm_compute. reflexivity.
  - lia.
  - exact Hst.
Defined.

Lemma switchLinkPairEnds_reverse_restores_witness :
  simple net_ring6 ∧
  sl_draw 5 net_ring6 [0; 3; 0; 1] 6 = Ok (0, 3, 5, 2, []) ∧
  sl_try (D:=bfs) net_ring6 0 3 5 2 3 = (false, net_ring6) ∧
  sl_reverse (sl_switch net_ring6 0 3 5 2) 0 3 5 2 = net_ring6 ∧
  ∀ net', sl_try (D:=bfs) net_ring6 0 3 5 2 3 = (false, net') →
    net' = net_ring6 ∧ ∀ u v, get net' u v = get net_ring6 u v.
Proof.
  split; [exact simple_net_ring6|].
  split; [vm_compute; reflexivity|].
  split; [vm_compute; reflexivity|].
  apply (switchLinkPairEnds_reverse_restores (D:=bfs) net_ring6
           [0; 3; 0; 1] [] 5 6 3 0 3 5 2).
  - exact simple_net_ring6.
  - vm_compute. reflexivity.
Defined.

Lemma switchLinkPairEnds_swap_frame_witness :
  simple net_ring6 ∧
  switchLinkPairEnds (D:=bfs) 5 net_ring6 [0; 3; 0; 1] 6 1 =
    Ok (sl_switch net_ring6 0 3 5 2, [], 1%Z) ∧
  ∃ i j m n,
    (get net_ring6 i m ≠ 0%Z ∧ get net_ring6 j n ≠ 0%Z ∧
     get net_ring6 i n = 0%Z ∧ get net_ring6 j m = 0%Z) ∧
    (get (sl_switch net_ring6 0 3 5 2) i m = 0%Z ∧
     get (sl_switch net_ring6 0 3 5 2) j n = 0%Z ∧
     get (sl_switch net_ring6 0 3 5 2) i n = get net_ring6 i m ∧
     get (sl_switch net_ring6 0 3 5 2) j m = get net_ring6 j n) ∧
    numberOfEdges (sl_switch net_ring6 0 3 5 2) = numberOfEdges net_ring6.
Proof.
  split; [exact simple_net_ring6|].
  split; [vm_compute; reflexivity|].
  destruct (switchLinkPairEnds_swap_frame (D:=bfs) net_ring6
              [0; 3; 0; 1] [] 5 6 1 1 (sl_switch net_ring6 0 3 5 2)
              simple_net_ring6)
    as (i & j & m & n & Hbefore & Hafter & _ & _ & Hnum).
  - vm_compute. reflexivity.
  - exists i, j, m, n. split; [exact Hbefore|]. split; [exact Hafter|exact Hnum].
Defined.

Lemma swap_keeps_weights_witness :
  simple net_ring6 ∧
  (∃ log st states,
     confModelSimple_run net_ring6 [0; 0; 0; 2; 1; 0] 2 = Ok (log, st) ∧
     log !! 1 = Some (Swapped, states) ∧
     (get (cm_net st) 0 2 = 6%Z ∧ get (cm_net st) 5 1 = 2%Z ∧
      get (cm_net st) 0 5 = 0%Z ∧ get (cm_net st) 1 2 = 0%Z) ∧
     ∃ before after,
       cm_round before = Ok (Swapped, states, after) ∧
       (∃ a b c d, swappable (cm_net before) a b c d ∧
          ((get (cm_net after) a d = get (cm_net before) a b ∧
            get (cm_net after) b c = get (cm_net before) c d) ∨
           (get (cm_net after) a d = get (cm_net before) c d ∧
            get (cm_net after) b c = get (cm_net before) a b)) ∧
          get (cm_net after) a b = 0%Z ∧ get (cm_net after) c d = 0%Z) ∧
       edge_weights (cm_net after) = edge_weights (cm_net before)) ∧
  (∃ net' g' tries,
     switchLinkPairEnds (D:=bfs) 5 net_ring6 [0; 3; 0; 1] 6 1 =
       Ok (net', g', tries) ∧
     (get net' 0 2 = 6%Z ∧ get net' 3 5 = 3%Z ∧
      get net' 0 5 = 0%Z ∧ get net' 3 2 = 0%Z) ∧
     (∃ i j m n, swappable net_ring6 i m j n ∧
        get net' i n = get net_ring6 i m ∧
        get net' j m = get net_ring6 j n ∧
        get net' i m = 0%Z ∧ get net' j n = 0%Z) ∧
     edge_weights net' = edge_weights net_ring6).
Proof.
  destruct (swap_keeps_weights (D:=bfs) (G:=list nat) net_ring6
              simple_net_ring6) as (Hround & _ & Hsl).
  split; [exact simple_net_ring6|]. split.
  - destruct (confModelSimple_run net_ring6 [0; 0; 0; 2; 1; 0] 2)
      as [[log st]| | |] eqn:Hrun;
      [|vm_compute in Hrun; discriminate Hrun ..].
    pose proof Hrun as Hc. vm_compute in Hc. injection Hc as Hlog Hst.
    assert (∃ states, log !! 1 = Some (Swapped, states)) as [states Hk].
    { rewrite <- Hlog. vm_compute. eauto. }
    destruct (Hround _ _ _ _ Hrun 1 Swapped states Hk)
      as (before & after & _ & Ha & _ & Hswap & Hew & _).
    exists log, st, states. split; [reflexivity|]. split; [exact Hk|].
    split; [rewrite <- Hst; vm_compute; auto|].
    exists before, after. split; [exact Ha|]. split; [|exact Hew].
    destruct (Hswap eq_refl) as (a & b & c & d & Hsw & Hw & Hab & Hcd & _).
    exists a, b, c, d. auto.
  - destruct (switchLinkPairEnds (D:=bfs) 5 net_ring6 [0; 3; 0; 1] 6 1)
      as [[[net' g'] tries]| | |] eqn:Hs;
      [|vm_compute in Hs; discriminate Hs ..].
    pose proof Hs as Hc. vm_compute in Hc. injection Hc as Hnet _ _.
    destruct (Hsl _ _ _ _ _ _ _ Hs)
      as ((i & j & m & n & Hsw & Hin & Hjm & Him & Hjn & _) & Hew & _).
    exists net', g', tries. split; [reflexivity|].
    split; [rewrite <- Hnet; vm_compute; auto|].
    split; [|exact Hew]. exists i, j, m, n. auto.
Defined.

Lemma confModelSimple_coinciding_draw_witness :
  cm_round (CmState net_2edges (build_edgeList net_2edges) 0 [0; 0; 0; 1]) =
    Ok (Coincided, [],
        CmState net_2edges (build_edgeList net_2edges) 0 [0; 1]) ∧
  ∀ log st',
    cm_loop 3 (CmState net_2edges (build_edgeList net_2edges) 0 [0; 0; 0; 1])
      = Ok (log, st') → length log = 3.
Proof.
  destruct (confModelSimple_coinciding_draw
              (CmState net_2edges (build_edgeList net_2edges) 0 [0; 0; 0; 1]))
    as (Hsame & _ & Hlen).
  split.
  - apply Hsame. vm_compute. reflexivity.
  - apply Hlen.
Defined.

Lemma switchLinkPairEnds_assert_witness :
  switchLinkPairEnds (D:=bfs) 5 net_ring6 [0; 3; 0; 1] 6 0 = AssertFailed ∧
  switchLinkPairEnds (D:=bfs) 5 net_ring6 [0; 3; 0; 1] 6 7 = AssertFailed ∧
  switchLinkPairEnds (D:=bfs) 5 net_ring6 [0; 3; 0; 1] 6 6 ≠ AssertFailed.
Proof.
  split; [|split].
  - apply (switchLinkPairEnds_assert (D:=bfs) 5 net_ring6 [0; 3; 0; 1] 6 0).
    lia.
  - apply (switchLinkPairEnds_assert (D:=bfs) 5 net_ring6 [0; 3; 0; 1] 6 7).
    lia.
  - intros Hfail.
    apply (switchLinkPairEnds_assert (D:=bfs) 5 net_ring6 [0; 3; 0; 1] 6 6)
      in Hfail.
    lia.
Defined.

(** Of the thousand real numbers that the replaying generator can return,
    one hundred make a successful check after an earlier disconnection
    lower [limit]: the event of line 454 covers one tenth of the draws. *)
Lemma limit_decrease_fraction :
  length (filter (λ k, (limit_decrease true 6 [k]).1 = 5%Z) (seq 0 1000)) = 100.
Proof. vm_compute. reflexivity. Qed.

(** * Further properties of the three functions *)

(** X1: the list built at lines 131-135 holds every edge of a simple graph
    exactly once, with its smaller node first. *)
Theorem build_edgeList_each_edge_once (theNet : Net) :
  simple theNet →
  NoDup (build_edgeList theNet) ∧
  (∀ u v, (u, v) ∈ build_edgeList theNet ↔ u < v ∧ get theNet u v ≠ 0%Z) ∧
  (∀ u v, get theNet u v ≠ 0%Z →
     ((u, v) ∈ build_edgeList theNet ∧ (v, u) ∉ build_edgeList theNet) ∨
     ((v, u) ∈ build_edgeList theNet ∧ (u, v) ∉ build_edgeList theNet)).
Proof.
  intros Hwf. pose proof (wf_nozero' _ Hwf) as Hz.
  split; [apply NoDup_build_edgeList|]. split.
  - intros u v. by apply elem_of_build_edgeList.
  - intros u v Hg. rewrite !elem_of_build_edgeList by done.
    assert (u ≠ v) by (intros ->; by rewrite (wf_noloop _ Hwf) in Hg).
    pose proof (wf_sym _ Hwf u v) as Hsym.
    destruct (decide (u < v)); [left|right];
      (split; [split; [lia|congruence]|intros [? _]; lia]).
Qed.

Lemma build_edgeList_each_edge_once_witness :
  simple net_ring6 ∧
  build_edgeList net_ring6 = [(0, 5); (0, 1); (1, 2); (2, 3); (3, 4); (4, 5)] ∧
  NoDup (build_edgeList net_ring6) ∧
  ((0, 5) ∈ build_edgeList net_ring6 ↔ 0 < 5 ∧ get net_ring6 0 5 ≠ 0%Z).
Proof.
  destruct (build_edgeList_each_edge_once net_ring6 simple_net_ring6)
    as (Hnd & Hmem & _).
  split; [exact simple_net_ring6|]. split; [vm_compute; reflexivity|].
  split; [exact Hnd|apply Hmem].
Defined.

Section CmExtras.
Context {G : Type} `{!Generator G}.

(** X2: the value that confModelSimple returns is the number of rounds that
    made a swap; it lies between 0 and the number of rounds, and when it is
    0 the call has left the net as it was. *)
Theorem confModelSimple_count (theNet : Net) (generator : G) (repeats : Z)
    log st :
  confModelSimple_run theNet generator repeats = Ok (log, st) →
  cm_successfullRounds st =
    Z.of_nat (length (filter (λ e, e.1 = Swapped) log)) ∧
  (0 ≤ cm_successfullRounds st ≤ Z.of_nat (cm_iterations repeats))%Z ∧
  (cm_successfullRounds st = 0%Z → cm_net st = theNet).
Proof.
  intros Hrun. unfold confModelSimple_run in Hrun.
  destruct (cm_loop_count _ _ _ _ Hrun) as (Hc & Hlen & Hsame). simpl in *.
  pose proof (filter_length_le (λ e : round_tag * list Net, e.1 = Swapped) log).
  split; [lia|]. split; [lia|].
  intros H0. apply Hsame.
  apply (filter_length_0 (λ e : round_tag * list Net, e.1 = Swapped)). lia.
Qed.

(** X3: on a simple graph in which no two edges can be swapped (every two
    edges share a node or one of the crossing edges exists, as in a
    triangle or a star), confModelSimple never swaps: it returns 0 and the
    net is the one it was given. *)
Theorem confModelSimple_saturated (theNet : Net) (generator : G)
    (repeats : Z) net' g' successfullRounds :
  simple theNet → unswappable theNet →
  confModelSimple theNet generator repeats = Ok (net', g', successfullRounds) →
  net' = theNet ∧ successfullRounds = 0%Z.
Proof.
  intros Hs Hun Hrun. unfold confModelSimple in Hrun.
  destruct (confModelSimple_run theNet generator repeats)
    as [[log st]| | |] eqn:Hl; try done.
  cbn in Hrun. simplify_eq. unfold confModelSimple_run in Hl.
  by destruct (cm_loop_unswappable _ _ _ _
                 (cm_init_inv theNet generator Hs) Hun Hl) as (? & _ & ? & _).
Qed.

(** X4: on a simple graph with at least one edge, with a generator that
    keeps within the range it is asked for and [0 <= repeats <= INT_MAX],
    confModelSimple returns: it reads neither outside the edge list nor
    outside the net, and its counter does not overflow. *)
Theorem confModelSimple_returns (theNet : Net) (generator : G) (repeats : Z) :
  simple theNet → in_range_generator (G:=G) → 0 < numberOfEdges theNet →
  (0 ≤ repeats ≤ int_max)%Z →
  ∃ net' g' successfullRounds,
    confModelSimple theNet generator repeats = Ok (net', g', successfullRounds).
Proof. apply confModelSimple_total. Qed.

End CmExtras.

Lemma tape_in_range : in_range_generator (G:=list nat).
Proof.
  intros bound t Hb. simpl. unfold tape_next. simpl.
  apply Nat.mod_upper_bound. lia.
Qed.

Lemma simple_net_triangle : simple net_triangle.
Proof. unfold net_triangle. wf_mk_net. Qed.

Lemma simple_net_star4 : simple net_star4.
Proof. unfold net_star4. wf_mk_net. Qed.

Lemma unswappable_net_triangle : unswappable net_triangle.
Proof.
  apply unswappable_check_sound; [exact simple_net_triangle|].
  vm_compute. reflexivity.
Qed.

Lemma unswappable_net_star4 : unswappable net_star4.
Proof.
  apply unswappable_check_sound; [exact simple_net_star4|].
  vm_compute. reflexivity.
Qed.

Lemma confModelSimple_count_witness :
  ∃ log st,
    confModelSimple_run net_2edges [0; 0; 0; 1; 1; 0; 0; 1; 0; 0] 3
      = Ok (log, st) ∧
    log.*1 = [Coincided; Swapped; Swapped] ∧
    cm_successfullRounds st = 2%Z ∧
    cm_successfullRounds st =
      Z.of_nat (length (filter (λ e, e.1 = Swapped) log)).
Proof.
  eexists _, _. split; [vm_compute; reflexivity|].
  split; [vm_compute; reflexivity|]. split; [vm_compute; reflexivity|].
  eapply (confModelSimple_count net_2edges
            [0; 0; 0; 1; 1; 0; 0; 1; 0; 0] 3).
  vm_compute. reflexivity.
Defined.

Lemma confModelSimple_saturated_witness :
  simple net_triangle ∧ unswappable net_triangle ∧
  ∃ net' g' k,
    confModelSimple net_triangle (lcg_tape 40 7) 10 = Ok (net', g', k) ∧
    net' = net_triangle ∧ k = 0%Z.
Proof.
  split; [exact simple_net_triangle|]. split; [exact unswappable_net_triangle|].
  eexists _, _, _. split; [vm_compute; reflexivity|].
  eapply (confModelSimple_saturated net_triangle (lcg_tape 40 7) 10).
  - exact simple_net_triangle.
  - exact unswappable_net_triangle.
  - vm_compute. reflexivity.
Defined.

Lemma confModelSimple_returns_witness :
  simple net_ring6 ∧ in_range_generator (G:=list nat) ∧
  0 < numberOfEdges net_ring6 ∧
  ∃ net' g' k, confModelSimple net_ring6 (lcg_tape 40 7) 10 = Ok (net', g', k).
Proof.
  split; [exact simple_net_ring6|]. split; [exact tape_in_range|].
  split; [vm_compute; lia|].
  apply (confModelSimple_returns net_ring6 (lcg_tape 40 7) 10).
  - exact simple_net_ring6.
  - exact tape_in_range.
  - vm_compute. lia.
  - unfold int_max. lia.
Defined.

Section SlExtras.
Context {G : Type} `{!Generator G} {D : Type} `{!Dijkstrator D}.

(** X5: a completed call of switchLinkPairEnds on a simple graph leaves a
    simple graph with the same nodes in which every node has the degree it
    had; the returned number of tries is at least 1. *)
Theorem switchLinkPairEnds_keeps_degrees (fuel : nat) (theNet : Net) (g g' : G)
    (netSize : nat) (limit tries : Z) net' :
  simple theNet →
  switchLinkPairEnds fuel theNet g netSize limit = Ok (net', g', tries) →
  simple net' ∧ length net' = length theNet ∧
  (∀ u, degree net' u = degree theNet u) ∧
  (Z.of_nat fuel < size_max → 1 ≤ tries ≤ Z.of_nat fuel)%Z.
Proof.
  intros Hwf Hs.
  destruct (switchLinkPairEnds_preserves _ _ _ _ _ _ _ _ Hwf Hs)
    as (Hwf' & Hlen & Hdeg & _).
  split; [done|]. split; [done|]. split; [done|].
  intros Hfuel. unfold switchLinkPairEnds in Hs. case_decide; [|done].
  apply sl_loop_tries in Hs; lia.
Qed.

(** X6: on a simple graph in which every node below [netSize] is a node of
    the net with at least one neighbour, and with a generator that keeps
    within range, switchLinkPairEnds reads nothing outside the net and asks
    no empty row for a random key, whatever [limit] is. *)
Theorem switchLinkPairEnds_defined (fuel : nat) (theNet : Net) (g : G)
    (netSize : nat) (limit : Z) :
  simple theNet → drawable theNet netSize → in_range_generator (G:=G) →
  switchLinkPairEnds fuel theNet g netSize limit ≠ Undefined.
Proof.
  intros Hwf Hdr Hgen. unfold switchLinkPairEnds. case_decide; [|done].
  apply sl_loop_defined; try done. lia.
Qed.

(** X7: switchLinkPairEnds does not look for nodes without neighbours: when
    the first node drawn is a node of the net that has none, the call asks
    an empty row for a random key. *)
Theorem switchLinkPairEnds_isolated_node (fuel : nat) (theNet : Net) (g : G)
    (netSize : nat) (limit : Z) :
  (1 ≤ limit ≤ Z.of_nat netSize)%Z →
  (next netSize g).1 < length theNet →
  degree theNet (next netSize g).1 = 0 →
  switchLinkPairEnds (S (S fuel)) theNet g netSize limit = Undefined.
Proof.
  intros Hlim Hi Hdeg. unfold switchLinkPairEnds.
  rewrite decide_True by lia. simpl.
  destruct (next netSize g) as [i g1]. simpl in *.
  destruct (next netSize g1) as [j g2].
  unfold row_at, vec_at.
  destruct (lookup_lt_is_Some_2 _ _ Hi) as [ri Hri]. rewrite Hri. cbn.
  unfold degree in Hdeg. rewrite Hri in Hdeg. simpl in Hdeg.
  apply map_size_empty_inv in Hdeg. subst ri.
  unfold randKey. destruct (next (size (∅ : Row)) g2) as [pos g3].
  unfold keys. rewrite map_to_list_empty. done.
Qed.

(** X8: switchLinkPairEnds returns only after a swap.  On a simple graph in
    which no two edges can be swapped (a star, a triangle) no amount of fuel
    lets it return; with drawable nodes, a generator within range and a
    valid [limit] its loop is still running when the fuel is used up,
    whatever the fuel. *)
Theorem switchLinkPairEnds_unswappable (fuel : nat) (theNet : Net) (g : G)
    (netSize : nat) (limit : Z) :
  simple theNet → unswappable theNet →
  (∀ res, switchLinkPairEnds fuel theNet g netSize limit ≠ Ok res) ∧
  (drawable theNet netSize → in_range_generator (G:=G) →
   (1 ≤ limit ≤ Z.of_nat netSize)%Z →
   switchLinkPairEnds fuel theNet g netSize limit = OutOfFuel).
Proof.
  intros Hwf Hun.
  assert (∀ res, switchLinkPairEnds fuel theNet g netSize limit ≠ Ok res)
    as Hno.
  { intros [[net' g'] tries] Hs. unfold switchLinkPairEnds in Hs.
    case_decide; [|done].
    apply sl_loop_one_switch in Hs as (i & j & m & n & Hsw & _); [|done].
    by apply Hun in Hsw. }
  split; [done|]. intros Hdr Hgen Hlim.
  destruct (switchLinkPairEnds fuel theNet g netSize limit) as [res| | |] eqn:Hs;
    try done.
  - by destruct (Hno res).
  - unfold switchLinkPairEnds in Hs. rewrite decide_True in Hs by lia.
    by apply sl_loop_no_assert in Hs.
  - unfold switchLinkPairEnds in Hs. rewrite decide_True in Hs by lia.
    apply sl_loop_defined in Hs; try done. lia.
Qed.

(** X9: the shortcut of lines 290-293 is right about the switch it refuses:
    when [i] and [n], or [j] and [m], have one neighbour each, the switch
    would leave a net that is not connected; the try is refused and the net
    is not written. *)
Theorem switchLinkPairEnds_shortcut (fuel : nat) (theNet : Net) (g g' : G)
    (netSize : nat) (limit : Z) (i j m n : nat) :
  simple theNet →
  sl_draw fuel theNet g netSize = Ok (i, j, m, n, g') →
  (degree theNet i = 1 ∧ degree theNet n = 1) ∨
    (degree theNet j = 1 ∧ degree theNet m = 1) →
  sl_try theNet i j m n limit = (false, theNet) ∧
  ¬ connected (sl_switch theNet i j m n).
Proof.
  intros Hwf Hd Hdeg. apply sl_draw_spec in Hd; [|done]. split.
  - unfold sl_try. by rewrite decide_True.
  - by apply sl_switch_isolates.
Qed.

End SlExtras.

Lemma drawable_net_ring6 : drawable net_ring6 6.
Proof.
  split; [vm_compute; lia|]. intros u Hu.
  do 6 (destruct u as [|u]; [vm_compute; lia|]). lia.
Qed.

Lemma drawable_net_star4 : drawable net_star4 4.
Proof.
  split; [vm_compute; lia|]. intros u Hu.
  do 4 (destruct u as [|u]; [vm_compute; lia|]). lia.
Qed.

Lemma simple_net_path5 : simple net_path5.
Proof. unfold net_path5. wf_mk_net. Qed.

Lemma switchLinkPairEnds_keeps_degrees_witness :
  simple net_ring6 ∧
  ∃ net' g' tries,
    switchLinkPairEnds (D:=bfs) 5 net_ring6 [0; 0; 0; 0; 0; 3; 0; 1] 6 1 =
      Ok (net', g', tries) ∧
    tries = 1%Z ∧ simple net' ∧ length net' = 6 ∧
    degree net' 0 = degree net_ring6 0.
Proof.
  split; [exact simple_net_ring6|].
  eexists _, _, _. split; [vm_compute; reflexivity|].
  split; [reflexivity|].
  destruct (switchLinkPairEnds_keeps_degrees (D:=bfs) 5 net_ring6
              [0; 0; 0; 0; 0; 3; 0; 1] [] 6 1 1
              (sl_switch net_ring6 0 3 5 2) simple_net_ring6)
    as (Hs & Hlen & Hdeg & _).
  - vm_compute. reflexivity.
  - split; [exact Hs|]. split; [exact Hlen|]. apply Hdeg.
Defined.

Lemma switchLinkPairEnds_defined_witness :
  simple net_ring6 ∧ drawable net_ring6 6 ∧
  in_range_generator (G:=list nat) ∧
  switchLinkPairEnds (D:=bfs) 30 net_ring6 (lcg_tape 100 5) 6 2 ≠ Undefined.
Proof.
  split; [exact simple_net_ring6|]. split; [exact drawable_net_ring6|].
  split; [exact tape_in_range|].
  apply (switchLinkPairEnds_defined (D:=bfs) 30 net_ring6 (lcg_tape 100 5) 6 2).
  - exact simple_net_ring6.
  - exact drawable_net_ring6.
  - exact tape_in_range.
Defined.

Lemma switchLinkPairEnds_isolated_node_witness :
  degree net_isolated 2 = 0 ∧
  switchLinkPairEnds (D:=bfs) 5 net_isolated [2; 0] 3 1 = Undefined.
Proof.
  split; [vm_compute; reflexivity|].
  apply (switchLinkPairEnds_isolated_node (D:=bfs) 3 net_isolated [2; 0] 3 1).
  - lia.
  - vm_compute. lia.
  - vm_compute. reflexivity.
Defined.

Lemma switchLinkPairEnds_unswappable_witness :
  simple net_star4 ∧ unswappable net_star4 ∧ drawable net_star4 4 ∧
  switchLinkPairEnds (D:=bfs) 20 net_star4 (lcg_tape 100 3) 4 2 = OutOfFuel.
Proof.
  split; [exact simple_net_star4|]. split; [exact unswappable_net_star4|].
  split; [exact drawable_net_star4|].
  destruct (switchLinkPairEnds_unswappable (D:=bfs) 20 net_star4
              (lcg_tape 100 3) 4 2 simple_net_star4 unswappable_net_star4)
    as [_ Hout].
  apply Hout.
  - exact drawable_net_star4.
  - exact tape_in_range.
  - lia.
Defined.

Lemma switchLinkPairEnds_shortcut_witness :
  simple net_path5 ∧
  sl_draw 3 net_path5 [0; 2; 0; 1] 5 = Ok (0, 2, 1, 3, []) ∧
  degree net_path5 0 = 1 ∧ degree net_path5 3 = 1 ∧
  sl_try (D:=bfs) net_path5 0 2 1 3 2 = (false, net_path5) ∧
  ¬ connected (sl_switch net_path5 0 2 1 3).
Proof.
  split; [exact simple_net_path5|].
  split; [vm_compute; reflexivity|].
  split; [vm_compute; reflexivity|]. split; [vm_compute; reflexivity|].
  apply (switchLinkPairEnds_shortcut (D:=bfs) 3 net_path5 [0; 2; 0; 1] [] 5 2
           0 2 1 3).
  - exact simple_net_path5.
  - vm_compute. reflexivity.
  - left. split; vm_compute; reflexivity.
Defined.

Section RzExtras.
Context {G : Type} `{!Generator G} {D : Type} `{!Dijkstrator D}.

(** X10: a completed call of randomize on a simple graph returns a simple
    graph with the same nodes, the same number of edges and the same
    weights of edges, counted with multiplicity; switches and restored
    backups alike keep them. *)
Theorem randomize_keeps_edges (fuel : nat) (net : Net) (generator : G)
    (rounds : nat) (limit : Z) (st : rz_state (G:=G)) :
  simple net →
  randomize fuel net generator rounds limit = Ok st →
  simple (rz_net st) ∧ length (rz_net st) = length net ∧
  numberOfEdges (rz_net st) = numberOfEdges net ∧
  edge_weights (rz_net st) = edge_weights net ∧
  total_weight (rz_net st) = total_weight net.
Proof.
  intros Hwf Hr. unfold randomize in Hr.
  destruct (rz_rounds_net fuel rounds 0 (length net) (numberOfEdges net)
              (RzState net generator limit false []) st Hwf Hr)
    as (Hwf' & Hlen & _).
  destruct (rz_rounds_weights fuel rounds 0 (length net) (numberOfEdges net)
              (RzState net generator limit false []) st Hwf Hr)
    as (Hn & He & Ht).
  done.
Qed.

(** X11: with at least one round, a completed call of randomize on a simple
    graph returns a connected net whether or not the net it was given was
    connected: the last thing a round does is pass the check. *)
Theorem randomize_connected_after_round (fuel : nat) (net : Net)
    (generator : G) (rounds : nat) (limit : Z) (st : rz_state (G:=G)) :
  simple net → 0 < rounds →
  randomize fuel net generator rounds limit = Ok st →
  connected (rz_net st).
Proof.
  intros Hwf Hrounds Hr. unfold randomize in Hr.
  destruct (rz_rounds_net fuel rounds 0 (length net) (numberOfEdges net)
              (RzState net generator limit false []) st Hwf Hr)
    as (Hwf' & _ & _ & Hc).
  apply ConnectivityCheck_sound; [done|]. by apply Hc.
Qed.

(** X12: in a completed call of randomize on a net with at least one edge,
    every check was made with [limit] between 1 and the number of nodes,
    and every failed check with [limit + 5] at most the number of nodes:
    line 446 adds 5 without looking at the number of nodes, and the
    assertion of switchLinkPairEnds stops the call on the next switch when
    the sum is larger.  So a completed call on fewer than six nodes had no
    failed check. *)
Theorem randomize_checks_in_range (fuel : nat) (net : Net) (generator : G)
    (rounds : nat) (limit : Z) (st : rz_state (G:=G)) :
  0 < numberOfEdges net →
  (Z.of_nat (length net) + 5 < size_max)%Z →
  randomize fuel net generator rounds limit = Ok st →
  Forall (λ ev, (1 ≤ ev_limit_was ev ≤ Z.of_nat (length net))%Z ∧
                (ev_connected ev = false →
                 (ev_limit_was ev + 5 ≤ Z.of_nat (length net))%Z))
    (rz_log st) ∧
  (length net < 6 → Forall (λ ev, ev_connected ev = true) (rz_log st)).
Proof.
  intros Hnum Hsize Hr. unfold randomize in Hr.
  apply rz_rounds_events in Hr as (log & Hlog & _ & Hall); [|done].
  simpl in Hlog. subst log.
  assert (Forall (λ ev, (1 ≤ ev_limit_was ev ≤ Z.of_nat (length net))%Z ∧
                (ev_connected ev = false →
                 (ev_limit_was ev + 5 ≤ Z.of_nat (length net))%Z))
            (rz_log st)) as Hall'.
  { eapply Forall_impl; [exact Hall|]. simpl. intros ev [Hwas Hfail].
    split; [done|]. intros Hc. destruct (Hfail Hc) as [Hafter Hrange].
    rewrite Hafter in Hrange. unfold limit_increase in Hrange.
    rewrite Z.mod_small in Hrange by lia. lia. }
  split; [done|]. intros Hsmall.
  eapply Forall_impl; [exact Hall'|]. simpl. intros ev [Hwas Hfail].
  destruct (ev_connected ev); [done|]. specialize (Hfail eq_refl). lia.
Qed.

(** X13: randomize does not check [limit] itself.  With at least one round
    and at least one edge, a [limit] outside [1 .. number of nodes] stops
    the call at the assertion of the first switch. *)
Theorem randomize_assert (fuel : nat) (net : Net) (generator : G)
    (rounds : nat) (limit : Z) :
  0 < rounds → 0 < numberOfEdges net →
  ¬ (1 ≤ limit ∧ limit ≤ Z.of_nat (length net))%Z →
  randomize (S fuel) net generator rounds limit = AssertFailed.
Proof. intros ? ? ?. unfold randomize. by apply rz_rounds_assert. Qed.

(** X14: in a completed call of randomize on a net with at least one edge,
    the successful checks are one per round, in the order of the rounds;
    the failed checks come on top. *)
Theorem randomize_one_success_per_round (fuel : nat) (net : Net)
    (generator : G) (rounds : nat) (limit : Z) (st : rz_state (G:=G)) :
  0 < numberOfEdges net →
  randomize fuel net generator rounds limit = Ok st →
  ev_round <$> filter (λ ev, ev_connected ev = true) (rz_log st) =
    seq 0 rounds ∧
  rounds ≤ length (rz_log st).
Proof.
  intros Hnum Hr. unfold randomize in Hr.
  apply rz_rounds_events in Hr as (log & Hlog & Hseq & _); [|done].
  simpl in Hlog. subst log. split; [done|].
  apply (f_equal length) in Hseq. rewrite length_fmap, length_seq in Hseq.
  rewrite <- Hseq. apply filter_length_le.
Qed.

End RzExtras.

Lemma randomize_keeps_edges_witness :
  simple (net_ring 16) ∧
  ∃ st, randomize (D:=bfs) 100 (net_ring 16) (lcg_tape 500 1) 2 1 = Ok st ∧
    rz_net st ≠ net_ring 16 ∧
    simple (rz_net st) ∧ length (rz_net st) = length (net_ring 16) ∧
    numberOfEdges (rz_net st) = numberOfEdges (net_ring 16) ∧
    edge_weights (rz_net st) = edge_weights (net_ring 16) ∧
    total_weight (rz_net st) = total_weight (net_ring 16).
Proof.
  split; [exact simple_net_ring16|].
  assert (∃ st, randomize (D:=bfs) 100 (net_ring 16) (lcg_tape 500 1) 2 1
                = Ok st ∧ rz_net st ≠ net_ring 16) as (st & Hst & Hne).
  { vm_compute. eexists. split; [reflexivity|]. intros Heq. discriminate Heq. }
  exists st. split; [exact Hst|]. split; [exact Hne|].
  apply (randomize_keeps_edges (D:=bfs) 100 (net_ring 16)
           (lcg_tape 500 1) 2 1 st).
  - exact simple_net_ring16.
  - exact Hst.
Defined.

Lemma simple_net_2triangles : simple net_2triangles.
Proof. unfold net_2triangles. wf_mk_net. Qed.

Lemma randomize_connected_after_round_witness :
  simple net_2triangles ∧ ¬ connected net_2triangles ∧
  ∃ st, randomize (D:=bfs) 60 net_2triangles (lcg_tape 100 1) 1 1 = Ok st ∧
    connected (rz_net st).
Proof.
  split; [exact simple_net_2triangles|]. split.
  { intros Hc.
    assert (ConnectivityCheck net_2triangles = true) as Hcheck
      by (apply ConnectivityCheck_complete;
          [exact simple_net_2triangles|exact Hc]).
    vm_compute in Hcheck. discriminate Hcheck. }
  assert (∃ st, randomize (D:=bfs) 60 net_2triangles (lcg_tape 100 1) 1 1
                = Ok st) as [st Hst].
  { vm_compute. eexists. reflexivity. }
  exists st. split; [exact Hst|].
  apply (randomize_connected_after_round (D:=bfs) 60 net_2triangles
           (lcg_tape 100 1) 1 1 st).
  - exact simple_net_2triangles.
  - lia.
  - exact Hst.
Defined.

Lemma randomize_checks_in_range_witness :
  ∃ st, randomize (D:=bfs) 100 (net_ring 16) (lcg_tape 500 1) 2 1 = Ok st ∧
    (ev_connected <$> rz_log st) = [false; true; true] ∧
    Forall (λ ev, (1 ≤ ev_limit_was ev ≤ 16)%Z ∧
                  (ev_connected ev = false → (ev_limit_was ev + 5 ≤ 16)%Z))
      (rz_log st).
Proof.
  assert (∃ st, randomize (D:=bfs) 100 (net_ring 16) (lcg_tape 500 1) 2 1
                = Ok st ∧ (ev_connected <$> rz_log st) = [false; true; true])
    as (st & Hst & Hlog).
  { vm_compute. eexists. split; reflexivity. }
  exists st. split; [exact Hst|]. split; [exact Hlog|].
  destruct (randomize_checks_in_range (D:=bfs) 100 (net_ring 16)
              (lcg_tape 500 1) 2 1 st) as [Hall _].
  - vm_compute. lia.
  - vm_compute. reflexivity.
  - exact Hst.
  - exact Hall.
Defined.

Lemma randomize_assert_witness :
  randomize (D:=bfs) 1 net_ring6 [0; 3; 0; 1] 1 0 = AssertFailed ∧
  randomize (D:=bfs) 1 net_ring6 [0; 3; 0; 1] 1 7 = AssertFailed.
Proof.
  split.
  - apply (randomize_assert (D:=bfs) 0 net_ring6 [0; 3; 0; 1] 1 0).
    + lia.
    + vm_compute. lia.
    + lia.
  - apply (randomize_assert (D:=bfs) 0 net_ring6 [0; 3; 0; 1] 1 7).
    + lia.
    + vm_compute. lia.
    + change (length net_ring6) with 6. lia.
Defined.

Lemma randomize_one_success_per_round_witness :
  ∃ st, randomize (D:=bfs) 100 (net_ring 16) (lcg_tape 500 1) 2 1 = Ok st ∧
    length (rz_log st) = 3 ∧
    ev_round <$> filter (λ ev, ev_connected ev = true) (rz_log st) = [0; 1].
Proof.
  assert (∃ st, randomize (D:=bfs) 100 (net_ring 16) (lcg_tape 500 1) 2 1
                = Ok st ∧ length (rz_log st) = 3) as (st & Hst & Hlen).
  { vm_compute. eexists. split; reflexivity. }
  exists st. split; [exact Hst|]. split; [exact Hlen|].
  destruct (randomize_one_success_per_round (D:=bfs) 100 (net_ring 16)
              (lcg_tape 500 1) 2 1 st) as [Hseq _].
  - vm_compute. lia.
  - exact Hst.
  - exact Hseq.
Defined.

(** * Further properties: switchConnections *)

Section ScExtras.
Context {G : Type} `{!Generator G}.
Variable to_float : Z → Z.
Variable iter_clear : Net → nat → nat → Net.
Hypothesis iter_clear_removes : ∀ net u v, iter_clear net u v = set net u v 0.

(** X15: a completed call of switchConnections on a simple graph has drawn
    two different nodes [i] and [j] and has exchanged their edges: the edge
    between the two is gone, [i] has the other edges of [j] with their
    weights, [j] has the other edges of [i] with the weights that went
    through the [float] map, and every edge that touches neither node is
    as it was. *)
Theorem switchConnections_exchanges (fuel : nat) (theNet : Net) (g g' : G)
    (netSize : nat) net' :
  simple theNet →
  switchConnections to_float iter_clear fuel theNet g netSize
    = Ok (net', g') →
  ∃ i j, sc_draw fuel g netSize = Ok (i, j, g') ∧ i ≠ j ∧
    get net' i j = 0%Z ∧
    (∀ k, k ≠ i → k ≠ j → get net' i k = get theNet j k) ∧
    (∀ k, k ≠ i → k ≠ j → get theNet i k ≠ 0%Z →
       get net' j k = to_float (get theNet i k)) ∧
    (∀ k, k ≠ i → k ≠ j → get theNet i k = 0%Z → get net' j k = 0%Z) ∧
    (∀ x y, x ≠ i → x ≠ j → y ≠ i → y ≠ j →
       get net' x y = get theNet x y).
Proof using Type*.
  intros Hwf Hs.
  destruct (switchConnections_spec _ _ iter_clear_removes _ _ _ _ _ _ Hwf Hs)
    as (i & j & Hd & Hij & _ & _ & _ & _ & H0 & Hi & Hj & Ho).
  exists i, j. split; [done|]. split; [done|]. split; [done|].
  split; [done|]. split; [|split; [|done]].
  - intros k ?? Hk. rewrite Hj by done. by rewrite decide_False.
  - intros k ?? Hk. rewrite Hj by done. by rewrite decide_True.
Qed.

(** X16: a completed call of switchConnections on a simple graph leaves a
    simple graph with the same nodes: the weights are symmetric, no node is
    linked to itself and no zero weight is stored. *)
Theorem switchConnections_simple (fuel : nat) (theNet : Net) (g g' : G)
    (netSize : nat) net' :
  simple theNet →
  switchConnections to_float iter_clear fuel theNet g netSize
    = Ok (net', g') →
  simple net' ∧ length net' = length theNet.
Proof using Type*.
  intros Hwf Hs.
  destruct (switchConnections_spec _ _ iter_clear_removes _ _ _ _ _ _ Hwf Hs)
    as (i & j & _ & _ & _ & _ & Hwf' & Hlen & _).
  done.
Qed.

(** X17: switchConnections exchanges the degrees of the two drawn nodes
    when they are not neighbours, and gives each the degree of the other
    less one when they are; every other node keeps its degree.  The
    weights must not become zero on their way through the [float] map. *)
Theorem switchConnections_degrees (fuel : nat) (theNet : Net) (g g' : G)
    (netSize : nat) net' :
  (∀ w, w ≠ 0%Z → to_float w ≠ 0%Z) →
  simple theNet →
  switchConnections to_float iter_clear fuel theNet g netSize
    = Ok (net', g') →
  ∃ i j, sc_draw fuel g netSize = Ok (i, j, g') ∧
    degree net' i + (if decide (get theNet i j = 0%Z) then 0 else 1)
      = degree theNet j ∧
    degree net' j + (if decide (get theNet i j = 0%Z) then 0 else 1)
      = degree theNet i ∧
    ∀ u, u ≠ i → u ≠ j → degree net' u = degree theNet u.
Proof using Type*.
  intros Hf Hwf Hs.
  destruct (switchConnections_spec _ _ iter_clear_removes _ _ _ _ _ _ Hwf Hs)
    as (i & j & Hd & Hij & _ & _ & Hwf' & _ & Hsw).
  exists i, j. split; [done|].
  by apply (switched_degree to_float Hf).
Qed.

(** X18: switchConnections does not keep the number of edges when the two
    drawn nodes are neighbours: the edge between them is lost, and it is
    the only one. *)
Theorem switchConnections_edge_count (fuel : nat) (theNet : Net) (g g' : G)
    (netSize : nat) net' :
  (∀ w, w ≠ 0%Z → to_float w ≠ 0%Z) →
  simple theNet →
  switchConnections to_float iter_clear fuel theNet g netSize
    = Ok (net', g') →
  ∃ i j, sc_draw fuel g netSize = Ok (i, j, g') ∧
    numberOfEdges net' + (if decide (get theNet i j = 0%Z) then 0 else 1)
      = numberOfEdges theNet.
Proof using Type*.
  intros Hf Hwf Hs.
  destruct (switchConnections_spec _ _ iter_clear_removes _ _ _ _ _ _ Hwf Hs)
    as (i & j & Hd & Hij & _ & _ & Hwf' & _ & Hsw).
  exists i, j. split; [done|].
  by apply (switched_numberOfEdges to_float Hf).
Qed.

(** X19: after switchConnections two nodes are neighbours exactly when
    the nodes in their place before the call were, where the two drawn
    nodes stand in each other's place and every other node in its own;
    the two drawn nodes themselves are never neighbours afterwards. *)
Theorem switchConnections_relabels (fuel : nat) (theNet : Net) (g g' : G)
    (netSize : nat) net' :
  (∀ w, w ≠ 0%Z → to_float w ≠ 0%Z) →
  simple theNet →
  switchConnections to_float iter_clear fuel theNet g netSize
    = Ok (net', g') →
  ∃ i j, sc_draw fuel g netSize = Ok (i, j, g') ∧
    ∀ x y, adjacent net' x y ↔
      ¬ same_edge x y i j ∧
      adjacent theNet (exchange i j x) (exchange i j y).
Proof using Type*.
  intros Hf Hwf Hs.
  destruct (switchConnections_spec _ _ iter_clear_removes _ _ _ _ _ _ Hwf Hs)
    as (i & j & Hd & Hij & _ & _ & Hwf' & _ & Hsw).
  exists i, j. split; [done|]. intros x y.
  by apply (switched_adjacent to_float Hf).
Qed.

(** X20: on a simple graph with [netSize] at least 1 and at most the
    number of nodes, and with a generator that keeps within range,
    switchConnections reads nothing outside the net. *)
Theorem switchConnections_defined (fuel : nat) (theNet : Net) (g : G)
    (netSize : nat) :
  simple theNet → 0 < netSize ≤ length theNet →
  in_range_generator (G:=G) →
  switchConnections to_float iter_clear fuel theNet g netSize ≠ Undefined.
Proof using Type*.
  intros Hwf Hn Hgen.
  destruct (sc_draw_cases fuel g netSize Hgen ltac:(lia))
    as [Hd|(i & j & g' & Hd & Hi & Hj & _)].
  - unfold switchConnections. by rewrite Hd.
  - destruct (switchConnections_draw_ok to_float iter_clear
                iter_clear_removes fuel theNet g g' netSize i j Hwf
                ltac:(lia) ltac:(lia) Hd) as [net' Hs].
    by rewrite Hs.
Qed.

(** X21: with [netSize] 1 the loop of lines 215-218 draws the same node
    twice in every round: switchConnections does not return, whatever the
    net is. *)
Theorem switchConnections_one_node (fuel : nat) (theNet : Net) (g : G) :
  in_range_generator (G:=G) →
  switchConnections to_float iter_clear fuel theNet g 1 = OutOfFuel.
Proof.
  intros Hgen. unfold switchConnections.
  by rewrite (sc_draw_one_node fuel g Hgen).
Qed.

End ScExtras.

Lemma switchConnections_exchanges_witness :
  simple net_path5 ∧
  ∃ net',
    switchConnections (λ w, w) (λ net u v, set net u v 0) 1 net_path5
      [1; 4] 5 = Ok (net', []) ∧
    get net' 1 4 = 0%Z ∧ get net' 1 2 = get net_path5 4 2 ∧
    get net' 4 0 = get net_path5 1 0 ∧ get net' 2 3 = get net_path5 2 3.
Proof.
  split; [exact simple_net_path5|].
  assert (∃ n, switchConnections (λ w, w) (λ net u v, set net u v 0) 1
                 net_path5 [1; 4] 5 = Ok (n, [])) as [net' E].
  { vm_compute. eauto. }
  exists net'. split; [exact E|].
  destruct (switchConnections_exchanges (G:=list nat) (λ w, w)
              (λ net u v, set net u v 0) (λ _ _ _, eq_refl)
              1 net_path5 [1; 4] [] 5 net' simple_net_path5 E)
    as (i & j & Hd & _ & H0 & Hi & Hj & _ & Ho).
  vm_compute in Hd. injection Hd as <- <-.
  split; [exact H0|]. split; [apply Hi; lia|].
  split; [apply Hj; [lia|lia|vm_compute; lia]|]. apply Ho; lia.
Defined.

Lemma switchConnections_simple_witness :
  simple net_path5 ∧
  ∃ net',
    switchConnections (λ w, w) (λ net u v, set net u v 0) 1 net_path5
      [1; 4] 5 = Ok (net', []) ∧
    simple net' ∧ length net' = 5.
Proof.
  split; [exact simple_net_path5|].
  assert (∃ n, switchConnections (λ w, w) (λ net u v, set net u v 0) 1
                 net_path5 [1; 4] 5 = Ok (n, [])) as [net' E].
  { vm_compute. eauto. }
  exists net'. split; [exact E|].
  exact (switchConnections_simple (G:=list nat) (λ w, w)
           (λ net u v, set net u v 0) (λ _ _ _, eq_refl)
           1 net_path5 [1; 4] [] 5 net' simple_net_path5 E).
Defined.

Lemma switchConnections_degrees_witness :
  simple net_path5 ∧
  ∃ net',
    switchConnections (λ w, w) (λ net u v, set net u v 0) 1 net_path5
      [1; 4] 5 = Ok (net', []) ∧
    degree net' 1 + 1 = degree net_path5 4 ∧
    degree net' 4 + 1 = degree net_path5 1 ∧
    degree net' 0 = degree net_path5 0.
Proof.
  split; [exact simple_net_path5|].
  assert (∃ n, switchConnections (λ w, w) (λ net u v, set net u v 0) 1
                 net_path5 [1; 4] 5 = Ok (n, [])) as [net' E].
  { vm_compute. eauto. }
  exists net'. split; [exact E|].
  destruct (switchConnections_degrees (G:=list nat) (λ w, w)
              (λ net u v, set net u v 0) (λ _ _ _, eq_refl)
              1 net_path5 [1; 4] [] 5 net' (λ w H, H) simple_net_path5 E)
    as (i & j & Hd & Hi & Hj & Ho).
  vm_compute in Hd. injection Hd as <- <-.
  split; [exact Hi|]. split; [exact Hj|]. apply Ho; lia.
Defined.

Lemma switchConnections_edge_count_witness :
  simple net_path5 ∧
  ∃ net',
    switchConnections (λ w, w) (λ net u v, set net u v 0) 1 net_path5
      [1; 4] 5 = Ok (net', []) ∧
    numberOfEdges net' + 1 = numberOfEdges net_path5.
Proof.
  split; [exact simple_net_path5|].
  assert (∃ n, switchConnections (λ w, w) (λ net u v, set net u v 0) 1
                 net_path5 [1; 4] 5 = Ok (n, [])) as [net' E].
  { vm_compute. eauto. }
  exists net'. split; [exact E|].
  destruct (switchConnections_edge_count (G:=list nat) (λ w, w)
              (λ net u v, set net u v 0) (λ _ _ _, eq_refl)
              1 net_path5 [1; 4] [] 5 net' (λ w H, H) simple_net_path5 E)
    as (i & j & Hd & Hn).
  vm_compute in Hd. injection Hd as <- <-. exact Hn.
Defined.

Lemma switchConnections_relabels_witness :
  simple net_path5 ∧
  ∃ net',
    switchConnections (λ w, w) (λ net u v, set net u v 0) 1 net_path5
      [1; 4] 5 = Ok (net', []) ∧
    adjacent net' 4 0 ∧ ¬ adjacent net' 1 4.
Proof.
  split; [exact simple_net_path5|].
  assert (∃ n, switchConnections (λ w, w) (λ net u v, set net u v 0) 1
                 net_path5 [1; 4] 5 = Ok (n, [])) as [net' E].
  { vm_compute. eauto. }
  exists net'. split; [exact E|].
  destruct (switchConnections_relabels (G:=list nat) (λ w, w)
              (λ net u v, set net u v 0) (λ _ _ _, eq_refl)
              1 net_path5 [1; 4] [] 5 net' (λ w H, H) simple_net_path5 E)
    as (i & j & Hd & Hadj).
  vm_compute in Hd. injection Hd as <- <-. split.
  - apply Hadj. split; [|vm_compute; lia].
    unfold same_edge. lia.
  - intros H14. apply Hadj in H14 as [Hne _]. apply Hne. by left.
Defined.

Lemma switchConnections_defined_witness :
  simple net_path5 ∧ 0 < 5 ≤ length net_path5 ∧
  in_range_generator (G:=list nat) ∧
  switchConnections (λ w, w) (λ net u v, set net u v 0) 8 net_path5
    (lcg_tape 100 5) 5 ≠ Undefined.
Proof.
  split; [exact simple_net_path5|].
  split; [change (length net_path5) with 5; lia|].
  split; [exact tape_in_range|].
  apply (switchConnections_defined (G:=list nat) (λ w, w)
           (λ net u v, set net u v 0) (λ _ _ _, eq_refl)
           8 net_path5 (lcg_tape 100 5) 5).
  - exact simple_net_path5.
  - change (length net_path5) with 5. lia.
  - exact tape_in_range.
Defined.

Lemma switchConnections_one_node_witness :
  in_range_generator (G:=list nat) ∧
  switchConnections (λ w, w) (λ net u v, set net u v 0) 7 net_path5
    [3; 1; 2] 1 = OutOfFuel.
Proof.
  split; [exact tape_in_range|].
  apply (switchConnections_one_node (G:=list nat) (λ w, w)
           (λ net u v, set net u v 0) 7 net_path5 [3; 1; 2]).
  exact tape_in_range.
Defined.
